(** * A buddy page allocator: model of [buddy.cpp] and its properties

    The allocator keeps one address-sorted, singly linked free list per
    order in the array [_free_areas[MAX_ORDER+1]].  A page descriptor is
    identified with its page-frame number (the source converts between the
    two with [pgd_to_pfn] / [pfn_to_pgd], an order-preserving bijection), so
    an order's free list is the sequence of frame numbers met when following
    [next_free] from the head, and the table is a list of [MAX_ORDER+1]
    such sequences.

    The link [next_free] lives in the page descriptor, so in the source a
    block can be on one list only; the sequences stand for the lists as
    long as no block is linked in twice, which the preconditions of
    [free_pages] and [insert_page_range] (the pages are not free) rule out.

    The methods of [BuddyPageAllocator] are written in a small state and
    error monad: an [assert] that fails is [AssertFail], an array index
    outside [_free_areas] or the use of a null pointer is [Undefined], and
    a loop that is cut off by its fuel is [OutOfFuel]; the fuel each method
    gives its loops is a bound on their rounds, and no result stated below
    is [OutOfFuel]. *)

From Stdlib Require Import ZArith Lia Bool.
From stdpp Require Import base tactics option list.

Local Open Scope Z_scope.

(** ** Data model *)

Abbreviation pfn := Z (only parsing).

(** [_free_areas]: entry [k] is the free list of order [k]. *)
Abbreviation free_areas := (list (list Z)) (only parsing).

Definition MAX_ORDER : Z := 18.

(** A slot is the address of a list link: the link at position [slot_pos]
    of the free list of order [slot_order] (position 0 is the array entry
    itself, position [i+1] the [next_free] field of the [i]-th block). *)
Record slot : Type := mk_slot { slot_order : Z; slot_pos : nat }.

(** ** The monad *)

Inductive outcome (A : Type) : Type :=
| Ret (a : A) (st : free_areas)
| AssertFail
| Undefined
| OutOfFuel.

Arguments Ret {A} a st.
Arguments AssertFail {A}.
Arguments Undefined {A}.
Arguments OutOfFuel {A}.

Definition M (A : Type) : Type := free_areas -> outcome A.

Definition ret {A} (a : A) : M A := fun st => Ret a st.

Definition bind {A B} (c : M A) (k : A -> M B) : M B :=
  fun st =>
    match c st with
    | Ret a st' => k a st'
    | AssertFail => AssertFail
    | Undefined => Undefined
    | OutOfFuel => OutOfFuel
    end.

Definition assert (b : bool) : M unit :=
  fun st => if b then Ret tt st else AssertFail.

Definition undefined {A} : M A := fun _ => Undefined.
Definition out_of_fuel {A} : M A := fun _ => OutOfFuel.

Notation "'do' x <- c1 ; c2" := (bind c1 (fun x => c2))
  (at level 10, x name, c1 at level 100, c2 at level 200).
Notation "c1 ;; c2" := (bind c1 (fun _ => c2))
  (at level 100, c2 at level 200, right associativity).

(** [_free_areas[order]] read and written; the array has [MAX_ORDER+1]
    entries, any other index is out of bounds. *)
Definition in_bounds (order : Z) : bool := (0 <=? order) && (order <=? MAX_ORDER).

Definition read_area (order : Z) : M (list Z) :=
  fun st =>
    if in_bounds order then
      match st !! Z.to_nat order with
      | Some l => Ret l st
      | None => Undefined
      end
    else Undefined.

Definition write_area (order : Z) (l : list Z) : M unit :=
  fun st =>
    if in_bounds order then
      match st !! Z.to_nat order with
      | Some _ => Ret tt (<[Z.to_nat order := l]> st)
      | None => Undefined
      end
    else Undefined.

(** [*slot]: the block the link points to, [None] for a null link. *)
Definition deref (s : slot) : M (option Z) :=
  do l <- read_area (slot_order s); ret (l !! slot_pos s).

(** ** Alignment and buddy computation *)

(** [1 << order], a shift of the [int] 1: [2^order] for the orders from 0
    to 30, and the allocator shifts by at most [MAX_ORDER + 1].  A shift by
    a negative amount or by more than 31 is undefined in the source: an
    outcome that depends on the value of the shift is stated below for the
    orders of the table only. *)
Definition pages_per_block (order : Z) : Z := Z.shiftl 1 order.

Definition is_correct_alignment_for_order (pgd : pfn) (order : Z) : bool :=
  pgd mod pages_per_block order =? 0.

(** [None] is the null pointer. *)
Definition buddy_of (pgd : pfn) (order : Z) : option Z :=
  if MAX_ORDER <=? order then None
  else if negb (is_correct_alignment_for_order pgd order) then None
  else
    Some (if is_correct_alignment_for_order pgd (order + 1)
          then pgd + pages_per_block order
          else pgd - pages_per_block order).

(** ** List operations *)

(** The walk of [insert_block]: advance while the link is not null and
    [pgd > *slot], then link [pgd] in.  The source stores the link in the
    descriptor ([pgd->next_free = *slot]): the sequence with [pgd] put in
    is the list the source leaves when [pgd] is in no list of the table and
    no frame is linked twice, and then no other list changes. *)
Fixpoint insert_sorted (pgd : pfn) (l : list Z) : list Z :=
  match l with
  | [] => [pgd]
  | x :: l' => if x <? pgd then x :: insert_sorted pgd l' else pgd :: l
  end.

(** Number of links the walk of [insert_block] passes over. *)
Fixpoint insert_pos (pgd : pfn) (l : list Z) : nat :=
  match l with
  | [] => 0%nat
  | x :: l' => if x <? pgd then S (insert_pos pgd l') else 0%nat
  end.

Definition insert_block (pgd : pfn) (order : Z) : M slot :=
  do l <- read_area order;
  write_area order (insert_sorted pgd l);;
  ret (mk_slot order (insert_pos pgd l)).

(** The walk of [remove_block]: advance while the link is not null and
    differs from [pgd]; [None] when the end of the list is reached, where the
    assertion that the link holds [pgd] fails.  The source also clears
    [pgd->next_free]; with no frame linked twice this is seen in no other
    list. *)
Fixpoint unlink (pgd : pfn) (l : list Z) : option (list Z) :=
  match l with
  | [] => None
  | x :: l' => if x =? pgd then Some l' else cons x <$> unlink pgd l'
  end.

Definition remove_block (pgd : pfn) (order : Z) : M unit :=
  do l <- read_area order;
  match unlink pgd l with
  | Some l' => write_area order l'
  | None => fun _ => AssertFail
  end.

(** ** Split and merge *)

(** [split_block(&block, source_order)]: the only caller passes the address
    of its local variable, so [*block_pointer] is that variable's value
    throughout; [None] is a null [block]. *)
Definition split_block (block : option Z) (source_order : Z) : M Z :=
  match block with
  | None => fun _ => AssertFail
  | Some left_ =>
      assert (is_correct_alignment_for_order left_ source_order);;
      if source_order =? 0 then ret left_
      else
        let right_ := left_ + pages_per_block (source_order - 1) in
        remove_block left_ source_order;;
        insert_block left_ (source_order - 1);;
        insert_block right_ (source_order - 1);;
        ret left_
  end.

(** [merge_block(block_pointer, source_order)]; [block_pointer] is a slot
    of a free list and is dereferenced on entry.  With a null buddy the
    second [remove_block] walks to the end of the list, passes its
    assertion (null equals null) and reads [next_free] of the null
    pointer. *)
Definition merge_block (block_pointer : slot) (source_order : Z) : M slot :=
  do p <- deref block_pointer;
  match p with
  | None => fun _ => AssertFail
  | Some left_ =>
      assert (is_correct_alignment_for_order left_ source_order);;
      match buddy_of left_ source_order with
      | None => remove_block left_ source_order;; undefined
      | Some right_ =>
          remove_block left_ source_order;;
          remove_block right_ source_order;;
          if is_correct_alignment_for_order left_ (source_order + 1)
          then insert_block left_ (source_order + 1)
          else insert_block right_ (source_order + 1)
      end
  end.

(** ** Allocation *)

(** The first loop of [allocate_pages]: [Some free] is the value of [free]
    when the loop is left, [None] the [return NULL] inside it. *)
Fixpoint find_free (fuel : nat) (free : Z) : M (option Z) :=
  if free <=? MAX_ORDER then
    do l <- read_area free;
    match l with
    | [] =>
        if free =? MAX_ORDER then ret None
        else
          match fuel with
          | O => out_of_fuel
          | S fuel' => find_free fuel' (free + 1)
          end
    | _ :: _ => ret (Some free)
    end
  else ret (Some free).

(** The second loop: [for (i = free; i > order; i--) block = split_block(&block, i)]. *)
Fixpoint split_down (fuel : nat) (i order : Z) (block : option Z) : M (option Z) :=
  if order <? i then
    match fuel with
    | O => out_of_fuel
    | S fuel' =>
        do b <- split_block block i;
        split_down fuel' (i - 1) order (Some b)
    end
  else ret block.

(** [None] is the null result. *)
Definition allocate_pages (order : Z) : M (option Z) :=
  do found <- find_free (Z.to_nat (MAX_ORDER - order)) order;
  match found with
  | None => ret None
  | Some free =>
      do l <- read_area free;
      do block <- split_down (Z.to_nat (free - order)) free order (head l);
      match block with
      | None => undefined
      | Some b => remove_block b order;; ret (Some b)
      end
  end.

(** ** Freeing *)

(** The cursor [block] of [repeated_merge] walking one free list: [true]
    when it reaches [buddy], [false] when it runs off the end. *)
Fixpoint scan_for (buddy : option Z) (cursor : list Z) : bool :=
  match cursor with
  | [] => false
  | b :: rest =>
      if bool_decide (Some b = buddy) then true else scan_for buddy rest
  end.

(** [repeated_merge], one round per order: read the head of the current
    list and the buddy of [*curr_block], walk the list, and on a hit merge
    and start over one order up. *)
Fixpoint merge_loop (fuel : nat) (curr_block : slot) (curr_order : Z) : M unit :=
  do block <- read_area curr_order;
  do p <- deref curr_block;
  match p with
  | None => undefined
  | Some pgd =>
      let buddy := buddy_of pgd curr_order in
      if (curr_order <? MAX_ORDER) && scan_for buddy block then
        match fuel with
        | O => out_of_fuel
        | S fuel' =>
            do curr_block' <- merge_block curr_block curr_order;
            merge_loop fuel' curr_block' (curr_order + 1)
        end
      else ret tt
  end.

(** The order goes up by one with every merge and the loop stops at
    [MAX_ORDER], so [MAX_ORDER - order] rounds of merging are enough. *)
Definition repeated_merge (block_pointer : slot) (order : Z) : M unit :=
  merge_loop (Z.to_nat (MAX_ORDER - order)) block_pointer order.

(** [free_pages]; with a negative [order] the alignment test shifts by a
    negative amount. *)
Definition free_pages (pgd : pfn) (order : Z) : M unit :=
  if order <? 0 then undefined
  else
    assert (is_correct_alignment_for_order pgd order);;
    do block <- insert_block pgd order;
    repeated_merge block order.

(** ** Ranges *)

(** The inner loop of [insert_page_range], [size] running from [MAX_ORDER]
    down; the result is the value of [size] when the loop is left, [-1]
    when it runs to its end. *)
Fixpoint find_size (size : nat) (start : pfn) (count : Z) : Z :=
  if (count <? pages_per_block (Z.of_nat size))
     || negb (is_correct_alignment_for_order start (Z.of_nat size))
  then
    match size with
    | O => -1
    | S size' => find_size size' start count
    end
  else Z.of_nat size.

(** The [while (count > 0)] loop of [insert_page_range]; every round takes
    at least one page off [count], so [count] rounds are enough. *)
Fixpoint insert_range_loop (fuel : nat) (start : pfn) (count : Z) : M unit :=
  if 0 <? count then
    match fuel with
    | O => out_of_fuel
    | S fuel' =>
        let size := find_size (Z.to_nat MAX_ORDER) start count in
        free_pages start size;;
        insert_range_loop fuel' (start + pages_per_block size)
                          (count - pages_per_block size)
    end
  else ret tt.

Definition insert_page_range (start : pfn) (count : Z) : M unit :=
  insert_range_loop (Z.to_nat count) start count.

(** Unsigned 32- and 64-bit wrap-around, and the conversion of a
    [uint32_t] to [int]. *)
Definition wrap32 (z : Z) : Z := z mod 2 ^ 32.
Definition wrap64 (z : Z) : Z := z mod 2 ^ 64.
Definition to_int (z : Z) : Z := if z <? 2 ^ 31 then z else z - 2 ^ 32.

(** The inner [while] of [remove_page_range] over one free list: the first
    block whose span contains [start], unless a block starting above
    [start] is met first. *)
Fixpoint find_overlap (start : pfn) (curr_block_size : Z) (cursor : list Z) : option Z :=
  match cursor with
  | [] => None
  | block_start :: rest =>
      let block_end := block_start + curr_block_size - 1 in
      if start <? block_start then None
      else if (block_start <=? start) && (start <=? block_end) then Some block_start
      else find_overlap start curr_block_size rest
  end.

(** The [for] loop of [remove_page_range] over the orders.  [order] is a
    [uint32_t]: the test [order >= 0] always holds and [order--] at 0 wraps
    to [2^32 - 1], with which [_free_areas] is then indexed.  The helpers
    take an [int] order.  [end_as_pfn] is an unsigned 64-bit sum; the
    unsigned subtractions cannot wrap, each coming after the comparison that
    bounds it.  [self] is the recursive call, on a smaller [count]. *)
Fixpoint remove_scan (self : pfn -> Z -> M unit) (fuel : nat) (order : Z)
    (start : pfn) (count : Z) : M unit :=
  match fuel with
  | O => out_of_fuel
  | S fuel' =>
      if 0 <=? order then
        let start_as_pfn := start in
        let end_as_pfn := wrap64 (start_as_pfn + count - 1) in
        let curr_block_size := pages_per_block (to_int order) in
        do curr_block <- read_area order;
        match find_overlap start_as_pfn curr_block_size curr_block with
        | Some block_start =>
            let block_end := block_start + curr_block_size - 1 in
            remove_block block_start (to_int order);;
            if end_as_pfn <=? block_end then
              insert_page_range block_start (start_as_pfn - block_start);;
              insert_page_range (end_as_pfn + 1)
                (block_start + curr_block_size - end_as_pfn - 1)
            else
              insert_page_range block_start (start_as_pfn - block_start);;
              self (block_end + 1) (count - (block_end - start_as_pfn + 1))
        | None => remove_scan self fuel' (wrap32 (order - 1)) start count
        end
      else ret tt
  end.

Fixpoint remove_range_rec (fuel : nat) (start : pfn) (count : Z) : M unit :=
  if count =? 0 then ret tt
  else
    match fuel with
    | O => out_of_fuel
    | S fuel' =>
        remove_scan (remove_range_rec fuel') (Z.to_nat MAX_ORDER + 2) MAX_ORDER
                    start count
    end.

Definition remove_page_range (start : pfn) (count : Z) : M unit :=
  remove_range_rec (Z.to_nat count) start count.

(** ** Initialisation *)

(** [init]: every entry of the table is set to null; the result tells
    whether a non-null array of at least one descriptor was given. *)
Definition init (page_descriptors : bool) (nr_page_descriptors : Z) : M bool :=
  fun st =>
    Ret (page_descriptors && (0 <? nr_page_descriptors))
        (foldl (fun s i => <[i := []]> s) st (seq 0 (Z.to_nat MAX_ORDER + 1))).

Definition empty_areas : list (list Z) := replicate (Z.to_nat MAX_ORDER + 1) [].

(** The tables of the scenarios of the specification: a single order-3
    block at frames [0..7]; an order-1 block at [2..3] and an order-2 block
    at [4..7]; the latter with the order-1 block at [0..1] linked in and
    not yet merged; order-0 blocks at frames 2 and 5 and order-1 blocks at
    [0..1] and [6..7]. *)
Definition scenario_A : list (list Z) :=
  [[]; []; []; [0]; []; []; []; []; []; []; []; []; []; []; []; []; []; []; []].
Definition scenario_B : list (list Z) :=
  [[]; [2]; [4]; []; []; []; []; []; []; []; []; []; []; []; []; []; []; []; []].
Definition scenario_C_linked : list (list Z) :=
  [[]; [0; 2]; [4]; []; []; []; []; []; []; []; []; []; []; []; []; []; []; []; []].
Definition scenario_D : list (list Z) :=
  [[2; 5]; [0; 6]; []; []; []; []; []; []; []; []; []; []; []; []; []; []; []; []; []].

(** * Specification vocabulary *)

(** [aligned b k]: frame [b] is a multiple of [2^k]. *)
Definition aligned (b k : Z) : Prop := exists q, b = q * pages_per_block k.

(** Strictly ascending lists. *)
Fixpoint ascending (l : list Z) : Prop :=
  match l with
  | [] => True
  | x :: l' => (forall y, y ∈ l' -> x < y) /\ ascending l'
  end.

(** The free list of order [k], and the table with that list replaced. *)
Definition area (st : list (list Z)) (k : Z) : list Z :=
  default [] (st !! Z.to_nat k).

Definition set_area (st : list (list Z)) (k : Z) (l : list Z) : list (list Z) :=
  <[Z.to_nat k := l]> st.

Definition valid_order (k : Z) : Prop := 0 <= k <= MAX_ORDER.

(** The table is an array of [MAX_ORDER + 1] lists. *)
Definition wf_table (st : list (list Z)) : Prop :=
  length st = (Z.to_nat MAX_ORDER + 1)%nat.

(** [free_block st k b]: the block of order [k] at frame [b] is in the
    free list of order [k]. *)
Definition free_block (st : list (list Z)) (k b : Z) : Prop :=
  valid_order k /\ b ∈ area st k.

(** Page [p] belongs to the block of order [k] at [b]. *)
Definition covers (b k p : Z) : Prop := b <= p < b + pages_per_block k.

(** Page [p] is in the free pool. *)
Definition page_free (st : list (list Z)) (p : Z) : Prop :=
  exists k b, free_block st k b /\ covers b k p.

(** The structural invariant: alignment, ascending lists, and no page in
    two free blocks. *)
Record buddy_inv (st : list (list Z)) : Prop := mk_buddy_inv {
  inv_wf : wf_table st;
  inv_aligned : forall k b, free_block st k b -> aligned b k;
  inv_sorted : forall k, valid_order k -> ascending (area st k);
  inv_disjoint : forall k1 b1 k2 b2 p,
    free_block st k1 b1 -> free_block st k2 b2 ->
    covers b1 k1 p -> covers b2 k2 p -> k1 = k2 /\ b1 = b2
}.

(** The eager-merge invariant: no free block below [MAX_ORDER] has its
    buddy free as well. *)
Definition no_free_buddies (st : list (list Z)) : Prop :=
  forall k b b', free_block st k b -> buddy_of b k = Some b' -> ~ free_block st k b'.

(** The same in plain arithmetic: for an order [k] below [MAX_ORDER] and a
    frame [b] that is a multiple of [2^(k+1)], the two halves of the block
    of order [k + 1] at [b], which start at [b] and at [b + 2^k], are not
    both in the list of order [k]. *)
Definition no_buddy_pairs (st : list (list Z)) : Prop :=
  forall k b, 0 <= k < MAX_ORDER -> b mod 2 ^ (k + 1) = 0 ->
    ~ (b ∈ area st k /\ b + 2 ^ k ∈ area st k).

(** The merge loop, run from any slot that holds a free block, returns the
    table unchanged. *)
Definition merge_fixed_point (st : list (list Z)) : Prop :=
  forall k pos b, valid_order k -> area st k !! pos = Some b ->
    repeated_merge (mk_slot k pos) k st = Ret tt st.

(** [only_pair st k b]: every pair of free buddies in [st] involves the
    block of order [k] at [b]. *)
Definition only_pair (st : list (list Z)) (k b : Z) : Prop :=
  forall j c c', free_block st j c -> buddy_of c j = Some c' -> free_block st j c' ->
    j = k /\ (c = b \/ c' = b).

(** What [remove_page_range start count] does once its scan has found, at
    [order], the free block [b] that holds [start]; [self] is the recursive
    call. *)
Definition remove_at (self : Z -> Z -> M unit) (start count order b : Z) : M unit :=
  remove_block b order;;
  if start + count - 1 <=? b + pages_per_block order - 1 then
    insert_page_range b (start - b);;
    insert_page_range (start + count - 1 + 1)
      (b + pages_per_block order - (start + count - 1) - 1)
  else
    insert_page_range b (start - b);;
    self (b + pages_per_block order - 1 + 1)
         (count - (b + pages_per_block order - 1 - start + 1)).

(** What a successful [remove_page_range start count] run from [st] is to
    deliver: the pages of the range, and only those, have left the pool. *)
Definition remove_post (start count : Z) (st : list (list Z)) (r : outcome unit) : Prop :=
  exists st',
    r = Ret tt st' /\
    buddy_inv st' /\
    (forall p, page_free st' p <-> page_free st p /\ ~ (start <= p < start + count)) /\
    (no_free_buddies st -> no_free_buddies st').

(** The conditions under which [remove_page_range] is called. *)
Definition remove_pre (start count : Z) (st : list (list Z)) : Prop :=
  buddy_inv st /\ 0 <= start /\ 0 <= count /\ start + count <= 2 ^ 64 /\
  (forall p, start <= p < start + count -> page_free st p).

(** The table after a successful [allocate_pages order] that took the
    head [b] of order [f], whose list went on with [rest]: every order from
    [order] up to [f] keeps the upper half of the split at that order. *)
Definition allocated (st st' : list (list Z)) (order f b : Z) (rest : list Z) : Prop :=
  wf_table st' /\
  forall j, valid_order j ->
    area st' j =
      if decide (j = f) then rest
      else if decide (order <= j < f) then [b + pages_per_block j]
      else area st j.

(** One call of a public operation with its precondition: an order within
    range for [allocate_pages]; a block none of whose pages is free for
    [free_pages] (its alignment is asserted by the code); a range none of
    whose pages is free for [insert_page_range]; a range all of whose pages
    are free for [remove_page_range].  Frame numbers and counts are
    unsigned 64-bit. *)
Inductive step (st st' : list (list Z)) : Prop :=
| step_allocate order r :
    valid_order order ->
    allocate_pages order st = Ret r st' -> step st st'
| step_free pgd order :
    valid_order order ->
    (forall p, covers pgd order p -> ~ page_free st p) ->
    free_pages pgd order st = Ret tt st' -> step st st'
| step_insert start count :
    (forall p, start <= p < start + count -> ~ page_free st p) ->
    insert_page_range start count st = Ret tt st' -> step st st'
| step_remove start count :
    0 <= start -> 0 <= count -> start + count <= 2 ^ 64 ->
    (forall p, start <= p < start + count -> page_free st p) ->
    remove_page_range start count st = Ret tt st' -> step st st'.

Inductive reachable : list (list Z) -> Prop :=
| reachable_init st0 page_descriptors nr r st :
    wf_table st0 -> init page_descriptors nr st0 = Ret r st -> reachable st
| reachable_step st st' : reachable st -> step st st' -> reachable st'.

(** The block of order [k] at [b] meets the range [[s, s+n)]. *)
Definition overlaps (b k s n : Z) : bool :=
  (0 <? n) && (s <? b + pages_per_block k) && (b <? s + n).

(** No block of the lists [st], which are those of the orders from [k]
    on, meets the range. *)
Fixpoint range_unused_from (k : Z) (st : list (list Z)) (s n : Z) : bool :=
  match st with
  | [] => true
  | l :: st' =>
      forallb (fun b => negb (overlaps b k s n)) l && range_unused_from (k + 1) st' s n
  end.

Definition range_unused (st : list (list Z)) (s n : Z) : bool :=
  range_unused_from 0 st s n.

Definition page_is_free (st : list (list Z)) (p : Z) : bool :=
  negb (range_unused st p 1).

Definition range_covered (st : list (list Z)) (s n : Z) : bool :=
  forallb (fun i => page_is_free st (s + Z.of_nat i)) (seq 0 (Z.to_nat n)).

(** The number of free pages: [2^k] for every block in the list of order
    [k]. *)
Fixpoint free_page_count_from (k : Z) (st : list (list Z)) : Z :=
  match st with
  | [] => 0
  | l :: st' => Z.of_nat (length l) * pages_per_block k + free_page_count_from (k + 1) st'
  end.

Definition free_page_count (st : list (list Z)) : Z := free_page_count_from 0 st.

(** * Properties *)

(** ** Powers of two and alignment *)

Lemma pages_per_block_pow k : pages_per_block k = 2 ^ k.
Proof. unfold pages_per_block. apply Z.shiftl_1_l. Qed.

Lemma ppb_pos k : 0 <= k -> 0 < pages_per_block k.
Proof. intros. rewrite pages_per_block_pow. by apply Z.pow_pos_nonneg. Qed.

Lemma ppb_succ k : 0 <= k -> pages_per_block (k + 1) = 2 * pages_per_block k.
Proof. intros. rewrite !pages_per_block_pow, Z.pow_add_r by lia. lia. Qed.

Lemma ppb_pred k : 0 < k -> pages_per_block k = 2 * pages_per_block (k - 1).
Proof. intros. rewrite <- ppb_succ by lia. f_equal. lia. Qed.

Lemma ppb_factor i j :
  0 <= i <= j -> exists m, 0 < m /\ pages_per_block j = m * pages_per_block i.
Proof.
  intros. exists (2 ^ (j - i)). split; [apply Z.pow_pos_nonneg; lia|].
  rewrite !pages_per_block_pow, <- Z.pow_add_r by lia. f_equal. lia.
Qed.

Lemma ppb_lt i j : 0 <= i < j -> 2 * pages_per_block i <= pages_per_block j.
Proof.
  intros. rewrite <- ppb_succ by lia.
  destruct (ppb_factor (i + 1) j) as (m & ? & ->); [lia|].
  pose proof (ppb_pos (i + 1)). nia.
Qed.

Lemma ppb_le i j : 0 <= i <= j -> pages_per_block i <= pages_per_block j.
Proof.
  intros. destruct (ppb_factor i j) as (m & ? & ->); [lia|].
  pose proof (ppb_pos i). nia.
Qed.

Lemma is_aligned_spec b k :
  0 <= k -> is_correct_alignment_for_order b k = true <-> aligned b k.
Proof.
  intros Hk. unfold is_correct_alignment_for_order, aligned.
  pose proof (ppb_pos k Hk). rewrite Z.eqb_eq. split.
  - intros Hm. exists (b / pages_per_block k).
    pose proof (Z.div_mod b (pages_per_block k)). lia.
  - intros [q ->]. apply Z.mod_mul. lia.
Qed.

Lemma is_aligned_false b k :
  0 <= k -> is_correct_alignment_for_order b k = false <-> ~ aligned b k.
Proof.
  intros. rewrite <- is_aligned_spec by done.
  destruct (is_correct_alignment_for_order b k); split; (done || congruence).
Qed.

Lemma aligned_0 b : aligned b 0.
Proof. exists b. rewrite pages_per_block_pow. lia. Qed.

Lemma aligned_le b i j : 0 <= i <= j -> aligned b j -> aligned b i.
Proof.
  intros Hij [q ->]. destruct (ppb_factor i j Hij) as (m & ? & ->).
  exists (q * m). lia.
Qed.

(** Two aligned blocks of the same order that share a page are equal. *)
Lemma aligned_same b c k p :
  0 <= k -> aligned b k -> aligned c k ->
  b <= p < b + pages_per_block k -> c <= p < c + pages_per_block k -> b = c.
Proof.
  intros Hk [q ->] [r ->] ? ?. pose proof (ppb_pos k Hk).
  assert (q = r) by nia. by subst.
Qed.

(** Aligned blocks are nested or disjoint: a block that shares a page with
    a block of an order at least its own lies inside it. *)
Lemma aligned_nested b i c j p :
  0 <= i <= j -> aligned b i -> aligned c j ->
  b <= p < b + pages_per_block i -> c <= p < c + pages_per_block j ->
  c <= b /\ b + pages_per_block i <= c + pages_per_block j.
Proof.
  intros Hij [q ->] [r ->] ? ?.
  destruct (ppb_factor i j Hij) as (m & ? & Hm). rewrite Hm in *.
  pose proof (ppb_pos i ltac:(lia)).
  assert (r * m <= q) by nia. assert (q + 1 <= (r + 1) * m) by nia.
  nia.
Qed.

(** The two halves of an aligned block. *)
Lemma aligned_halves b k :
  0 <= k -> aligned b (k + 1) ->
  aligned b k /\ aligned (b + pages_per_block k) k /\
  ~ aligned (b + pages_per_block k) (k + 1).
Proof.
  intros Hk [q Hq]. rewrite ppb_succ in Hq by done.
  pose proof (ppb_pos k Hk). repeat split.
  - exists (2 * q). lia.
  - exists (2 * q + 1). lia.
  - intros [r Hr]. rewrite ppb_succ in Hr by done.
    assert (2 * q + 1 = 2 * r); [|lia].
    apply (Z.mul_reg_r _ _ (pages_per_block k)); lia.
Qed.

Lemma aligned_upper_half b k :
  0 <= k -> aligned b k -> ~ aligned b (k + 1) ->
  aligned (b - pages_per_block k) (k + 1).
Proof.
  intros Hk [q ->] Hn. pose proof (ppb_pos k Hk).
  destruct (Z.Even_or_Odd q) as [[r ->]|[r ->]].
  - destruct Hn. exists r. rewrite ppb_succ by done. lia.
  - exists r. rewrite ppb_succ by done. lia.
Qed.

(** [buddy_of] in terms of [aligned]. *)
Lemma buddy_of_Some b k b' :
  0 <= k -> buddy_of b k = Some b' ->
  k < MAX_ORDER /\ aligned b k /\
  ((aligned b (k + 1) /\ b' = b + pages_per_block k) \/
   (~ aligned b (k + 1) /\ b' = b - pages_per_block k)).
Proof.
  intros Hk. unfold buddy_of.
  destruct (MAX_ORDER <=? k) eqn:Hm; [done|]. apply Z.leb_gt in Hm.
  destruct (is_correct_alignment_for_order b k) eqn:Ha; [|done]. simpl.
  apply is_aligned_spec in Ha; [|done].
  destruct (is_correct_alignment_for_order b (k + 1)) eqn:Ha1; intros [= <-].
  - apply is_aligned_spec in Ha1; [|lia]. auto.
  - apply is_aligned_false in Ha1; [|lia]. auto.
Qed.

Lemma buddy_of_low b k :
  0 <= k < MAX_ORDER -> aligned b (k + 1) ->
  buddy_of b k = Some (b + pages_per_block k).
Proof.
  intros Hk Ha. unfold buddy_of.
  destruct (MAX_ORDER <=? k) eqn:Hm; [apply Z.leb_le in Hm; lia|].
  assert (is_correct_alignment_for_order b k = true) as ->.
  { apply is_aligned_spec; [lia|]. apply (aligned_le b k (k + 1)); [lia|done]. }
  simpl. assert (is_correct_alignment_for_order b (k + 1) = true) as ->; [|done].
  apply is_aligned_spec; [lia|done].
Qed.

Lemma buddy_of_sym b k b' :
  0 <= k -> buddy_of b k = Some b' -> buddy_of b' k = Some b.
Proof.
  intros Hk Hb. destruct (buddy_of_Some _ _ _ Hk Hb) as (Hm & Ha & Hc).
  destruct Hc as [[Ha1 ->]|[Ha1 ->]].
  - destruct (aligned_halves b k Hk Ha1) as (_ & Hh & Hn).
    unfold buddy_of. destruct (MAX_ORDER <=? k) eqn:E; [apply Z.leb_le in E; lia|].
    apply is_aligned_spec in Hh; [|done]. rewrite Hh. simpl.
    apply is_aligned_false in Hn; [|lia]. rewrite Hn. f_equal. lia.
  - pose proof (aligned_upper_half b k Hk Ha Ha1) as Hl.
    rewrite (buddy_of_low _ k) by (done || lia). f_equal. lia.
Qed.

Lemma buddy_of_neq b k b' : 0 <= k -> buddy_of b k = Some b' -> b <> b'.
Proof.
  intros Hk Hb. destruct (buddy_of_Some _ _ _ Hk Hb) as (_ & _ & Hc).
  pose proof (ppb_pos k Hk). lia.
Qed.

(** ** The list walks *)

Lemma elem_of_insert_sorted x b (l : list Z) :
  x ∈ insert_sorted b l <-> x = b \/ x ∈ l.
Proof.
  induction l as [|y l IH]; simpl.
  - rewrite list_elem_of_singleton, elem_of_nil. tauto.
  - destruct (y <? b); rewrite !elem_of_cons; [rewrite IH|]; tauto.
Qed.

Lemma ascending_insert_sorted b l :
  ascending l -> b ∉ l -> ascending (insert_sorted b l).
Proof.
  induction l as [|y l IH]; simpl; intros Hs Hn.
  - split; [|done]. intros y Hy. by apply elem_of_nil in Hy.
  - destruct Hs as [Hy Hs]. apply not_elem_of_cons in Hn as [Hne Hn].
    destruct (y <? b) eqn:E; simpl.
    + apply Z.ltb_lt in E. split; [|by apply IH].
      intros z Hz. apply elem_of_insert_sorted in Hz as [->|Hz]; auto.
    + apply Z.ltb_ge in E. split; [|done].
      intros z Hz. apply elem_of_cons in Hz as [->|Hz]; [lia|].
      specialize (Hy z Hz). lia.
Qed.

Lemma lookup_insert_pos b (l : list Z) :
  insert_sorted b l !! insert_pos b l = Some b.
Proof. induction l as [|y l IH]; simpl; [done|]. by destruct (y <? b). Qed.

Lemma unlink_None b l : unlink b l = None <-> b ∉ l.
Proof.
  induction l as [|y l IH]; simpl.
  - split; [intros _; apply not_elem_of_nil|done].
  - rewrite not_elem_of_cons. destruct (y =? b) eqn:E.
    + apply Z.eqb_eq in E. split; [done|]. intros [? _]. congruence.
    + apply Z.eqb_neq in E. rewrite fmap_None, IH. split; [auto|tauto].
Qed.

Lemma unlink_is_Some b l : b ∈ l -> exists l', unlink b l = Some l'.
Proof.
  intros Hb. destruct (unlink b l) as [l'|] eqn:E; [eauto|].
  by apply unlink_None in E.
Qed.

Lemma unlink_elem b l l' x :
  ascending l -> unlink b l = Some l' -> x ∈ l' <-> x ∈ l /\ x <> b.
Proof.
  revert l'. induction l as [|y l IH]; simpl; intros l' Hs Hu; [done|].
  destruct Hs as [Hy Hs]. destruct (y =? b) eqn:E.
  - apply Z.eqb_eq in E. injection Hu as <-. subst y. rewrite elem_of_cons.
    split; [|tauto]. intros Hx. specialize (Hy x Hx). split; [auto|lia].
  - apply Z.eqb_neq in E. apply fmap_Some in Hu as (l'' & Hu & ->).
    rewrite !elem_of_cons, (IH l'') by done. split; [|tauto].
    intros [->|[? ?]]; auto.
Qed.

Lemma unlink_subset b l l' x : unlink b l = Some l' -> x ∈ l' -> x ∈ l.
Proof.
  revert l'. induction l as [|y l IH]; simpl; intros l' Hu; [done|].
  destruct (y =? b).
  - injection Hu as <-. apply list_elem_of_further.
  - apply fmap_Some in Hu as (l'' & Hu & ->). rewrite !elem_of_cons.
    intros [->|?]; eauto.
Qed.

Lemma unlink_ascending b l l' :
  ascending l -> unlink b l = Some l' -> ascending l'.
Proof.
  revert l'. induction l as [|y l IH]; simpl; intros l' Hs Hu; [done|].
  destruct Hs as [Hy Hs]. destruct (y =? b).
  - by injection Hu as <-.
  - apply fmap_Some in Hu as (l'' & Hu & ->). simpl. split; [|eauto].
    intros z Hz. apply Hy. eapply unlink_subset; eauto.
Qed.

Lemma unlink_head b l : unlink b (b :: l) = Some l.
Proof. simpl. by rewrite Z.eqb_refl. Qed.

(** Ascending lists with the same elements are equal. *)
Lemma ascending_ext l1 l2 :
  ascending l1 -> ascending l2 -> (forall x, x ∈ l1 <-> x ∈ l2) -> l1 = l2.
Proof.
  revert l2. induction l1 as [|x l1 IH]; intros [|y l2] H1 H2 He.
  - done.
  - exfalso. eapply not_elem_of_nil, He, list_elem_of_here.
  - exfalso. eapply not_elem_of_nil, He, list_elem_of_here.
  - destruct H1 as [Hx H1], H2 as [Hy H2].
    assert (x = y) as ->.
    { pose proof (proj1 (He x) (list_elem_of_here _ _)) as Hxy.
      pose proof (proj2 (He y) (list_elem_of_here _ _)) as Hyx.
      apply elem_of_cons in Hxy as [?|Hxy]; [done|].
      apply elem_of_cons in Hyx as [?|Hyx]; [done|].
      specialize (Hx _ Hyx). specialize (Hy _ Hxy). lia. }
    f_equal. apply IH; [done..|]. intros z. split; intros Hz.
    + pose proof (proj1 (He z) (list_elem_of_further _ _ _ Hz)) as Hz'.
      apply elem_of_cons in Hz' as [->|?]; [|done].
      specialize (Hx _ Hz). lia.
    + pose proof (proj2 (He z) (list_elem_of_further _ _ _ Hz)) as Hz'.
      apply elem_of_cons in Hz' as [->|?]; [|done].
      specialize (Hy _ Hz). lia.
Qed.

Lemma ascending_lookup l (i j : nat) x y :
  ascending l -> l !! i = Some x -> l !! j = Some y -> (i < j)%nat -> x < y.
Proof.
  revert i j. induction l as [|z l IH]; intros i j Hs Hi Hj Hij; [done|].
  destruct Hs as [Hz Hs]. destruct j as [|j]; [lia|]. simpl in Hj.
  destruct i as [|i]; simpl in Hi.
  - injection Hi as ->. apply Hz. by eapply list_elem_of_lookup_2.
  - eapply (IH i j); eauto. lia.
Qed.

Lemma scan_for_true buddy l :
  scan_for buddy l = true <-> exists b, buddy = Some b /\ b ∈ l.
Proof.
  induction l as [|y l IH]; simpl.
  - split; [done|]. intros (b & _ & Hb). by apply elem_of_nil in Hb.
  - case_bool_decide as Hy.
    + split; [|done]. intros _. exists y. split; [done|apply list_elem_of_here].
    + rewrite IH. split; intros (b & Hb & Hin); exists b; split; try done.
      * by apply list_elem_of_further.
      * apply elem_of_cons in Hin as [->|?]; [|done]. by destruct Hy.
Qed.

Lemma find_overlap_Some s sz l b :
  find_overlap s sz l = Some b -> b ∈ l /\ b <= s <= b + sz - 1.
Proof.
  induction l as [|y l IH]; simpl; [done|].
  destruct (s <? y); [done|].
  destruct ((y <=? s) && (s <=? y + sz - 1)) eqn:E.
  - intros [= <-]. apply andb_true_iff in E as [?%Z.leb_le ?%Z.leb_le].
    split; [apply list_elem_of_here|lia].
  - intros H. destruct (IH H). split; [by apply list_elem_of_further|done].
Qed.

Lemma find_overlap_None s sz l b :
  ascending l -> find_overlap s sz l = None -> b ∈ l -> ~ (b <= s <= b + sz - 1).
Proof.
  induction l as [|y l IH]; simpl; intros Hs Hf Hb; [by apply elem_of_nil in Hb|].
  destruct Hs as [Hy Hs]. apply elem_of_cons in Hb as [->|Hb].
  - destruct (s <? y) eqn:E1; [apply Z.ltb_lt in E1; lia|].
    destruct ((y <=? s) && (s <=? y + sz - 1)) eqn:E; [done|].
    apply andb_false_iff in E as [?%Z.leb_gt| ?%Z.leb_gt]; lia.
  - destruct (s <? y) eqn:E1.
    + apply Z.ltb_lt in E1. specialize (Hy _ Hb). lia.
    + destruct ((y <=? s) && (s <=? y + sz - 1)); [done|]. by apply IH.
Qed.

(** ** The free-area table *)

Lemma MAX_ORDER_nat : Z.of_nat (Z.to_nat MAX_ORDER) = MAX_ORDER.
Proof. done. Qed.

Lemma in_bounds_true k : valid_order k -> in_bounds k = true.
Proof. unfold in_bounds, valid_order. lia. Qed.

Lemma lookup_area st k :
  wf_table st -> valid_order k -> st !! Z.to_nat k = Some (area st k).
Proof.
  intros Hw Hk. unfold area. destruct (st !! Z.to_nat k) eqn:E; [done|].
  apply lookup_ge_None in E. unfold wf_table, valid_order in *. lia.
Qed.

Lemma wf_set_area st k l : wf_table st -> wf_table (set_area st k l).
Proof. unfold wf_table, set_area. by rewrite length_insert. Qed.

Lemma area_set_area st k l j :
  wf_table st -> valid_order k -> valid_order j ->
  area (set_area st k l) j = if decide (j = k) then l else area st j.
Proof.
  intros Hw Hk Hj. unfold area, set_area. case_decide as E.
  - subst j. rewrite list_lookup_insert_eq; [done|].
    unfold wf_table, valid_order in *. lia.
  - rewrite list_lookup_insert_ne; [done|]. unfold valid_order in *. lia.
Qed.

Lemma area_set_area_eq st k l :
  wf_table st -> valid_order k -> area (set_area st k l) k = l.
Proof. intros. rewrite area_set_area by done. by rewrite decide_True. Qed.

Lemma area_set_area_ne st k l j :
  wf_table st -> valid_order k -> valid_order j -> j <> k ->
  area (set_area st k l) j = area st j.
Proof. intros. rewrite area_set_area by done. by rewrite decide_False. Qed.

(** Tables are equal when all their lists are. *)
Lemma table_ext st1 st2 :
  wf_table st1 -> wf_table st2 ->
  (forall k, valid_order k -> area st1 k = area st2 k) -> st1 = st2.
Proof.
  intros H1 H2 He. apply list_eq. intros i.
  destruct (decide (i < length st1)%nat) as [Hi|Hi].
  - assert (valid_order (Z.of_nat i)) as Hv.
    { unfold valid_order, wf_table, MAX_ORDER in *. lia. }
    rewrite <- (Nat2Z.id i), !lookup_area by done.
    f_equal. by apply He.
  - rewrite (proj2 (lookup_ge_None st1 i)) by lia.
    rewrite (proj2 (lookup_ge_None st2 i)); [done|].
    unfold wf_table in *. lia.
Qed.

(** *** Running the primitive operations *)

Lemma bind_Ret {A B} (c : M A) (k : A -> M B) st a st' :
  c st = Ret a st' -> bind c k st = k a st'.
Proof. unfold bind. by intros ->. Qed.

Lemma bind_assoc {A B C} (c : M A) (f : A -> M B) (g : B -> M C) st :
  bind (bind c f) g st = bind c (fun a => bind (f a) g) st.
Proof. unfold bind. by destruct (c st). Qed.

Lemma bind_inv {A B} (c : M A) (k : A -> M B) st b st' :
  bind c k st = Ret b st' -> exists a st1, c st = Ret a st1 /\ k a st1 = Ret b st'.
Proof. unfold bind. destruct (c st) as [a st1| | |]; [eauto|done..]. Qed.

Lemma read_area_Ret st k :
  wf_table st -> valid_order k -> read_area k st = Ret (area st k) st.
Proof.
  intros Hw Hk. unfold read_area.
  by rewrite in_bounds_true, lookup_area.
Qed.

Lemma read_area_inv st k l st' :
  read_area k st = Ret l st' -> in_bounds k = true /\ l = area st k /\ st' = st.
Proof.
  unfold read_area, area. destruct (in_bounds k); [|done].
  destruct (st !! Z.to_nat k); [|done]. by intros [= -> ->].
Qed.

Lemma write_area_Ret st k l :
  wf_table st -> valid_order k -> write_area k l st = Ret tt (set_area st k l).
Proof.
  intros Hw Hk. unfold write_area.
  by rewrite in_bounds_true, lookup_area.
Qed.

Lemma insert_block_Ret st b k :
  wf_table st -> valid_order k ->
  insert_block b k st =
    Ret (mk_slot k (insert_pos b (area st k)))
        (set_area st k (insert_sorted b (area st k))).
Proof.
  intros Hw Hk. unfold insert_block.
  rewrite (bind_Ret _ _ _ _ _ (read_area_Ret st k Hw Hk)).
  by rewrite (bind_Ret _ _ _ _ _ (write_area_Ret st k _ Hw Hk)).
Qed.

Lemma remove_block_Ret st b k l' :
  wf_table st -> valid_order k -> unlink b (area st k) = Some l' ->
  remove_block b k st = Ret tt (set_area st k l').
Proof.
  intros Hw Hk Hu. unfold remove_block.
  rewrite (bind_Ret _ _ _ _ _ (read_area_Ret st k Hw Hk)), Hu.
  by apply write_area_Ret.
Qed.

Lemma deref_Ret st k pos :
  wf_table st -> valid_order k ->
  deref (mk_slot k pos) st = Ret (area st k !! pos) st.
Proof.
  intros Hw Hk. unfold deref. simpl.
  by rewrite (bind_Ret _ _ _ _ _ (read_area_Ret st k Hw Hk)).
Qed.

(** ** Invariants *)

Lemma covers_self b k : 0 <= k -> covers b k b.
Proof. intros Hk. unfold covers. pose proof (ppb_pos k Hk). lia. Qed.

Lemma free_block_page_free st k b p :
  free_block st k b -> covers b k p -> page_free st p.
Proof. intros. by exists k, b. Qed.

(** *** Linking a block in, unlinking a block *)

Lemma free_block_insert st k b j c :
  wf_table st -> valid_order k ->
  free_block (set_area st k (insert_sorted b (area st k))) j c <->
  free_block st j c \/ (j = k /\ c = b).
Proof.
  intros Hw Hk. unfold free_block. split.
  - intros [Hj Hc]. rewrite area_set_area in Hc by done.
    case_decide; [|auto]. subst j.
    apply elem_of_insert_sorted in Hc as [->|Hc]; auto.
  - intros [[Hj Hc]|[-> ->]]; (split; [done|]); rewrite area_set_area by done.
    + case_decide; [|done]. subst j. apply elem_of_insert_sorted. auto.
    + rewrite decide_True by done. apply elem_of_insert_sorted. auto.
Qed.

Lemma free_block_remove st k b l' j c :
  wf_table st -> valid_order k -> ascending (area st k) ->
  unlink b (area st k) = Some l' ->
  free_block (set_area st k l') j c <->
  free_block st j c /\ ~ (j = k /\ c = b).
Proof.
  intros Hw Hk Hs Hu. unfold free_block. split.
  - intros [Hj Hc]. rewrite area_set_area in Hc by done.
    case_decide as E; [|split; [done|tauto]]. subst j.
    apply (unlink_elem b _ l' c Hs Hu) in Hc as [Hc Hne].
    split; [done|tauto].
  - intros [[Hj Hc] Hne]. split; [done|]. rewrite area_set_area by done.
    case_decide as E; [|done]. subst j.
    apply (unlink_elem b _ l' c Hs Hu). split; [done|]. intros ->. tauto.
Qed.

Lemma buddy_inv_insert st k b :
  buddy_inv st -> valid_order k -> aligned b k ->
  (forall p, covers b k p -> ~ page_free st p) ->
  buddy_inv (set_area st k (insert_sorted b (area st k))).
Proof.
  intros [Hw Ha Hs Hd] Hk Hb Hfresh.
  assert (forall j c p, free_block st j c -> covers c j p -> covers b k p -> False)
    as Hnew.
  { intros j c p Hc Hp Hbp. apply (Hfresh p Hbp). by exists j, c. }
  split.
  - by apply wf_set_area.
  - intros j c Hc.
    apply (free_block_insert st k b _ _ Hw Hk) in Hc as [Hc|[-> ->]]; auto.
  - intros j Hj. rewrite area_set_area by done. case_decide; [|auto]. subst j.
    apply ascending_insert_sorted; [auto|]. intros Hin.
    apply (Hnew k b b); [by split| |]; apply covers_self; apply Hk.
  - intros k1 b1 k2 b2 p H1 H2 Hp1 Hp2.
    apply (free_block_insert st k b _ _ Hw Hk) in H1 as [H1|[-> ->]];
      apply (free_block_insert st k b _ _ Hw Hk) in H2 as [H2|[-> ->]]; try done.
    + eauto.
    + destruct (Hnew _ _ _ H1 Hp1 Hp2).
    + destruct (Hnew _ _ _ H2 Hp2 Hp1).
Qed.

Lemma buddy_inv_remove st k b l' :
  buddy_inv st -> valid_order k -> unlink b (area st k) = Some l' ->
  buddy_inv (set_area st k l').
Proof.
  intros [Hw Ha Hs Hd] Hk Hu.
  pose proof (fun j c => free_block_remove st k b l' j c Hw Hk (Hs k Hk) Hu) as Hfb.
  split.
  - by apply wf_set_area.
  - intros j c Hc. apply Hfb in Hc as [Hc _]. auto.
  - intros j Hj. rewrite area_set_area by done. case_decide; [|auto]. subst j.
    eapply unlink_ascending; eauto.
  - intros k1 b1 k2 b2 p H1 H2 Hp1 Hp2.
    apply Hfb in H1 as [H1 _]. apply Hfb in H2 as [H2 _]. eauto.
Qed.

Lemma page_free_insert st k b p :
  wf_table st -> valid_order k ->
  page_free (set_area st k (insert_sorted b (area st k))) p <->
  page_free st p \/ covers b k p.
Proof.
  intros Hw Hk. unfold page_free. split.
  - intros (j & c & Hc & Hp).
    apply (free_block_insert st k b _ _ Hw Hk) in Hc as [Hc|[-> ->]]; eauto.
  - intros [(j & c & Hc & Hp)|Hp].
    + exists j, c. split; [|done]. apply free_block_insert; auto.
    + exists k, b. split; [|done]. apply free_block_insert; auto.
Qed.

Lemma page_free_remove st k b l' p :
  buddy_inv st -> free_block st k b -> unlink b (area st k) = Some l' ->
  page_free (set_area st k l') p <-> page_free st p /\ ~ covers b k p.
Proof.
  intros [Hw Ha Hs Hd] Hb Hu. pose proof Hb as [Hk _].
  pose proof (fun j c => free_block_remove st k b l' j c Hw Hk (Hs k Hk) Hu) as Hfb.
  unfold page_free. split.
  - intros (j & c & Hc & Hp). apply Hfb in Hc as [Hc Hne]. split; [eauto|].
    intros Hbp. destruct (Hd _ _ _ _ _ Hc Hb Hp Hbp). tauto.
  - intros [(j & c & Hc & Hp) Hn]. exists j, c. split; [|done].
    apply Hfb. split; [done|]. intros [-> ->]. tauto.
Qed.

Lemma no_free_buddies_remove st k b l' :
  buddy_inv st -> valid_order k -> unlink b (area st k) = Some l' ->
  no_free_buddies st -> no_free_buddies (set_area st k l').
Proof.
  intros [Hw Ha Hs Hd] Hk Hu Hn j c c' Hc Hbud Hc'.
  pose proof (fun j c => free_block_remove st k b l' j c Hw Hk (Hs k Hk) Hu) as Hfb.
  apply Hfb in Hc as [Hc _]. apply Hfb in Hc' as [Hc' _].
  by apply (Hn j c c').
Qed.

(** ** Merging and freeing *)

Lemma assert_true (b : bool) st : b = true -> assert b st = Ret tt st.
Proof. by intros ->. Qed.

Ltac mret H := rewrite (bind_Ret _ _ _ _ _ H).

(** The parent block consists of the two buddies. *)
Lemma covers_parent b k b' p :
  0 <= k -> buddy_of b k = Some b' ->
  let m := if is_correct_alignment_for_order b (k + 1) then b else b' in
  aligned m (k + 1) /\ (covers m (k + 1) p <-> covers b k p \/ covers b' k p).
Proof.
  intros Hk Hb. destruct (buddy_of_Some _ _ _ Hk Hb) as (Hm & Ha & Hc).
  pose proof (ppb_pos k Hk). unfold covers. rewrite ppb_succ by done.
  destruct Hc as [[Ha1 ->]|[Ha1 ->]].
  - rewrite (proj2 (is_aligned_spec b (k + 1) ltac:(lia)) Ha1). simpl.
    split; [done|lia].
  - rewrite (proj2 (is_aligned_false b (k + 1) ltac:(lia)) Ha1). simpl.
    split; [by apply aligned_upper_half|lia].
Qed.

Lemma merge_block_spec st k pos b b' :
  buddy_inv st -> valid_order k ->
  area st k !! pos = Some b -> buddy_of b k = Some b' -> b' ∈ area st k ->
  exists pos' m st',
    merge_block (mk_slot k pos) k st = Ret (mk_slot (k + 1) pos') st' /\
    valid_order (k + 1) /\ buddy_inv st' /\
    area st' (k + 1) !! pos' = Some m /\
    (forall p, page_free st' p <-> page_free st p) /\
    (only_pair st k b -> only_pair st' (k + 1) m) /\
    (forall i, valid_order i -> i < k -> area st' i = area st i) /\
    ~ free_block st' k b.
Proof.
  intros Hinv Hk Hpos Hbud Hb'.
  pose proof Hinv as [Hw Ha Hs Hd]. pose proof Hk as [Hk0 _].
  assert (free_block st k b) as Hfb by (split; [done|by eapply list_elem_of_lookup_2]).
  assert (free_block st k b') as Hfb' by done.
  destruct (buddy_of_Some _ _ _ Hk0 Hbud) as (Hmax & Hal & _).
  assert (valid_order (k + 1)) as Hk1 by (unfold valid_order in *; lia).
  pose proof (buddy_of_neq _ _ _ Hk0 Hbud) as Hne.
  (* the two removals *)
  destruct (unlink_is_Some b (area st k) (proj2 Hfb)) as [l1 Hl1].
  set (st1 := set_area st k l1).
  pose proof (buddy_inv_remove st k b l1 Hinv Hk Hl1) as Hinv1. fold st1 in Hinv1.
  pose proof (fun j c => free_block_remove st k b l1 j c Hw Hk (Hs k Hk) Hl1) as Hfb1.
  fold st1 in Hfb1.
  assert (free_block st1 k b') as Hfb'1 by (apply Hfb1; split; [done|]; intros [_ ?]; congruence).
  destruct (unlink_is_Some b' (area st1 k) (proj2 Hfb'1)) as [l2 Hl2].
  set (st2 := set_area st1 k l2).
  pose proof (buddy_inv_remove st1 k b' l2 Hinv1 Hk Hl2) as Hinv2. fold st2 in Hinv2.
  pose proof (fun j c => free_block_remove st1 k b' l2 j c (inv_wf _ Hinv1) Hk
                           (inv_sorted _ Hinv1 k Hk) Hl2) as Hfb2.
  fold st2 in Hfb2.
  (* the insertion of the parent *)
  set (m := if is_correct_alignment_for_order b (k + 1) then b else b').
  destruct (covers_parent b k b' 0 Hk0 Hbud) as [Hma _]. fold m in Hma.
  assert (forall p, covers m (k + 1) p <-> covers b k p \/ covers b' k p) as Hcov.
  { intros p. apply (covers_parent b k b' p Hk0 Hbud). }
  assert (forall p, page_free st2 p <->
                    page_free st p /\ ~ covers b k p /\ ~ covers b' k p) as Hpf2.
  { intros p. unfold st2.
    rewrite (page_free_remove st1 k b' l2 p Hinv1 Hfb'1 Hl2). unfold st1.
    rewrite (page_free_remove st k b l1 p Hinv Hfb Hl1). tauto. }
  set (st3 := set_area st2 (k + 1) (insert_sorted m (area st2 (k + 1)))).
  assert (buddy_inv st3) as Hinv3.
  { apply buddy_inv_insert; [done..|]. intros p Hp Hf.
    apply Hpf2 in Hf. apply Hcov in Hp. tauto. }
  pose proof (fun j c => free_block_insert st2 (k + 1) m j c (inv_wf _ Hinv2) Hk1) as Hfb3.
  fold st3 in Hfb3.
  exists (insert_pos m (area st2 (k + 1))), m, st3.
  split; [|split; [done|split; [done|split; [|split; [intros p; split|split; [|split]]]]]].
  - unfold merge_block. mret (deref_Ret st k pos Hw Hk). rewrite Hpos.
    mret (assert_true _ st (proj2 (is_aligned_spec b k Hk0) Hal)). rewrite Hbud.
    mret (remove_block_Ret st b k l1 Hw Hk Hl1).
    mret (remove_block_Ret st1 b' k l2 (inv_wf _ Hinv1) Hk Hl2).
    fold st1 st2. replace
      (if is_correct_alignment_for_order b (k + 1)
       then insert_block b (k + 1) else insert_block b' (k + 1))
      with (insert_block m (k + 1)) by (unfold m; by destruct is_correct_alignment_for_order).
    by rewrite (insert_block_Ret st2 m (k + 1) (inv_wf _ Hinv2) Hk1).
  - unfold st3. rewrite area_set_area_eq by (done || apply Hinv2).
    apply lookup_insert_pos.
  - unfold st3.
    rewrite (page_free_insert st2 (k + 1) m p (inv_wf _ Hinv2) Hk1), Hpf2, Hcov.
    intros [[? _]|[?|?]];
      [done|by apply (free_block_page_free st k b)
           |by apply (free_block_page_free st k b')].
  - unfold st3.
    rewrite (page_free_insert st2 (k + 1) m p (inv_wf _ Hinv2) Hk1), Hpf2, Hcov.
    intros Hf. unfold covers. unfold covers in Hf.
    destruct (decide (b <= p < b + pages_per_block k)); [tauto|].
    destruct (decide (b' <= p < b' + pages_per_block k)); tauto.
  - intros Honly j c c' Hc Hcb Hc'.
    apply Hfb3 in Hc as [Hc|[-> ->]]; [|auto].
    apply Hfb3 in Hc' as [Hc'|[-> ->]]; [|auto].
    apply Hfb2 in Hc as [Hc _]. apply Hfb1 in Hc as [Hc Hcne].
    apply Hfb2 in Hc' as [Hc' _]. apply Hfb1 in Hc' as [Hc' Hcne'].
    destruct (Honly j c c' Hc Hcb Hc') as [-> [->| ->]]; tauto.
  - intros i Hi Hlt. unfold st3, st2, st1.
    rewrite !area_set_area_ne; (done || lia || by repeat apply wf_set_area).
  - intros Hb3. apply Hfb3 in Hb3 as [Hb3|[? _]]; [|lia].
    apply Hfb2 in Hb3 as [Hb3 _]. apply Hfb1 in Hb3 as [_ Hb3]. tauto.
Qed.

(** When the scan for the buddy of the only suspect block fails, there are
    no free buddies. *)
Lemma only_pair_scan st k b :
  valid_order k ->
  (k <? MAX_ORDER) && scan_for (buddy_of b k) (area st k) = false ->
  only_pair st k b -> no_free_buddies st.
Proof.
  intros Hk E Honly j c c' Hc Hcb Hc'.
  destruct (Honly j c c' Hc Hcb Hc') as [-> Hcc].
  destruct (buddy_of_Some _ _ _ (proj1 Hk) Hcb) as (Hmax & _).
  apply andb_false_iff in E as [E%Z.ltb_ge|E]; [lia|].
  assert (scan_for (buddy_of b k) (area st k) = true); [|congruence].
  apply scan_for_true. destruct Hcc as [->| ->].
  - exists c'. split; [done|apply Hc'].
  - exists c. split; [by apply buddy_of_sym; [apply Hk|]|apply Hc].
Qed.

Lemma merge_loop_unfold fuel curr_block curr_order :
  merge_loop fuel curr_block curr_order =
  (do block <- read_area curr_order;
   do p <- deref curr_block;
   match p with
   | None => undefined
   | Some pgd =>
       let buddy := buddy_of pgd curr_order in
       if (curr_order <? MAX_ORDER) && scan_for buddy block then
         match fuel with
         | O => out_of_fuel
         | S fuel' =>
             do curr_block' <- merge_block curr_block curr_order;
             merge_loop fuel' curr_block' (curr_order + 1)
         end
       else ret tt
   end).
Proof. by destruct fuel. Qed.

(** The merge loop started on a free block at a slot of its order's list
    returns, keeps the structural invariant and the set of free pages, and
    leaves no free buddies when the block it was started on was the only
    one that could have a free buddy. *)
Lemma merge_loop_spec fuel : forall k pos b st,
  (Z.to_nat (MAX_ORDER - k) <= fuel)%nat ->
  valid_order k -> buddy_inv st -> area st k !! pos = Some b ->
  exists st',
    merge_loop fuel (mk_slot k pos) k st = Ret tt st' /\
    buddy_inv st' /\
    (forall p, page_free st' p <-> page_free st p) /\
    (only_pair st k b -> no_free_buddies st') /\
    (forall i, valid_order i -> i < k -> area st' i = area st i).
Proof.
  induction fuel as [|fuel IH]; intros k pos b st Hfuel Hk Hinv Hpos;
    rewrite merge_loop_unfold;
    mret (read_area_Ret st k (inv_wf _ Hinv) Hk);
    mret (deref_Ret st k pos (inv_wf _ Hinv) Hk); rewrite Hpos; simpl;
    destruct ((k <? MAX_ORDER) && scan_for (buddy_of b k) (area st k)) eqn:E.
  - apply andb_true_iff in E as [E%Z.ltb_lt _]. lia.
  - exists st. split; [done|]. split; [done|]. split; [done|].
    split; [by apply (only_pair_scan st k b)|done].
  - apply andb_true_iff in E as [Hmax%Z.ltb_lt (b' & Hbud & Hb')%scan_for_true].
    destruct (merge_block_spec st k pos b b' Hinv Hk Hpos Hbud Hb')
      as (pos' & m & st1 & Hrun & Hk1 & Hinv1 & Hpos1 & Hpf1 & Honly1 & Hframe1 & _).
    mret Hrun.
    destruct (IH (k + 1) pos' m st1 ltac:(lia) Hk1 Hinv1 Hpos1)
      as (st' & Hrun' & Hinv' & Hpf' & Hnb' & Hframe').
    exists st'. split; [done|]. split; [done|]. split; [|split].
    + intros p. by rewrite Hpf'.
    + auto.
    + intros i Hi Hlt. rewrite Hframe' by (done || lia). by apply Hframe1.
  - exists st. split; [done|]. split; [done|]. split; [done|].
    split; [by apply (only_pair_scan st k b)|done].
Qed.

(** [free_pages] on a block that is aligned and not free. *)
Lemma free_pages_spec st b k :
  buddy_inv st -> valid_order k -> aligned b k ->
  (forall p, covers b k p -> ~ page_free st p) ->
  exists st',
    free_pages b k st = Ret tt st' /\
    buddy_inv st' /\
    (forall p, page_free st' p <-> page_free st p \/ covers b k p) /\
    (no_free_buddies st -> no_free_buddies st').
Proof.
  intros Hinv Hk Hal Hfresh. pose proof (inv_wf _ Hinv) as Hw.
  set (st1 := set_area st k (insert_sorted b (area st k))).
  pose proof (buddy_inv_insert st k b Hinv Hk Hal Hfresh) as Hinv1. fold st1 in Hinv1.
  assert (area st1 k !! insert_pos b (area st k) = Some b) as Hpos.
  { unfold st1. rewrite area_set_area_eq by done. apply lookup_insert_pos. }
  destruct (merge_loop_spec (Z.to_nat (MAX_ORDER - k)) k _ b st1 ltac:(lia) Hk Hinv1 Hpos)
    as (st' & Hrun & Hinv' & Hpf & Hnb & _).
  exists st'. split; [|split; [done|split]].
  - unfold free_pages. destruct (k <? 0) eqn:E; [apply Z.ltb_lt in E; destruct Hk; lia|].
    mret (assert_true _ st (proj2 (is_aligned_spec b k (proj1 Hk)) Hal)).
    mret (insert_block_Ret st b k Hw Hk). done.
  - intros p. rewrite Hpf. unfold st1. by apply page_free_insert.
  - intros Hn. apply Hnb. intros j c c' Hc Hcb Hc'.
    apply (free_block_insert st k b _ _ Hw Hk) in Hc as [Hc|[-> ->]]; [|auto].
    apply (free_block_insert st k b _ _ Hw Hk) in Hc' as [Hc'|[-> ->]]; [|auto].
    destruct (Hn j c c' Hc Hcb Hc').
Qed.

(** ** Inserting a range *)

(** The inner loop of [insert_page_range] finds the largest order, at most
    its starting value, whose block fits in [count] and is aligned at
    [start]. *)
Lemma find_size_spec n start count :
  0 < count ->
  let k := find_size n start count in
  0 <= k <= Z.of_nat n /\ pages_per_block k <= count /\ aligned start k /\
  forall j, k < j <= Z.of_nat n -> count < pages_per_block j \/ ~ aligned start j.
Proof.
  intros Hc. induction n as [|n IH]; simpl find_size.
  - assert (pages_per_block 0 = 1) as H1 by done.
    assert ((count <? pages_per_block (Z.of_nat 0))
            || negb (is_correct_alignment_for_order start (Z.of_nat 0)) = false) as ->.
    { change (Z.of_nat 0) with 0. rewrite H1.
      apply orb_false_iff. split; [apply Z.ltb_ge; lia|].
      apply negb_false_iff, is_aligned_spec; [done|apply aligned_0]. }
    change (Z.of_nat 0) with 0. cbv zeta.
    split; [lia|]. split; [lia|]. split; [apply aligned_0|]. lia.
  - destruct ((count <? pages_per_block (Z.of_nat (S n)))
              || negb (is_correct_alignment_for_order start (Z.of_nat (S n)))) eqn:E.
    + destruct IH as (H0 & Hp & Ha & Hmaxi). split; [lia|]. split; [done|].
      split; [done|]. intros j Hj.
      destruct (decide (j = Z.of_nat (S n))) as [->|Hne]; [|apply Hmaxi; lia].
      apply orb_true_iff in E as [E%Z.ltb_lt|E%negb_true_iff]; [by left|right].
      apply is_aligned_false in E; [done|lia].
    + apply orb_false_iff in E as [E1%Z.ltb_ge E2%negb_false_iff].
      apply is_aligned_spec in E2; [|lia].
      split; [lia|]. split; [done|]. split; [done|]. lia.
Qed.

Lemma insert_range_loop_unfold fuel start count :
  insert_range_loop fuel start count =
  if 0 <? count then
    match fuel with
    | O => out_of_fuel
    | S fuel' =>
        let size := find_size (Z.to_nat MAX_ORDER) start count in
        free_pages start size;;
        insert_range_loop fuel' (start + pages_per_block size)
                          (count - pages_per_block size)
    end
  else ret tt.
Proof. by destruct fuel. Qed.

(** Any fuel of at least [count] gives the same run. *)
Lemma insert_range_loop_fuel f1 : forall f2 s n st,
  (Z.to_nat n <= f1)%nat -> (Z.to_nat n <= f2)%nat ->
  insert_range_loop f1 s n st = insert_range_loop f2 s n st.
Proof.
  induction f1 as [|f1 IH]; intros f2 s n st H1 H2;
    rewrite (insert_range_loop_unfold _ s n), (insert_range_loop_unfold f2 s n);
    destruct (0 <? n) eqn:E; try done; apply Z.ltb_lt in E; [lia|].
  destruct f2 as [|f2]; [lia|]. cbv beta iota zeta.
  destruct (find_size_spec (Z.to_nat MAX_ORDER) s n E) as ([Hk0 _] & _).
  pose proof (ppb_pos _ Hk0).
  unfold bind. destruct (free_pages s _ st); try done. apply IH; lia.
Qed.

Lemma insert_page_range_unfold s n st :
  0 < n ->
  insert_page_range s n st =
  (let size := find_size (Z.to_nat MAX_ORDER) s n in
   free_pages s size;;
   insert_page_range (s + pages_per_block size) (n - pages_per_block size)) st.
Proof.
  intros Hn. unfold insert_page_range at 1.
  destruct (Z.to_nat n) as [|f] eqn:Ef; [lia|].
  rewrite insert_range_loop_unfold. rewrite (proj2 (Z.ltb_lt 0 n) Hn).
  cbv beta iota zeta.
  destruct (find_size_spec (Z.to_nat MAX_ORDER) s n Hn) as ([Hk0 _] & _).
  pose proof (ppb_pos _ Hk0).
  unfold bind. destruct (free_pages s _ st); try done.
  unfold insert_page_range. apply insert_range_loop_fuel; lia.
Qed.

Lemma insert_page_range_0 s n st : n <= 0 -> insert_page_range s n st = Ret tt st.
Proof.
  intros Hn. unfold insert_page_range. rewrite insert_range_loop_unfold.
  by rewrite (proj2 (Z.ltb_ge 0 n) Hn).
Qed.

(** [insert_page_range] on a range of pages none of which is free. *)
Lemma insert_page_range_spec_aux fuel : forall s n st,
  (Z.to_nat n <= fuel)%nat -> buddy_inv st ->
  (forall p, s <= p < s + n -> ~ page_free st p) ->
  exists st',
    insert_page_range s n st = Ret tt st' /\
    buddy_inv st' /\
    (forall p, page_free st' p <-> page_free st p \/ s <= p < s + n) /\
    (no_free_buddies st -> no_free_buddies st').
Proof.
  induction fuel as [|fuel IH]; intros s n st Hfuel Hinv Hfresh.
  - exists st. rewrite insert_page_range_0 by lia.
    split; [done|]. split; [done|]. split; [|done]. intros p. split; [auto|].
    intros [?|?]; [done|lia].
  - destruct (decide (0 < n)) as [Hn|Hn].
    2:{ exists st. rewrite insert_page_range_0 by lia.
        split; [done|]. split; [done|]. split; [|done]. intros p. split; [auto|].
        intros [?|?]; [done|lia]. }
    rewrite insert_page_range_unfold by done. cbv beta iota zeta.
    destruct (find_size_spec (Z.to_nat MAX_ORDER) s n Hn) as (Hk & Hle & Hal & _).
    set (k := find_size (Z.to_nat MAX_ORDER) s n) in *.
    rewrite MAX_ORDER_nat in Hk.
    assert (valid_order k) as Hvk by (unfold valid_order; lia).
    pose proof (ppb_pos k (proj1 Hk)) as Hpos.
    destruct (free_pages_spec st s k Hinv Hvk Hal) as (st1 & Hrun & Hinv1 & Hpf1 & Hnb1).
    { intros p Hp. apply Hfresh. unfold covers in Hp. lia. }
    mret Hrun.
    destruct (IH (s + pages_per_block k) (n - pages_per_block k) st1 ltac:(lia) Hinv1)
      as (st' & Hrun' & Hinv' & Hpf' & Hnb').
    { intros p Hp Hf. apply Hpf1 in Hf as [Hf|Hf].
      - apply (Hfresh p); [lia|done].
      - unfold covers in Hf. lia. }
    exists st'. split; [done|]. split; [done|]. split; [|auto].
    intros p. rewrite Hpf', Hpf1. unfold covers. split.
    + intros [[?|?]|?]; auto; right; lia.
    + intros [?|?]; [auto|].
      destruct (decide (p < s + pages_per_block k)); [left; right; lia|right; lia].
Qed.

Lemma insert_page_range_spec st s n :
  buddy_inv st ->
  (forall p, s <= p < s + n -> ~ page_free st p) ->
  exists st',
    insert_page_range s n st = Ret tt st' /\
    buddy_inv st' /\
    (forall p, page_free st' p <-> page_free st p \/ s <= p < s + n) /\
    (no_free_buddies st -> no_free_buddies st').
Proof. intros. by apply (insert_page_range_spec_aux (Z.to_nat n)). Qed.

(** ** Removing a range *)

Lemma wrap64_small z : 0 <= z < 2 ^ 64 -> wrap64 z = z.
Proof. intros. unfold wrap64. by apply Z.mod_small. Qed.

Lemma wrap32_small z : 0 <= z < 2 ^ 32 -> wrap32 z = z.
Proof. intros. unfold wrap32. by apply Z.mod_small. Qed.

Lemma to_int_small z : z <= MAX_ORDER -> to_int z = z.
Proof.
  intros Hz. unfold to_int. unfold MAX_ORDER in Hz.
  destruct (z <? 2 ^ 31) eqn:E; [done|]. apply Z.ltb_ge in E. lia.
Qed.

(** The scan over the orders, started at or above the order of a free
    block that holds [start], finds such a block and does not run past
    order 0. *)
Lemma remove_scan_finds self start count st fuel : forall order k0 b0,
  buddy_inv st -> 0 <= start -> 0 < count -> start + count <= 2 ^ 64 ->
  free_block st k0 b0 -> covers b0 k0 start ->
  k0 <= order <= MAX_ORDER -> (Z.to_nat order < fuel)%nat ->
  exists j b,
    free_block st j b /\ covers b j start /\
    remove_scan self fuel order start count st = remove_at self start count j b st.
Proof.
  induction fuel as [|fuel IH];
    intros order k0 b0 Hinv Hs0 Hc Hlim Hb0 Hc0 Hord Hfuel; [lia|].
  pose proof Hb0 as [Hk0 _].
  assert (valid_order order) as Hk by (unfold valid_order in *; lia).
  simpl remove_scan. rewrite (proj2 (Z.leb_le 0 order) (proj1 Hk)).
  rewrite to_int_small by apply Hk.
  rewrite wrap64_small by lia.
  mret (read_area_Ret st order (inv_wf _ Hinv) Hk).
  destruct (find_overlap start (pages_per_block order) (area st order)) as [b|] eqn:Ef.
  - apply find_overlap_Some in Ef as [Hbin Hbs].
    exists order, b. split; [by split|]. split; [unfold covers; lia|done].
  - assert (k0 <> order) as Hne.
    { intros ->. destruct Hb0 as [_ Hin0].
      apply (find_overlap_None _ _ _ _ (inv_sorted _ Hinv order Hk) Ef Hin0).
      unfold covers in Hc0. lia. }
    rewrite wrap32_small by (unfold valid_order, MAX_ORDER in *; lia).
    apply (IH (order - 1) k0 b0); try done; unfold valid_order in *; lia.
Qed.

Section remove_found.
Variable self : Z -> Z -> M unit.
Variables (start count : Z).
Hypothesis count_pos : 0 < count.
Hypothesis self_spec : forall s' n' st1,
  n' < count -> remove_pre s' n' st1 -> remove_post s' n' st1 (self s' n' st1).

(** The block found is cut out and what is left of it put back. *)
Lemma remove_found st order b :
  remove_pre start count st -> free_block st order b -> covers b order start ->
  remove_post start count st (remove_at self start count order b st).
Proof.
  intros (Hinv & Hs0 & _ & Hlim & Hcov) Hb Hbs. unfold remove_at.
  pose proof Hb as [Hk Hbin]. unfold covers in Hbs.
  destruct (unlink_is_Some b _ Hbin) as [l1 Hl1].
  set (st1 := set_area st order l1).
  pose proof (buddy_inv_remove st order b l1 Hinv Hk Hl1) as Hinv1.
  pose proof (fun p => page_free_remove st order b l1 p Hinv Hb Hl1) as Hpf1.
  pose proof (no_free_buddies_remove st order b l1 Hinv Hk Hl1) as Hnb1.
  fold st1 in Hinv1, Hpf1, Hnb1. unfold covers in Hpf1.
  mret (remove_block_Ret st b order l1 (inv_wf _ Hinv) Hk Hl1). fold st1.
  assert (forall p, b <= p < b + pages_per_block order -> page_free st p) as Hbfree.
  { intros p Hp. by exists order, b. }
  destruct (insert_page_range_spec st1 b (start - b) Hinv1)
    as (st2 & Hrun2 & Hinv2 & Hpf2 & Hnb2).
  { intros p Hp Hf. apply Hpf1 in Hf. lia. }
  destruct (start + count - 1 <=? b + pages_per_block order - 1) eqn:E.
  - apply Z.leb_le in E. mret Hrun2.
    destruct (insert_page_range_spec st2 (start + count - 1 + 1)
                (b + pages_per_block order - (start + count - 1) - 1) Hinv2)
      as (st3 & Hrun3 & Hinv3 & Hpf3 & Hnb3).
    { intros p Hp Hf. apply Hpf2 in Hf as [Hf|Hf]; [apply Hpf1 in Hf|]; lia. }
    exists st3. split; [done|]. split; [done|]. split; [|auto].
    intros p. rewrite Hpf3, Hpf2, Hpf1. split.
    + intros [[[Hf Hnc]|Hp]|Hp]; (split; [first [assumption|apply Hbfree; lia]|lia]).
    + intros [Hf Hn].
      destruct (decide (b <= p < b + pages_per_block order)); [|tauto].
      destruct (decide (p < start)); [left; right; lia|right; lia].
  - apply Z.leb_gt in E. mret Hrun2.
    destruct (self_spec (b + pages_per_block order - 1 + 1)
                (count - (b + pages_per_block order - 1 - start + 1)) st2)
      as (st3 & Hrun3 & Hinv3 & Hpf3 & Hnb3); [lia| |].
    { split; [done|]. split; [lia|]. split; [lia|]. split; [lia|].
      intros p Hp. apply Hpf2. left. apply Hpf1. split; [apply Hcov|]; lia. }
    exists st3. split; [done|]. split; [done|]. split; [|auto].
    intros p. rewrite Hpf3, Hpf2, Hpf1. split.
    + intros [[[Hf Hnc]|Hp] Hn]; (split; [first [assumption|apply Hbfree; lia]|lia]).
    + intros [Hf Hn].
      destruct (decide (b <= p < b + pages_per_block order)); [|split; [tauto|lia]].
      split; [right|]; lia.
Qed.

Lemma remove_scan_spec fuel order st k0 b0 :
  remove_pre start count st -> free_block st k0 b0 -> covers b0 k0 start ->
  k0 <= order <= MAX_ORDER -> (Z.to_nat order < fuel)%nat ->
  remove_post start count st (remove_scan self fuel order start count st).
Proof.
  intros Hpre Hb0 Hc0 Hord Hfuel. pose proof Hpre as (Hinv & Hs0 & _ & Hlim & _).
  destruct (remove_scan_finds self start count st fuel order k0 b0)
    as (j & b & Hb & Hcb & ->); try done.
  by apply remove_found.
Qed.
End remove_found.

Lemma remove_range_rec_unfold fuel s n :
  remove_range_rec fuel s n =
  if n =? 0 then ret tt
  else
    match fuel with
    | O => out_of_fuel
    | S fuel' =>
        remove_scan (remove_range_rec fuel') (Z.to_nat MAX_ORDER + 2) MAX_ORDER s n
    end.
Proof. by destruct fuel. Qed.

Lemma remove_range_rec_spec fuel : forall s n st,
  (Z.to_nat n <= fuel)%nat -> remove_pre s n st ->
  remove_post s n st (remove_range_rec fuel s n st).
Proof.
  assert (forall s n st f, n = 0 -> buddy_inv st ->
            remove_post s n st (remove_range_rec f s n st)) as Hzero.
  { intros s n st f -> Hinv. exists st. rewrite remove_range_rec_unfold.
    split; [done|]. split; [done|]. split; [|done].
    intros p. split; [intros ?; split; [done|lia]|tauto]. }
  induction fuel as [|fuel IH]; intros s n st Hfuel Hpre;
    pose proof Hpre as (Hinv & Hs0 & Hn0 & Hlim & Hcov).
  - apply Hzero; [lia|done].
  - destruct (decide (n = 0)) as [->|Hn]; [by apply Hzero|].
    rewrite remove_range_rec_unfold, (proj2 (Z.eqb_neq n 0) Hn).
    destruct (Hcov s ltac:(lia)) as (k0 & b0 & Hb0 & Hc0).
    apply (remove_scan_spec _ s n ltac:(lia)) with (k0 := k0) (b0 := b0); try done.
    + intros s' n' st1 Hlt Hpre'. apply IH; [|done].
      destruct Hpre' as (_ & _ & ? & _). lia.
    + destruct Hb0 as [[? ?] _]. lia.
    + unfold MAX_ORDER. lia.
Qed.

(** [remove_page_range] on a range all of whose pages are free. *)
Lemma remove_page_range_spec st s n :
  remove_pre s n st -> remove_post s n st (remove_page_range s n st).
Proof. intros. by apply remove_range_rec_spec. Qed.

(** ** Allocation *)

Lemma find_free_unfold fuel free :
  find_free fuel free =
  if free <=? MAX_ORDER then
    do l <- read_area free;
    match l with
    | [] =>
        if free =? MAX_ORDER then ret None
        else
          match fuel with
          | O => out_of_fuel
          | S fuel' => find_free fuel' (free + 1)
          end
    | _ :: _ => ret (Some free)
    end
  else ret (Some free).
Proof. by destruct fuel. Qed.

(** The search loop only reads the table. *)
Lemma find_free_state fuel : forall free st r st',
  find_free fuel free st = Ret r st' -> st' = st.
Proof.
  induction fuel as [|fuel IH]; intros free st r st'; rewrite find_free_unfold;
    (destruct (free <=? MAX_ORDER); [|by intros [= _ ->]]);
    intros (l & st1 & Hr & Hk)%bind_inv;
    apply read_area_inv in Hr as (_ & _ & ->);
    (destruct l; [|by injection Hk as _ ->]);
    (destruct (free =? MAX_ORDER); [by injection Hk as _ ->|]).
  - done.
  - by apply IH in Hk.
Qed.

(** The search loop finds the lowest non-empty order from [free] on, or
    gives the null result when there is none. *)
Lemma find_free_spec fuel : forall free st,
  wf_table st -> valid_order free -> (Z.to_nat (MAX_ORDER - free) <= fuel)%nat ->
  ((forall j, free <= j <= MAX_ORDER -> area st j = []) /\
   find_free fuel free st = Ret None st) \/
  (exists f, free <= f <= MAX_ORDER /\
     (forall j, free <= j < f -> area st j = []) /\ area st f <> [] /\
     find_free fuel free st = Ret (Some f) st).
Proof.
  induction fuel as [|fuel IH]; intros free st Hw Hk Hfuel;
    pose proof Hk as [Hk0 Hk1];
    rewrite find_free_unfold, (proj2 (Z.leb_le _ _) Hk1);
    mret (read_area_Ret st free Hw Hk);
    destruct (area st free) as [|b rest] eqn:Ea.
  2,4: right; exists free; rewrite Ea;
    (split; [lia|]); (split; [intros; lia|]); by split.
  all: destruct (free =? MAX_ORDER) eqn:E;
    [apply Z.eqb_eq in E; left; split; [|done];
     intros j Hj; by replace j with free by lia|]; apply Z.eqb_neq in E.
  - lia.
  - destruct (IH (free + 1) st Hw ltac:(unfold valid_order; lia) ltac:(lia))
      as [[Hall Hrun]|(f & Hf & Hlow & Hne & Hrun)].
    + left. split; [|done]. intros j Hj.
      destruct (decide (j = free)) as [->|]; [done|apply Hall; lia].
    + right. exists f. split; [lia|]. split; [|done]. intros j Hj.
      destruct (decide (j = free)) as [->|]; [done|apply Hlow; lia].
Qed.

Lemma split_down_unfold fuel i order block :
  split_down fuel i order block =
  if order <? i then
    match fuel with
    | O => out_of_fuel
    | S fuel' =>
        do b <- split_block block i;
        split_down fuel' (i - 1) order (Some b)
    end
  else ret block.
Proof. by destruct fuel. Qed.

(** One split of the head block [b] of order [i] when the list below is
    empty. *)
Lemma split_block_head st b rest i :
  wf_table st -> valid_order i -> 0 < i -> aligned b i ->
  area st i = b :: rest -> area st (i - 1) = [] ->
  split_block (Some b) i st =
    Ret b (set_area (set_area st i rest) (i - 1) [b; b + pages_per_block (i - 1)]).
Proof.
  intros Hw Hi Hpos Hal Ha Hb.
  assert (valid_order (i - 1)) as Hi1 by (unfold valid_order in *; lia).
  unfold split_block.
  mret (assert_true _ st (proj2 (is_aligned_spec b i (proj1 Hi)) Hal)).
  rewrite (proj2 (Z.eqb_neq i 0)) by lia.
  rewrite (bind_Ret _ _ _ _ _ (remove_block_Ret st b i rest Hw Hi
             ltac:(rewrite Ha; apply unlink_head))).
  set (st1 := set_area st i rest). assert (wf_table st1) as Hw1 by by apply wf_set_area.
  mret (insert_block_Ret st1 b (i - 1) Hw1 Hi1).
  assert (area st1 (i - 1) = []) as ->.
  { unfold st1. rewrite area_set_area_ne; (done || lia). }
  simpl insert_sorted. set (st2 := set_area st1 (i - 1) [b]).
  assert (wf_table st2) as Hw2 by by apply wf_set_area.
  mret (insert_block_Ret st2 (b + pages_per_block (i - 1)) (i - 1) Hw2 Hi1).
  unfold st2. rewrite area_set_area_eq by done. simpl insert_sorted.
  pose proof (ppb_pos (i - 1) ltac:(lia)).
  rewrite (proj2 (Z.ltb_lt b (b + pages_per_block (i - 1)))) by lia.
  unfold ret, set_area. by rewrite list_insert_insert_eq.
Qed.

Lemma split_down_spec fuel : forall i order st b rest,
  wf_table st -> 0 <= order <= i -> i <= MAX_ORDER ->
  (Z.to_nat (i - order) <= fuel)%nat ->
  aligned b i -> area st i = b :: rest ->
  (forall j, order <= j < i -> area st j = []) ->
  exists st',
    (do block <- split_down fuel i order (Some b);
     match block with
     | None => undefined
     | Some b => remove_block b order;; ret (Some b)
     end) st = Ret (Some b) st' /\
    allocated st st' order i b rest.
Proof.
  induction fuel as [|fuel IH]; intros i order st b rest Hw Ho Hi Hfuel Hal Ha Hlow;
    rewrite split_down_unfold; destruct (order <? i) eqn:E;
    try (apply Z.ltb_lt in E; lia).
  1,3: apply Z.ltb_ge in E; assert (i = order) as -> by lia;
    assert (valid_order order) as Hvo by (unfold valid_order; lia);
    exists (set_area st order rest); split;
    [|split; [by apply wf_set_area|]; intros j Hj;
      rewrite area_set_area by done; case_decide; [done|];
      rewrite decide_False by lia; done].
  1,2: assert (unlink b (area st order) = Some rest) as Hu
      by (rewrite Ha; apply unlink_head);
    unfold bind at 1, ret at 1;
    by mret (remove_block_Ret st b order rest Hw Hvo Hu).
  apply Z.ltb_lt in E.
  assert (valid_order i) as Hvi by (unfold valid_order; lia).
  assert (valid_order (i - 1)) as Hvi1 by (unfold valid_order; lia).
  rewrite bind_assoc.
  mret (split_block_head st b rest i Hw Hvi ltac:(lia) Hal Ha (Hlow (i - 1) ltac:(lia))).
  set (st1 := set_area (set_area st i rest) (i - 1) [b; b + pages_per_block (i - 1)]).
  assert (wf_table st1) as Hw1 by (by do 2 apply wf_set_area).
  destruct (IH (i - 1) order st1 b [b + pages_per_block (i - 1)] Hw1
              ltac:(lia) ltac:(lia) ltac:(lia)) as (st' & Hrun & Hw' & Har).
  - apply (aligned_le b (i - 1) i); [lia|done].
  - unfold st1. rewrite area_set_area_eq; [done|by apply wf_set_area|done].
  - intros j Hj. unfold st1.
    assert (valid_order j) by (unfold valid_order; lia).
    rewrite !area_set_area_ne; try (by apply wf_set_area); try done; try lia.
    apply Hlow. lia.
  - exists st'. split; [done|]. split; [done|]. intros j Hj. rewrite (Har j Hj).
    destruct (decide (j = i - 1)) as [->|Hne1].
    + rewrite decide_False by lia. by rewrite decide_True by lia.
    + destruct (decide (order <= j < i - 1)).
      * rewrite decide_False by lia. by rewrite decide_True by lia.
      * unfold st1. rewrite area_set_area_ne; [|by apply wf_set_area|done..].
        rewrite area_set_area by done. case_decide; [done|].
        by rewrite decide_False by lia.
Qed.

Lemma allocate_pages_null st order :
  wf_table st -> valid_order order ->
  (forall j, order <= j <= MAX_ORDER -> area st j = []) ->
  allocate_pages order st = Ret None st.
Proof.
  intros Hw Hk Hall. unfold allocate_pages.
  destruct (find_free_spec (Z.to_nat (MAX_ORDER - order)) order st Hw Hk ltac:(lia))
    as [[_ Hrun]|(f & Hf & _ & Hne & _)].
  - by mret Hrun.
  - destruct Hne. by apply Hall.
Qed.

Lemma allocate_pages_block st order f b rest :
  wf_table st -> valid_order order -> order <= f <= MAX_ORDER ->
  (forall j, order <= j < f -> area st j = []) ->
  area st f = b :: rest -> aligned b f ->
  exists st', allocate_pages order st = Ret (Some b) st' /\
              allocated st st' order f b rest.
Proof.
  intros Hw Hk Hf Hlow Ha Hal. unfold allocate_pages.
  destruct (find_free_spec (Z.to_nat (MAX_ORDER - order)) order st Hw Hk ltac:(lia))
    as [[Hall _]|(f' & Hf' & Hlow' & Hne & Hrun)].
  { rewrite Hall in Ha by lia. done. }
  assert (f' = f) as ->.
  { destruct (Z.lt_trichotomy f' f) as [?|[?|?]]; [|done|].
    - destruct Hne. apply Hlow. lia.
    - rewrite Hlow' in Ha by lia. done. }
  mret Hrun.
  mret (read_area_Ret st f Hw ltac:(unfold valid_order in *; lia)).
  rewrite Ha. simpl head.
  apply split_down_spec; try done; unfold valid_order in *; lia.
Qed.

(** A null result comes from the search loop alone. *)
Lemma allocate_pages_null_inv st order st' :
  allocate_pages order st = Ret None st' ->
  st' = st /\ find_free (Z.to_nat (MAX_ORDER - order)) order st = Ret None st.
Proof.
  unfold allocate_pages. intros (found & st1 & Hfind & Hk)%bind_inv.
  pose proof (find_free_state _ _ _ _ _ Hfind) as ->.
  destruct found as [f|].
  - apply bind_inv in Hk as (l & st1 & _ & Hk).
    apply bind_inv in Hk as (block & st2 & _ & Hk).
    destruct block as [b|]; [|done].
    apply bind_inv in Hk as (? & st3 & _ & Hk). done.
  - by injection Hk as ->.
Qed.

(** The structural and the eager-merge invariant survive a successful
    allocation. *)
Lemma allocated_inv st st' order f b rest :
  buddy_inv st -> valid_order order -> order <= f <= MAX_ORDER ->
  area st f = b :: rest -> allocated st st' order f b rest ->
  buddy_inv st' /\ (no_free_buddies st -> no_free_buddies st').
Proof.
  intros Hinv Hk Hf Ha [Hw' Har]. pose proof Hinv as [Hw Hal Hs Hd].
  assert (valid_order f) as Hvf by (unfold valid_order in *; lia).
  assert (free_block st f b) as Hfb.
  { split; [done|]. rewrite Ha. apply list_elem_of_here. }
  pose proof (Hs f Hvf) as Hsf. rewrite Ha in Hsf. destruct Hsf as [Hlt Hsrest].
  pose proof (Hal f b Hfb) as Halb.
  (* where the blocks of the new table come from *)
  assert (forall j c, free_block st' j c ->
            (free_block st j c /\ ~ (j = f /\ c = b)) \/
            (order <= j < f /\ c = b + pages_per_block j)) as Horigin.
  { intros j c [Hj Hc]. rewrite (Har j Hj) in Hc.
    destruct (decide (j = f)) as [->|Hne].
    - left. split; [split; [done|rewrite Ha; by apply list_elem_of_further]|].
      intros [_ ->]. specialize (Hlt _ Hc). lia.
    - destruct (decide (order <= j < f)).
      + right. by apply list_elem_of_singleton in Hc.
      + left. split; [by split|]. tauto. }
  assert (forall j p, order <= j < f ->
            covers (b + pages_per_block j) j p ->
            covers b f p /\ b + pages_per_block j <= p < b + 2 * pages_per_block j)
    as Hin.
  { intros j p Hj Hp. unfold covers in *.
    pose proof (ppb_lt j f ltac:(unfold valid_order in *; lia)).
    pose proof (ppb_pos j ltac:(unfold valid_order in *; lia)). lia. }
  split; [split|].
  - done.
  - intros j c Hc. destruct (Horigin j c Hc) as [[Hc' _]|[Hj ->]]; [auto|].
    apply aligned_halves; [unfold valid_order in *; lia|].
    apply (aligned_le b (j + 1) f); [unfold valid_order in *; lia|done].
  - intros j Hj. rewrite (Har j Hj). destruct (decide (j = f)); [done|].
    destruct (decide (order <= j < f)); [|auto].
    simpl. split; [|done]. intros y Hy. by apply elem_of_nil in Hy.
  - intros k1 b1 k2 b2 p H1 H2 Hp1 Hp2.
    destruct (Horigin _ _ H1) as [[H1' Hn1]|[Hj1 ->]];
      destruct (Horigin _ _ H2) as [[H2' Hn2]|[Hj2 ->]].
    + eauto.
    + destruct (Hin _ _ Hj2 Hp2) as [Hp2' _].
      destruct (Hd _ _ _ _ _ H1' Hfb Hp1 Hp2'). tauto.
    + destruct (Hin _ _ Hj1 Hp1) as [Hp1' _].
      destruct (Hd _ _ _ _ _ H2' Hfb Hp2 Hp1'). tauto.
    + destruct (Hin _ _ Hj1 Hp1) as [_ Hq1]. destruct (Hin _ _ Hj2 Hp2) as [_ Hq2].
      destruct (Z.lt_trichotomy k1 k2) as [Hlt12|[->|Hlt12]]; [|done|].
      * pose proof (ppb_lt k1 k2 ltac:(unfold valid_order in *; lia)). lia.
      * pose proof (ppb_lt k2 k1 ltac:(unfold valid_order in *; lia)). lia.
  - intros Hn j c c' Hc Hcb Hc'.
    destruct (Horigin _ _ Hc) as [[Hc1 _]|[Hj ->]];
      destruct (Horigin _ _ Hc') as [[Hc1' _]|[Hj' ->]].
    + by apply (Hn j c c').
    + destruct Hc as [Hvj Hc]. rewrite (Har j Hvj) in Hc.
      rewrite decide_False, decide_True in Hc by lia.
      apply list_elem_of_singleton in Hc. subst c.
      by apply (buddy_of_neq _ _ _ (proj1 Hvj) Hcb).
    + destruct Hc' as [Hvj Hc']. rewrite (Har j Hvj) in Hc'.
      rewrite decide_False, decide_True in Hc' by lia.
      apply list_elem_of_singleton in Hc'. subst c'.
      by apply (buddy_of_neq _ _ _ (proj1 Hvj) Hcb).
    + destruct Hc as [Hvj _]. by apply (buddy_of_neq _ _ _ (proj1 Hvj) Hcb).
Qed.

Lemma allocate_pages_inv st order r st' :
  buddy_inv st -> valid_order order -> allocate_pages order st = Ret r st' ->
  buddy_inv st' /\ (no_free_buddies st -> no_free_buddies st').
Proof.
  intros Hinv Hk Hrun. pose proof (inv_wf _ Hinv) as Hw.
  destruct (find_free_spec (Z.to_nat (MAX_ORDER - order)) order st Hw Hk ltac:(lia))
    as [[Hall _]|(f & Hf & Hlow & Hne & _)].
  - rewrite (allocate_pages_null st order Hw Hk Hall) in Hrun.
    by injection Hrun as _ <-.
  - destruct (area st f) as [|b rest] eqn:Ha; [done|].
    assert (aligned b f) as Hal.
    { apply (inv_aligned _ Hinv). split; [unfold valid_order in *; lia|].
      rewrite Ha. apply list_elem_of_here. }
    destruct (allocate_pages_block st order f b rest Hw Hk Hf Hlow Ha Hal)
      as (st1 & Hrun1 & Halloc).
    rewrite Hrun1 in Hrun. injection Hrun as _ <-.
    by apply (allocated_inv st st1 order f b rest).
Qed.

(** The alignment of the head matters: with a block at frame 1 linked into
    order 1, a table no sequence of calls produces, [split_block] stops at
    its assertion. *)
Example allocate_pages_misaligned_head :
  allocate_pages 0 (set_area empty_areas 1 [1]) = AssertFail.
Proof. by vm_compute. Qed.

(** ** The table is determined by the set of free pages *)

Section canonical.
Variable st : list (list Z).
Hypothesis Hinv : buddy_inv st.
Hypothesis Hnb : no_free_buddies st.

(** An aligned region all of whose pages are free cannot be made up of
    free blocks of smaller orders only: two of them would be buddies. *)
Lemma no_fine_cover (n : nat) : forall a,
  Z.of_nat n <= MAX_ORDER -> aligned a (Z.of_nat n) ->
  (forall p, covers a (Z.of_nat n) p -> page_free st p) ->
  (forall i c p, free_block st i c -> covers c i p -> covers a (Z.of_nat n) p ->
                 i < Z.of_nat n) ->
  False.
Proof.
  induction n as [|n IH]; intros a Hmax Hal Hfree Hsmall.
  - assert (covers a (Z.of_nat 0) a) as Haa by (apply covers_self; lia).
    destruct (Hfree a Haa) as (i & c & Hc & Hp).
    pose proof (Hsmall i c a Hc Hp Haa).
    destruct Hc as [[? ?] _]. lia.
  - rewrite Nat2Z.inj_succ, <- Z.add_1_r in *.
    set (j := Z.of_nat n) in *. assert (0 <= j) as Hj0 by lia.
    pose proof (ppb_pos j Hj0) as Hpos. pose proof (ppb_succ j Hj0) as Hsucc.
    destruct (aligned_halves a j Hj0 Hal) as (Hlo & Hhi & _).
    assert (forall a', aligned a' j ->
              (forall p, covers a' j p -> covers a (j + 1) p) ->
              free_block st j a') as Hhalf.
    { intros a' Hal' Hsub.
      assert (valid_order j) as Hvj by (unfold valid_order; lia).
      destruct (decide (a' ∈ area st j)) as [Hin|Hnin]; [by split|].
      exfalso. apply (IH a'); [lia|done|auto|].
      intros i c p Hc Hp Hp'.
      pose proof (Hsmall i c p Hc Hp (Hsub p Hp')) as Hi.
      destruct (decide (i = j)) as [->|]; [|lia].
      pose proof (inv_aligned _ Hinv j c Hc) as Halc.
      pose proof (aligned_same c a' j p Hj0 Halc Hal' Hp Hp') as ->.
      by destruct Hc. }
    assert (free_block st j a) as Hfa.
    { apply Hhalf; [done|]. unfold covers. intros p Hp. lia. }
    assert (free_block st j (a + pages_per_block j)) as Hfb.
    { apply Hhalf; [done|]. unfold covers. intros p Hp. lia. }
    apply (Hnb j a (a + pages_per_block j)); [done| |done].
    apply buddy_of_low; [lia|done].
Qed.
End canonical.

Lemma free_block_canonical st1 st2 k b :
  buddy_inv st1 -> no_free_buddies st1 -> buddy_inv st2 -> no_free_buddies st2 ->
  (forall p, page_free st1 p <-> page_free st2 p) ->
  free_block st1 k b -> free_block st2 k b.
Proof.
  intros Hinv1 Hnb1 Hinv2 Hnb2 Hpf Hb. pose proof Hb as [Hk _].
  pose proof (inv_aligned _ Hinv1 k b Hb) as Halb.
  pose proof (covers_self b k (proj1 Hk)) as Hbb.
  destruct (proj1 (Hpf b) (free_block_page_free _ _ _ _ Hb Hbb)) as (j & c & Hc & Hcb).
  pose proof Hc as [Hj _]. pose proof (inv_aligned _ Hinv2 j c Hc) as Halc.
  pose proof Hk as [Hk0 Hk1]. pose proof Hj as [Hj0 Hj1].
  destruct (Z.lt_trichotomy j k) as [Hlt|[->|Hlt]].
  - exfalso. apply (no_fine_cover st2 Hinv2 Hnb2 (Z.to_nat k) b);
      rewrite Z2Nat.id by apply Hk; [apply Hk|done| |].
    + intros p Hp. apply Hpf. by exists k, b.
    + intros i d p Hd Hdp Hbp.
      destruct (decide (i < k)) as [|Hge]; [done|]. exfalso.
      pose proof (inv_aligned _ Hinv2 i d Hd) as Hald.
      destruct (aligned_nested b k d i p ltac:(lia) Halb Hald Hbp Hdp).
      assert (covers d i b) as Hdb by (unfold covers in *; lia).
      destruct (inv_disjoint _ Hinv2 _ _ _ _ _ Hd Hc Hdb Hcb). lia.
  - by rewrite (aligned_same b c k b (proj1 Hk) Halb Halc Hbb Hcb).
  - exfalso. apply (no_fine_cover st1 Hinv1 Hnb1 (Z.to_nat j) c);
      rewrite Z2Nat.id by apply Hj; [apply Hj|done| |].
    + intros p Hp. apply Hpf. by exists j, c.
    + intros i d p Hd Hdp Hcp.
      destruct (decide (i < j)) as [|Hge]; [done|]. exfalso.
      pose proof (inv_aligned _ Hinv1 i d Hd) as Hald.
      destruct (aligned_nested c j d i p ltac:(lia) Halc Hald Hcp Hdp).
      assert (covers d i b) as Hdb by (unfold covers in *; lia).
      destruct (inv_disjoint _ Hinv1 _ _ _ _ _ Hd Hb Hdb Hbb). lia.
Qed.

(** Two tables that satisfy the invariants and hold the same free pages
    are the same table. *)
Lemma table_canonical st1 st2 :
  buddy_inv st1 -> no_free_buddies st1 -> buddy_inv st2 -> no_free_buddies st2 ->
  (forall p, page_free st1 p <-> page_free st2 p) ->
  st1 = st2.
Proof.
  intros Hinv1 Hnb1 Hinv2 Hnb2 Hpf.
  apply table_ext; [apply Hinv1|apply Hinv2|]. intros k Hk.
  apply ascending_ext; [by apply inv_sorted..|]. intros b. split; intros Hb.
  - by apply (free_block_canonical st1 st2 k b).
  - by apply (free_block_canonical st2 st1 k b).
Qed.

(** ** Initialisation and reachable tables *)

Lemma area_empty k : area empty_areas k = [].
Proof.
  unfold area, empty_areas.
  destruct (replicate _ _ !! _) eqn:E; [|done].
  by apply lookup_replicate in E as [-> _].
Qed.

Lemma init_Ret st0 page_descriptors nr :
  wf_table st0 ->
  init page_descriptors nr st0 = Ret (page_descriptors && (0 <? nr)) empty_areas.
Proof.
  unfold wf_table. intros Hw. unfold init. f_equal.
  do 19 (destruct st0 as [|? st0]; [done|]).
  by destruct st0.
Qed.

Lemma page_free_empty p : ~ page_free empty_areas p.
Proof.
  intros (k & b & [_ Hb] & _). rewrite area_empty in Hb. by apply elem_of_nil in Hb.
Qed.

Lemma buddy_inv_empty : buddy_inv empty_areas.
Proof.
  split.
  - done.
  - intros k b [_ Hb]. rewrite area_empty in Hb. by apply elem_of_nil in Hb.
  - intros k _. by rewrite area_empty.
  - intros k1 b1 k2 b2 p [_ Hb]. rewrite area_empty in Hb. by apply elem_of_nil in Hb.
Qed.

Lemma no_free_buddies_empty : no_free_buddies empty_areas.
Proof.
  intros k b b' [_ Hb]. rewrite area_empty in Hb. by apply elem_of_nil in Hb.
Qed.

Lemma free_pages_aligned st pgd order st' :
  0 <= order -> free_pages pgd order st = Ret tt st' -> aligned pgd order.
Proof.
  intros Hk. unfold free_pages. rewrite (proj2 (Z.ltb_ge order 0) Hk).
  intros (? & st1 & Ha & _)%bind_inv. unfold assert in Ha.
  destruct (is_correct_alignment_for_order pgd order) eqn:E; [|done].
  by apply is_aligned_spec in E.
Qed.

Lemma step_inv st st' :
  step st st' -> buddy_inv st -> no_free_buddies st ->
  buddy_inv st' /\ no_free_buddies st'.
Proof.
  intros Hstep Hinv Hnb. destruct Hstep as
    [order r Hk Hrun|pgd order Hk Hfresh Hrun|start count Hfresh Hrun
    |start count Hs Hc Hlim Hcov Hrun].
  - destruct (allocate_pages_inv st order r st' Hinv Hk Hrun). auto.
  - pose proof (free_pages_aligned _ _ _ _ (proj1 Hk) Hrun) as Hal.
    destruct (free_pages_spec st pgd order Hinv Hk Hal Hfresh)
      as (st1 & Hrun1 & Hinv1 & _ & Hnb1).
    rewrite Hrun1 in Hrun. injection Hrun as <-. auto.
  - destruct (insert_page_range_spec st start count Hinv Hfresh)
      as (st1 & Hrun1 & Hinv1 & _ & Hnb1).
    rewrite Hrun1 in Hrun. injection Hrun as <-. auto.
  - destruct (remove_page_range_spec st start count) as (st1 & Hrun1 & Hinv1 & _ & Hnb1).
    { unfold remove_pre. auto. }
    rewrite Hrun1 in Hrun. injection Hrun as <-. auto.
Qed.

Lemma reachable_inv st : reachable st -> buddy_inv st /\ no_free_buddies st.
Proof.
  induction 1 as [st0 pd nr r st Hw Hinit|st st' _ [Hinv Hnb] Hstep].
  - rewrite (init_Ret st0 pd nr Hw) in Hinit. injection Hinit as _ <-.
    split; [apply buddy_inv_empty|apply no_free_buddies_empty].
  - by apply (step_inv st st').
Qed.

(** *** Deciding the preconditions on a given table *)

Lemma range_unused_from_spec st : forall k s n,
  range_unused_from k st s n = true <->
  forall (i : nat) l b, st !! i = Some l -> b ∈ l -> overlaps b (k + Z.of_nat i) s n = false.
Proof.
  induction st as [|l0 st IH]; intros k s n; simpl.
  - split; [intros _ i l b Hi; done|done].
  - rewrite andb_true_iff, forallb_forall, (IH (k + 1)). split.
    + intros [Hl Hst] i l b Hi Hb. destruct i as [|i]; simpl in Hi.
      * injection Hi as <-. rewrite Z.add_0_r.
        apply negb_true_iff, Hl. by apply list_elem_of_In.
      * replace (k + Z.of_nat (S i)) with (k + 1 + Z.of_nat i) by lia. eauto.
    + intros H. split.
      * intros b Hb%list_elem_of_In. apply negb_true_iff.
        rewrite <- (Z.add_0_r k). by apply (H 0%nat l0 b).
      * intros i l b Hi Hb.
        replace (k + 1 + Z.of_nat i) with (k + Z.of_nat (S i)) by lia.
        by apply (H (S i) l b).
Qed.

Lemma overlaps_true b k s n :
  0 <= k ->
  overlaps b k s n = true <-> exists p, covers b k p /\ s <= p < s + n.
Proof.
  intros Hk. pose proof (ppb_pos k Hk).
  unfold overlaps, covers. rewrite !andb_true_iff, !Z.ltb_lt. split.
  - intros [[? ?] ?]. exists (Z.max b s). lia.
  - intros (p & ? & ?). lia.
Qed.

Lemma range_unused_spec st s n :
  wf_table st ->
  range_unused st s n = true <-> forall p, s <= p < s + n -> ~ page_free st p.
Proof.
  intros Hw. unfold range_unused. rewrite range_unused_from_spec. split.
  - intros H p Hp (k & b & [Hk Hb] & Hc).
    pose proof (H (Z.to_nat k) (area st k) b (lookup_area st k Hw Hk) Hb) as Hov.
    rewrite Z.add_0_l, Z2Nat.id in Hov by apply Hk.
    assert (overlaps b k s n = true); [|congruence].
    apply overlaps_true; [apply Hk|eauto].
  - intros H i l b Hi Hb. rewrite Z.add_0_l.
    destruct (overlaps b (Z.of_nat i) s n) eqn:E; [|done]. exfalso.
    apply overlaps_true in E as (p & Hc & Hp); [|lia]. apply (H p Hp).
    pose proof (lookup_lt_Some _ _ _ Hi) as Hlt.
    exists (Z.of_nat i), b. split; [|done]. split.
    + unfold wf_table, valid_order, MAX_ORDER in *. lia.
    + unfold area. by rewrite Nat2Z.id, Hi.
Qed.

Lemma range_unused_from_false st : forall k s n,
  range_unused_from k st s n = false ->
  exists (i : nat) l b,
    st !! i = Some l /\ b ∈ l /\ overlaps b (k + Z.of_nat i) s n = true.
Proof.
  induction st as [|l0 st IH]; intros k s n; simpl; [done|].
  intros [Hl|Hst]%andb_false_iff.
  - assert (exists b, b ∈ l0 /\ overlaps b k s n = true) as (b & Hb & Ho).
    { clear -Hl. induction l0 as [|x l0 IHl]; simpl in Hl; [done|].
      apply andb_false_iff in Hl as [Hx%negb_false_iff|Hl].
      - exists x. split; [apply list_elem_of_here|done].
      - destruct (IHl Hl) as (b & ? & ?). exists b.
        split; [by apply list_elem_of_further|done]. }
    exists 0%nat, l0, b. by rewrite Z.add_0_r.
  - destruct (IH _ _ _ Hst) as (i & l & b & Hi & Hb & Ho).
    exists (S i), l, b. split; [done|]. split; [done|].
    by replace (k + Z.of_nat (S i)) with (k + 1 + Z.of_nat i) by lia.
Qed.

Lemma page_is_free_spec st p :
  wf_table st -> page_is_free st p = true -> page_free st p.
Proof.
  intros Hw E. unfold page_is_free, range_unused in E. apply negb_true_iff in E.
  destruct (range_unused_from_false _ _ _ _ E) as (i & l & b & Hi & Hb & Ho).
  rewrite Z.add_0_l in Ho. apply overlaps_true in Ho as (q & Hc & Hq); [|lia].
  assert (q = p) as -> by lia.
  pose proof (lookup_lt_Some _ _ _ Hi) as Hlt.
  exists (Z.of_nat i), b. split; [|done]. split.
  - unfold wf_table, valid_order, MAX_ORDER in *. lia.
  - unfold area. by rewrite Nat2Z.id, Hi.
Qed.

Lemma range_covered_spec st s n :
  wf_table st ->
  range_covered st s n = true -> forall p, s <= p < s + n -> page_free st p.
Proof.
  intros Hw H p Hp. unfold range_covered in H. rewrite forallb_forall in H.
  apply (page_is_free_spec st p Hw).
  replace p with (s + Z.of_nat (Z.to_nat (p - s))) by lia.
  apply H, in_seq. lia.
Qed.

(** ** Reachable tables satisfy the invariants *)

Lemma reachable_empty : reachable empty_areas.
Proof. by apply (reachable_init empty_areas true 8 true empty_areas). Qed.

Lemma reachable_scenario_A : reachable scenario_A.
Proof.
  apply (reachable_step empty_areas); [apply reachable_empty|].
  apply (step_insert _ _ 0 8); [|done]. intros p _. apply page_free_empty.
Qed.

Lemma reachable_scenario_B : reachable scenario_B.
Proof.
  apply (reachable_step scenario_A); [apply reachable_scenario_A|].
  by apply (step_allocate _ _ 1 (Some 0)).
Qed.

(** ** The merge loop as a fixed point *)

(** With no free buddies, the merge loop started at any free block stops
    at once. *)
Lemma repeated_merge_noop st k pos b :
  buddy_inv st -> no_free_buddies st -> valid_order k ->
  area st k !! pos = Some b ->
  repeated_merge (mk_slot k pos) k st = Ret tt st.
Proof.
  intros Hinv Hnb Hk Hpos. unfold repeated_merge. rewrite merge_loop_unfold.
  mret (read_area_Ret st k (inv_wf _ Hinv) Hk).
  mret (deref_Ret st k pos (inv_wf _ Hinv) Hk). rewrite Hpos. cbv zeta.
  destruct ((k <? MAX_ORDER) && scan_for (buddy_of b k) (area st k)) eqn:E; [|done].
  apply andb_true_iff in E as [_ (b' & Hbud & Hb')%scan_for_true].
  destruct (Hnb k b b'); [|done|done].
  split; [done|by eapply list_elem_of_lookup_2].
Qed.

(** With a free block whose buddy is free the merge loop changes the
    table: the block leaves the list of its order. *)
Lemma repeated_merge_changes st k pos b b' :
  buddy_inv st -> valid_order k ->
  area st k !! pos = Some b -> buddy_of b k = Some b' -> b' ∈ area st k ->
  exists st', repeated_merge (mk_slot k pos) k st = Ret tt st' /\ st' <> st.
Proof.
  intros Hinv Hk Hpos Hbud Hb'.
  destruct (buddy_of_Some _ _ _ (proj1 Hk) Hbud) as (Hmax & _).
  unfold repeated_merge. rewrite merge_loop_unfold.
  mret (read_area_Ret st k (inv_wf _ Hinv) Hk).
  mret (deref_Ret st k pos (inv_wf _ Hinv) Hk). rewrite Hpos. cbv zeta.
  assert ((k <? MAX_ORDER) && scan_for (buddy_of b k) (area st k) = true) as ->.
  { apply andb_true_iff. split; [by apply Z.ltb_lt|]. apply scan_for_true. eauto. }
  destruct (Z.to_nat (MAX_ORDER - k)) as [|fuel] eqn:Ef; [lia|].
  destruct (merge_block_spec st k pos b b' Hinv Hk Hpos Hbud Hb')
    as (pos' & m & st1 & Hrun & Hk1 & Hinv1 & Hpos1 & _ & _ & _ & Hgone).
  mret Hrun.
  destruct (merge_loop_spec fuel (k + 1) pos' m st1 ltac:(lia) Hk1 Hinv1 Hpos1)
    as (st' & Hrun' & _ & _ & _ & Hframe).
  exists st'. split; [done|]. intros ->. apply Hgone. split; [done|].
  rewrite <- (Hframe k Hk ltac:(lia)). by eapply list_elem_of_lookup_2.
Qed.

(** The eager-merge invariant says that the merge loop has nothing left to
    do. *)
Lemma no_free_buddies_fixed_point st :
  buddy_inv st -> no_free_buddies st <-> merge_fixed_point st.
Proof.
  intros Hinv. split.
  - intros Hnb k pos b Hk Hpos. by apply (repeated_merge_noop st k pos b).
  - intros Hfix k b b' [Hk Hb] Hbud [_ Hb'].
    destruct (list_elem_of_lookup_1 _ _ Hb) as [pos Hpos].
    destruct (repeated_merge_changes st k pos b b' Hinv Hk Hpos Hbud Hb')
      as (st' & Hrun & Hne).
    rewrite (Hfix k pos b Hk Hpos) in Hrun. by injection Hrun as <-.
Qed.

(** The buddies of the code are the two halves of an aligned block of the
    next order. *)
Lemma no_buddy_pairs_iff st : no_free_buddies st <-> no_buddy_pairs st.
Proof.
  split.
  - intros Hnb k b Hk Hmod [Hb Hb'].
    assert (0 < 2 ^ (k + 1)) as Hpos by (apply Z.pow_pos_nonneg; lia).
    assert (aligned b (k + 1)) as Hal.
    { exists (b / 2 ^ (k + 1)). rewrite pages_per_block_pow.
      pose proof (Z.div_mod b (2 ^ (k + 1))). lia. }
    assert (valid_order k) as Hv by (unfold valid_order; lia).
    apply (Hnb k b (b + pages_per_block k)).
    + by split.
    + apply buddy_of_low; [lia|done].
    + split; [done|]. by rewrite pages_per_block_pow.
  - intros Hnp k b b' [Hk Hb] Hbud [_ Hb'].
    pose proof Hk as [Hk0 _].
    assert (forall c c', buddy_of c k = Some c' -> aligned c (k + 1) ->
              c' = c + pages_per_block k -> c ∈ area st k -> c' ∈ area st k ->
              False) as Hpair.
    { intros c c' Hcb [q Hq] -> Hc Hc'.
      destruct (buddy_of_Some _ _ _ Hk0 Hcb) as (Hmax & _).
      apply (Hnp k c); [lia| |].
      - rewrite Hq, pages_per_block_pow. apply Z.mod_mul.
        assert (0 < 2 ^ (k + 1)) by (apply Z.pow_pos_nonneg; lia). lia.
      - split; [done|]. by rewrite <- pages_per_block_pow. }
    destruct (buddy_of_Some _ _ _ Hk0 Hbud) as (_ & _ & [[Ha1 Hb1]|[Ha1 Hb1]]).
    + by apply (Hpair b b').
    + pose proof (buddy_of_sym _ _ _ Hk0 Hbud) as Hsym.
      pose proof (ppb_pos k Hk0).
      destruct (buddy_of_Some _ _ _ Hk0 Hsym) as (_ & _ & [[Ha2 Hb2]|[Ha2 Hb2]]);
        [|lia].
      by apply (Hpair b' b).
Qed.

(** ** Inserting a range and removing it again *)

(** Inserting a range none of whose pages is free and removing it again
    gives the table back, for every table with the structural and the
    eager-merge invariant. *)
Lemma insert_remove_range st start count :
  buddy_inv st -> no_free_buddies st ->
  0 <= start -> 0 <= count -> start + count <= 2 ^ 64 ->
  (forall p, start <= p < start + count -> ~ page_free st p) ->
  exists st1,
    insert_page_range start count st = Ret tt st1 /\
    remove_page_range start count st1 = Ret tt st.
Proof.
  intros Hinv Hnb Hs Hc Hlim Hfresh.
  destruct (insert_page_range_spec st start count Hinv Hfresh)
    as (st1 & Hrun1 & Hinv1 & Hpf1 & Hnb1).
  destruct (remove_page_range_spec st1 start count)
    as (st2 & Hrun2 & Hinv2 & Hpf2 & Hnb2).
  { split; [done|]. split; [done|]. split; [done|]. split; [done|].
    intros p Hp. apply Hpf1. by right. }
  exists st1. split; [done|]. rewrite Hrun2. f_equal.
  apply table_canonical; auto.
  intros p. rewrite Hpf2, Hpf1. split; [intros [[?|?] ?]; [done|tauto]|].
  intros Hf. split; [by left|]. intros Hp. by apply (Hfresh p).
Qed.

(** ** Removing a range that is not covered *)

Lemma read_area_out_of_bounds k st : in_bounds k = false -> read_area k st = Undefined.
Proof. unfold read_area. by intros ->. Qed.

(** When no free block holds [start], the scan goes through all orders,
    wraps its counter at order 0 and indexes the table out of its
    bounds. *)
Lemma remove_scan_miss self start count st fuel : forall order,
  wf_table st -> 0 <= order <= MAX_ORDER -> (Z.to_nat order + 2 <= fuel)%nat ->
  ~ page_free st start ->
  remove_scan self fuel order start count st = Undefined.
Proof.
  induction fuel as [|fuel IH]; intros order Hw Hord Hfuel Hnf; [lia|].
  assert (valid_order order) as Hk by done.
  simpl remove_scan. rewrite (proj2 (Z.leb_le 0 order) (proj1 Hk)).
  rewrite to_int_small by apply Hk.
  mret (read_area_Ret st order Hw Hk).
  destruct (find_overlap start (pages_per_block order) (area st order)) as [b|] eqn:Ef.
  { apply find_overlap_Some in Ef as [Hbin Hbs]. destruct Hnf.
    exists order, b. split; [done|]. unfold covers. lia. }
  destruct (decide (order = 0)) as [->|Hne].
  - destruct fuel as [|fuel]; [lia|].
    change (wrap32 (0 - 1)) with 4294967295.
    simpl remove_scan. change (0 <=? 4294967295) with true. cbv iota.
    unfold bind. by rewrite read_area_out_of_bounds.
  - rewrite wrap32_small by (unfold MAX_ORDER in *; lia).
    apply IH; (done || lia).
Qed.

Lemma page_free_dec st p : wf_table st -> page_free st p \/ ~ page_free st p.
Proof.
  intros Hw. destruct (page_is_free st p) eqn:E.
  - left. by apply page_is_free_spec.
  - right. unfold page_is_free in E. apply negb_false_iff in E.
    apply (proj1 (range_unused_spec st p 1 Hw) E p). lia.
Qed.

(** On a table with the structural invariant, a range with a page that is
    not free sends [remove_page_range] out of the bounds of the table: the
    blocks that hold the pages before the first such page are cut out one
    after the other, and the scan for that page finds nothing. *)
Lemma remove_range_rec_uncovered fuel : forall s n st,
  (Z.to_nat n <= fuel)%nat -> buddy_inv st -> 0 <= s -> s + n <= 2 ^ 64 ->
  (exists p, s <= p < s + n /\ ~ page_free st p) ->
  remove_range_rec fuel s n st = Undefined.
Proof.
  induction fuel as [|fuel IH]; intros s n st Hfuel Hinv Hs0 Hlim (p & Hp & Hnp); [lia|].
  pose proof (inv_wf _ Hinv) as Hw.
  rewrite remove_range_rec_unfold, (proj2 (Z.eqb_neq n 0)) by lia.
  destruct (page_free_dec st s Hw) as [(k0 & b0 & Hb0 & Hc0)|Hns].
  2:{ apply remove_scan_miss; (done || unfold MAX_ORDER; lia). }
  destruct (remove_scan_finds (remove_range_rec fuel) s n st
              (Z.to_nat MAX_ORDER + 2) MAX_ORDER k0 b0)
    as (j & b & Hb & Hcb & ->);
    [done|done|lia|done|done|done|destruct Hb0 as [[? ?] _]; lia
    |unfold MAX_ORDER; lia|].
  unfold remove_at. pose proof Hb as [Hk Hbin]. unfold covers in Hcb.
  destruct (unlink_is_Some b _ Hbin) as [l1 Hl1].
  set (st1 := set_area st j l1).
  pose proof (buddy_inv_remove st j b l1 Hinv Hk Hl1) as Hinv1.
  pose proof (fun q => page_free_remove st j b l1 q Hinv Hb Hl1) as Hpf1.
  fold st1 in Hinv1, Hpf1. unfold covers in Hpf1.
  mret (remove_block_Ret st b j l1 Hw Hk Hl1). fold st1.
  destruct (s + n - 1 <=? b + pages_per_block j - 1) eqn:E.
  { apply Z.leb_le in E. destruct Hnp. exists j, b. split; [done|].
    unfold covers. lia. }
  apply Z.leb_gt in E.
  destruct (insert_page_range_spec st1 b (s - b) Hinv1)
    as (st2 & Hrun2 & Hinv2 & Hpf2 & _).
  { intros q Hq Hf. apply Hpf1 in Hf. lia. }
  mret Hrun2. apply IH; [lia|done|lia|lia|].
  exists p. split.
  - assert (~ (b <= p < b + pages_per_block j)); [|lia].
    intros Hbp. apply Hnp. by exists j, b.
  - rewrite Hpf2, Hpf1. intros [[? _]|?]; [done|]. apply Hnp. exists j, b.
    split; [done|]. unfold covers. lia.
Qed.

(** * The claims *)

(** C1.  For an order within [0, MAX_ORDER], [allocate_pages order] gives
    the null result exactly when the free lists of all orders from [order]
    to [MAX_ORDER] are empty.  Otherwise, with [f] the lowest of these
    orders whose list is not empty and [b] the head of that list, it
    returns [b]; in the table it leaves, the list of order [f] has lost its
    head and every order [j] from [order] to [f - 1] holds exactly the
    upper half [b + 2^j] of the split made at order [j + 1], so that [b],
    the lowest-address block of order [order], is the one taken out.  This
    holds on any table with the structural invariant, hence on every
    reachable table.  With a single free block, of
    order [MAX_ORDER], a first [allocate_pages MAX_ORDER] returns it and a
    second one returns null. *)
Theorem allocate_pages_spec :
  (forall st order,
     wf_table st -> valid_order order ->
     ((exists st', allocate_pages order st = Ret None st') <->
      (forall j, order <= j <= MAX_ORDER -> area st j = [])) /\
     (forall f b rest,
        buddy_inv st ->
        order <= f <= MAX_ORDER ->
        (forall j, order <= j < f -> area st j = []) ->
        area st f = b :: rest ->
        exists st',
          allocate_pages order st = Ret (Some b) st' /\
          wf_table st' /\
          forall j, valid_order j ->
            area st' j =
              if decide (j = f) then rest
              else if decide (order <= j < f) then [b + pages_per_block j]
              else area st j)) /\
  (forall st order,
     reachable st -> valid_order order ->
     (exists j, order <= j <= MAX_ORDER /\ area st j <> []) ->
     exists f b rest st',
       order <= f <= MAX_ORDER /\
       (forall j, order <= j < f -> area st j = []) /\
       area st f = b :: rest /\
       allocate_pages order st = Ret (Some b) st' /\
       wf_table st' /\
       forall j, valid_order j ->
         area st' j =
           if decide (j = f) then rest
           else if decide (order <= j < f) then [b + pages_per_block j]
           else area st j) /\
  (forall b,
     allocate_pages MAX_ORDER (set_area empty_areas MAX_ORDER [b])
       = Ret (Some b) empty_areas /\
     allocate_pages MAX_ORDER empty_areas = Ret None empty_areas).
Proof.
  split; [|split].
  - intros st order Hw Hk. split.
    + split.
      * intros [st' Hrun].
        destruct (find_free_spec (Z.to_nat (MAX_ORDER - order)) order st Hw Hk ltac:(lia))
          as [[Hall _]|(f & _ & _ & _ & Hfind)]; [done|].
        apply allocate_pages_null_inv in Hrun as [_ Hnull]. congruence.
      * intros Hall. exists st. by apply allocate_pages_null.
    + intros f b rest Hinv Hf Hlow Ha.
      assert (aligned b f) as Hal.
      { apply (inv_aligned _ Hinv). split; [unfold valid_order in *; lia|].
        rewrite Ha. apply list_elem_of_here. }
      by apply allocate_pages_block.
  - intros st order [Hinv _]%reachable_inv Hk (j & Hj & Hne).
    pose proof (inv_wf _ Hinv) as Hw.
    destruct (find_free_spec (Z.to_nat (MAX_ORDER - order)) order st Hw Hk ltac:(lia))
      as [[Hall _]|(f & Hf & Hlow & Hnf & _)]; [by destruct Hne; apply Hall|].
    destruct (area st f) as [|b rest] eqn:Ha; [done|].
    assert (aligned b f) as Hal.
    { apply (inv_aligned _ Hinv). split; [unfold valid_order in *; lia|].
      rewrite Ha. apply list_elem_of_here. }
    destruct (allocate_pages_block st order f b rest Hw Hk Hf Hlow Ha Hal)
      as (st' & Hrun & Hw' & Har).
    by exists f, b, rest, st'.
  - intros b. split; [|done].
    unfold allocate_pages.
    assert (find_free (Z.to_nat (MAX_ORDER - MAX_ORDER)) MAX_ORDER
              (set_area empty_areas MAX_ORDER [b])
            = Ret (Some MAX_ORDER) (set_area empty_areas MAX_ORDER [b])) as Hfind by done.
    mret Hfind.
    assert (read_area MAX_ORDER (set_area empty_areas MAX_ORDER [b])
            = Ret [b] (set_area empty_areas MAX_ORDER [b])) as Hread by done.
    mret Hread.
    assert (split_down (Z.to_nat (MAX_ORDER - MAX_ORDER)) MAX_ORDER MAX_ORDER (head [b])
              (set_area empty_areas MAX_ORDER [b])
            = Ret (Some b) (set_area empty_areas MAX_ORDER [b])) as Hsplit by done.
    mret Hsplit.
    assert (remove_block b MAX_ORDER (set_area empty_areas MAX_ORDER [b])
            = Ret tt empty_areas) as Hrem.
    { rewrite (remove_block_Ret _ b MAX_ORDER []); [done|done|done|].
      change (area _ MAX_ORDER) with [b]. apply unlink_head. }
    by mret Hrem.
Qed.

Lemma allocate_pages_spec_witness :
  wf_table scenario_A /\ valid_order 1 /\ 1 <= 3 <= MAX_ORDER /\
  (forall j, 1 <= j < 3 -> area scenario_A j = []) /\
  area scenario_A 3 = [0] /\
  buddy_inv scenario_A /\
  reachable scenario_A /\
  (exists j, 1 <= j <= MAX_ORDER /\ area scenario_A j <> []) /\
  (exists st',
     allocate_pages 1 scenario_A = Ret (Some 0) st' /\
     wf_table st' /\
     forall j, valid_order j ->
       area st' j =
         if decide (j = 3) then []
         else if decide (1 <= j < 3) then [0 + pages_per_block j]
         else area scenario_A j) /\
  (exists f b rest st',
     1 <= f <= MAX_ORDER /\
     (forall j, 1 <= j < f -> area scenario_A j = []) /\
     area scenario_A f = b :: rest /\
     allocate_pages 1 scenario_A = Ret (Some b) st' /\
     wf_table st' /\
     forall j, valid_order j ->
       area st' j =
         if decide (j = f) then rest
         else if decide (1 <= j < f) then [b + pages_per_block j]
         else area scenario_A j).
Proof.
  assert (wf_table scenario_A) as Hw by reflexivity.
  assert (valid_order 1) as Hk by (unfold valid_order, MAX_ORDER; lia).
  assert (1 <= 3 <= MAX_ORDER) as Hf by (unfold MAX_ORDER; lia).
  assert (forall j, 1 <= j < 3 -> area scenario_A j = []) as Hlow.
  { intros j Hj. assert (j = 1 \/ j = 2) as [-> | ->] by lia; reflexivity. }
  assert (exists j, 1 <= j <= MAX_ORDER /\ area scenario_A j <> []) as Hne.
  { exists 3. split; [exact Hf|discriminate]. }
  pose proof (proj1 (reachable_inv scenario_A reachable_scenario_A)) as Hinv.
  split; [exact Hw|]. split; [exact Hk|]. split; [exact Hf|]. split; [exact Hlow|].
  split; [reflexivity|]. split; [exact Hinv|].
  split; [exact reachable_scenario_A|]. split; [exact Hne|].
  split.
  - exact (proj2 (proj1 allocate_pages_spec scenario_A 1 Hw Hk) 3 0 [] Hinv Hf Hlow
             eq_refl).
  - exact (proj1 (proj2 allocate_pages_spec) scenario_A 1 reachable_scenario_A Hk Hne).
Defined.

(** C2.  From the table with the order-1 block at [2..3] and the order-2
    block at [4..7] free, [free_pages] of frame 0 at order 1 leaves exactly
    the order-3 block at [0..7]: the block is linked into order 1, merged
    with its buddy at frame 2 into order 2, and merged there with its buddy
    at frame 4 into order 3. *)
Theorem scenario_C_free :
  free_pages 0 1 scenario_B = Ret tt scenario_A /\
  insert_block 0 1 scenario_B
    = Ret (mk_slot 1 0)
        [[]; [0; 2]; [4]; []; []; []; []; []; []; []; []; []; []; []; []; []; []; []; []] /\
  buddy_of 0 1 = Some 2 /\
  merge_block (mk_slot 1 0) 1
      [[]; [0; 2]; [4]; []; []; []; []; []; []; []; []; []; []; []; []; []; []; []; []]
    = Ret (mk_slot 2 0)
        [[]; []; [0; 4]; []; []; []; []; []; []; []; []; []; []; []; []; []; []; []; []] /\
  buddy_of 0 2 = Some 4 /\
  merge_block (mk_slot 2 0) 2
      [[]; []; [0; 4]; []; []; []; []; []; []; []; []; []; []; []; []; []; []; []; []]
    = Ret (mk_slot 3 0) scenario_A.
Proof. by vm_compute. Qed.

(** C3 (the code departs from it).  In a reachable table, when every page
    of the range is free, [remove_page_range] returns and exactly the pages
    of the range have left the pool.  When some page of the range is not
    free it does not stop with a failed assertion: the order counter of the
    scan wraps at zero and the table is indexed at [2^32 - 1], outside its
    bounds.  So it is on the empty table, and on a table whose free block
    [0..1] covers only the head of the range [0..3]. *)
Theorem remove_page_range_outcome :
  (forall st start count,
     reachable st -> 0 <= start -> 0 <= count -> start + count <= 2 ^ 64 ->
     ((forall p, start <= p < start + count -> page_free st p) ->
      exists st',
        remove_page_range start count st = Ret tt st' /\
        forall p, page_free st' p <-> page_free st p /\ ~ (start <= p < start + count)) /\
     ((exists p, start <= p < start + count /\ ~ page_free st p) ->
      remove_page_range start count st = Undefined)) /\
  remove_page_range 0 1 empty_areas = Undefined /\
  remove_page_range 0 4 (set_area empty_areas 1 [0]) = Undefined /\
  wrap32 (0 - 1) = 4294967295 /\
  read_area 4294967295 empty_areas = Undefined.
Proof.
  split; [|by vm_compute].
  intros st start count [Hinv _]%reachable_inv Hs Hc Hlim. split.
  - intros Hcov.
    destruct (remove_page_range_spec st start count) as (st' & Hrun & _ & Hpf & _).
    { unfold remove_pre. auto. }
    by exists st'.
  - intros Hp. by apply remove_range_rec_uncovered.
Qed.

Lemma remove_page_range_outcome_witness :
  reachable scenario_B /\ 0 <= 2 /\ 0 <= 8 /\ 0 <= 4 /\
  2 + 8 <= 2 ^ 64 /\ 2 + 4 <= 2 ^ 64 /\
  (forall p, 2 <= p < 2 + 4 -> page_free scenario_B p) /\
  (exists p, 2 <= p < 2 + 8 /\ ~ page_free scenario_B p) /\
  (exists st',
     remove_page_range 2 4 scenario_B = Ret tt st' /\
     forall p, page_free st' p <-> page_free scenario_B p /\ ~ (2 <= p < 2 + 4)) /\
  remove_page_range 2 8 scenario_B = Undefined.
Proof.
  assert (0 <= 2) as H2 by lia. assert (0 <= 8) as H8 by lia.
  assert (0 <= 4) as H4 by lia.
  assert (2 + 8 <= 2 ^ 64) as Hlim8 by lia. assert (2 + 4 <= 2 ^ 64) as Hlim4 by lia.
  assert (forall p, 2 <= p < 2 + 4 -> page_free scenario_B p) as Hcov.
  { apply (range_covered_spec scenario_B 2 4); reflexivity. }
  assert (exists p, 2 <= p < 2 + 8 /\ ~ page_free scenario_B p) as Hp.
  { exists 8. split; [lia|].
    apply (proj1 (range_unused_spec scenario_B 8 1 eq_refl) eq_refl 8). lia. }
  pose proof (proj1 remove_page_range_outcome scenario_B) as Hout.
  split; [exact reachable_scenario_B|]. split; [exact H2|]. split; [exact H8|].
  split; [exact H4|]. split; [exact Hlim8|]. split; [exact Hlim4|].
  split; [exact Hcov|]. split; [exact Hp|]. split.
  - exact (proj1 (Hout 2 4 reachable_scenario_B H2 H4 Hlim4) Hcov).
  - exact (proj2 (Hout 2 8 reachable_scenario_B H2 H8 Hlim8) Hp).
Defined.

(** C4.  In a reachable table, for a range of pages none of which is
    free (frame numbers being unsigned 64-bit), [insert_page_range]
    followed by [remove_page_range] of the same range leaves the number of
    free pages as it was and the table exactly as it was. *)
Theorem insert_remove_range_conservation :
  forall st start count,
    reachable st ->
    0 <= start -> 0 <= count -> start + count <= 2 ^ 64 ->
    (forall p, start <= p < start + count -> ~ page_free st p) ->
    exists st1 st2,
      insert_page_range start count st = Ret tt st1 /\
      remove_page_range start count st1 = Ret tt st2 /\
      free_page_count st2 = free_page_count st /\
      st2 = st.
Proof.
  intros st start count [Hinv Hnb]%reachable_inv Hs Hc Hlim Hfresh.
  destruct (insert_remove_range st start count Hinv Hnb Hs Hc Hlim Hfresh)
    as (st1 & Hrun1 & Hrun2).
  by exists st1, st.
Qed.

Lemma insert_remove_range_conservation_witness :
  reachable scenario_B /\ 0 <= 0 /\ 0 <= 2 /\ 0 + 2 <= 2 ^ 64 /\
  (forall p, 0 <= p < 0 + 2 -> ~ page_free scenario_B p) /\
  exists st1 st2,
    insert_page_range 0 2 scenario_B = Ret tt st1 /\
    remove_page_range 0 2 st1 = Ret tt st2 /\
    free_page_count st2 = free_page_count scenario_B /\
    st2 = scenario_B.
Proof.
  assert (0 <= 0) as H0 by lia. assert (0 <= 2) as H2 by lia.
  assert (0 + 2 <= 2 ^ 64) as Hlim by lia.
  assert (forall p, 0 <= p < 0 + 2 -> ~ page_free scenario_B p) as Hfresh.
  { apply (range_unused_spec scenario_B 0 2); reflexivity. }
  repeat (split; [first [exact reachable_scenario_B|assumption]|]).
  exact (insert_remove_range_conservation scenario_B 0 2 reachable_scenario_B
           H0 H2 Hlim Hfresh).
Defined.

(** C5.  [init] empties every free list, and [insert_page_range] of 8
    pages from frame 0 then leaves exactly one free block, the order-3
    block at frames [0..7].  [insert_page_range] works by the greedy rule:
    while pages remain, the inner loop picks the largest order [k] up to
    [MAX_ORDER] with [2^k <= count] and [start] aligned to [k], that block
    is freed, and the loop goes on [2^k] pages further with [2^k] pages
    less. *)
Theorem scenario_A_insert_range :
  (forall st0 page_descriptors nr,
     wf_table st0 ->
     init page_descriptors nr st0
       = Ret (page_descriptors && (0 <? nr)) empty_areas /\
     (init page_descriptors nr;; insert_page_range 0 8) st0 = Ret tt scenario_A) /\
  (forall start count,
     0 < count ->
     let k := find_size (Z.to_nat MAX_ORDER) start count in
     0 <= k <= MAX_ORDER /\
     pages_per_block k <= count /\
     is_correct_alignment_for_order start k = true /\
     (forall j, k < j <= MAX_ORDER ->
        count < pages_per_block j \/ is_correct_alignment_for_order start j = false) /\
     forall st,
       insert_page_range start count st =
       (free_pages start k;;
        insert_page_range (start + pages_per_block k) (count - pages_per_block k)) st) /\
  (forall start count st, count <= 0 -> insert_page_range start count st = Ret tt st).
Proof.
  split; [|split].
  - intros st0 pd nr Hw. split; [by apply init_Ret|].
    by mret (init_Ret st0 pd nr Hw).
  - intros start count Hc.
    destruct (find_size_spec (Z.to_nat MAX_ORDER) start count Hc) as (Hk & Hle & Hal & Hmax).
    rewrite MAX_ORDER_nat in Hk, Hmax. cbv zeta.
    split; [done|]. split; [done|].
    split; [apply is_aligned_spec; [lia|done]|]. split.
    + intros j Hj. destruct (Hmax j Hj) as [?|Hn]; [by left|right].
      apply is_aligned_false; [lia|done].
    + intros st. by apply insert_page_range_unfold.
  - intros start count st Hc. by apply insert_page_range_0.
Qed.

Lemma scenario_A_insert_range_witness :
  wf_table scenario_D /\ 0 < 8 /\ 0 <= 0 /\
  (init true 8;; insert_page_range 0 8) scenario_D = Ret tt scenario_A /\
  find_size (Z.to_nat MAX_ORDER) 0 8 = 3 /\
  insert_page_range 0 8 empty_areas =
    (free_pages 0 3;; insert_page_range (0 + pages_per_block 3) (8 - pages_per_block 3))
      empty_areas /\
  insert_page_range 8 0 scenario_A = Ret tt scenario_A.
Proof.
  assert (wf_table scenario_D) as Hw by reflexivity.
  assert (0 < 8) as H8 by lia. assert (0 <= 0) as H0 by lia.
  destruct scenario_A_insert_range as (Hinit & Hgreedy & Hzero).
  split; [done|]. split; [done|]. split; [done|].
  split; [exact (proj2 (Hinit scenario_D true 8 Hw))|].
  split; [reflexivity|].
  split; [exact (proj2 (proj2 (proj2 (proj2 (Hgreedy 0 8 H8)))) empty_areas)|].
  exact (Hzero 8 0 scenario_A H0).
Defined.

(** C6.  From the table whose only free block is the order-3 block at
    frames [0..7], [allocate_pages 1] returns the block at frame 0; the
    table is left with the order-1 block at [2..3] and the order-2 block at
    [4..7].  The head of order 3 is split at order 3 and then at order 2,
    and frame 0 is unlinked from order 1. *)
Theorem scenario_B_allocate :
  allocate_pages 1 scenario_A = Ret (Some 0) scenario_B /\
  (split_block (Some 0) 3;; split_block (Some 0) 2;; remove_block 0 1) scenario_A
    = Ret tt scenario_B /\
  split_block (Some 0) 3 scenario_A
    = Ret 0 [[]; []; [0; 4]; []; []; []; []; []; []; []; []; []; []; []; []; []; []; []; []].
Proof. by vm_compute. Qed.

(** C7.  From the table whose only free block is the order-3 block at
    frames [0..7], [remove_page_range] of 2 pages from frame 3 leaves
    order-0 blocks at frames 2 and 5 and order-1 blocks at [0..1] and
    [6..7]: of the frames 0 to 7 exactly 3 and 4 are no longer free. *)
Theorem scenario_D_remove_range :
  remove_page_range 3 2 scenario_A = Ret tt scenario_D /\
  map (page_is_free scenario_D) [0; 1; 2; 3; 4; 5; 6; 7]
    = [true; true; true; false; false; true; true; true].
Proof. by vm_compute. Qed.

(** C8.  In a reachable table, after [free_pages] of an aligned block none
    of whose pages was free, and after [insert_page_range] of a range none
    of whose pages was free, no two buddies are both free: for an order [k]
    below [MAX_ORDER] and a frame [b] that is a multiple of [2^(k+1)], the
    blocks at [b] and at [b + 2^k] are not both in the list of order [k].
    Running the merge loop once more, from any slot that holds a free
    block, returns the table as it is.  The two say the same of any table
    with the structural invariant. *)
Theorem eager_merge_invariant :
  (forall st, reachable st ->
     (forall pgd order,
        valid_order order ->
        is_correct_alignment_for_order pgd order = true ->
        (forall p, covers pgd order p -> ~ page_free st p) ->
        exists st',
          free_pages pgd order st = Ret tt st' /\
          no_buddy_pairs st' /\ merge_fixed_point st') /\
     (forall start count,
        (forall p, start <= p < start + count -> ~ page_free st p) ->
        exists st',
          insert_page_range start count st = Ret tt st' /\
          no_buddy_pairs st' /\ merge_fixed_point st')) /\
  (forall st, buddy_inv st -> no_buddy_pairs st <-> merge_fixed_point st).
Proof.
  split.
  - intros st [Hinv Hnb]%reachable_inv. split.
    + intros pgd order Hk Hal Hfresh. apply is_aligned_spec in Hal; [|apply Hk].
      destruct (free_pages_spec st pgd order Hinv Hk Hal Hfresh)
        as (st' & Hrun & Hinv' & _ & Hnb').
      exists st'. split; [done|]. split; [apply no_buddy_pairs_iff; auto|].
      apply no_free_buddies_fixed_point; auto.
    + intros start count Hfresh.
      destruct (insert_page_range_spec st start count Hinv Hfresh)
        as (st' & Hrun & Hinv' & _ & Hnb').
      exists st'. split; [done|]. split; [apply no_buddy_pairs_iff; auto|].
      apply no_free_buddies_fixed_point; auto.
  - intros st Hinv. rewrite <- no_buddy_pairs_iff.
    by apply no_free_buddies_fixed_point.
Qed.

Lemma eager_merge_invariant_witness :
  reachable scenario_B /\ valid_order 1 /\
  is_correct_alignment_for_order 0 1 = true /\
  (forall p, covers 0 1 p -> ~ page_free scenario_B p) /\
  (forall p, 0 <= p < 0 + 2 -> ~ page_free scenario_B p) /\
  buddy_inv scenario_B /\
  (exists st',
     free_pages 0 1 scenario_B = Ret tt st' /\
     no_buddy_pairs st' /\ merge_fixed_point st') /\
  (exists st',
     insert_page_range 0 2 scenario_B = Ret tt st' /\
     no_buddy_pairs st' /\ merge_fixed_point st') /\
  (no_buddy_pairs scenario_B <-> merge_fixed_point scenario_B).
Proof.
  assert (valid_order 1) as Hk by (unfold valid_order, MAX_ORDER; lia).
  assert (forall p, 0 <= p < 0 + 2 -> ~ page_free scenario_B p) as Hfresh.
  { apply (range_unused_spec scenario_B 0 2); reflexivity. }
  assert (forall p, covers 0 1 p -> ~ page_free scenario_B p) as Hfresh'.
  { intros p Hp. apply Hfresh. exact Hp. }
  pose proof (proj1 (reachable_inv scenario_B reachable_scenario_B)) as Hinv.
  destruct eager_merge_invariant as [Hreach Hiff].
  destruct (Hreach scenario_B reachable_scenario_B) as [Hfree Hins].
  split; [exact reachable_scenario_B|]. split; [exact Hk|].
  split; [reflexivity|]. split; [exact Hfresh'|]. split; [exact Hfresh|].
  split; [exact Hinv|].
  split; [exact (Hfree 0 1 Hk eq_refl Hfresh')|].
  split; [exact (Hins 0 2 Hfresh)|exact (Hiff scenario_B Hinv)].
Defined.

(** C9.  In every table reachable from an initialised one by calls of
    [allocate_pages], [free_pages], [insert_page_range] and
    [remove_page_range] with their preconditions, every free block of
    order [k] starts at a multiple of [2^k], any two free blocks at
    different places of the table (in one list or in two) cover disjoint
    page sets, and every list is strictly ascending. *)
Theorem structural_invariant :
  forall st, reachable st ->
    wf_table st /\
    (forall k b, valid_order k -> b ∈ area st k -> b mod 2 ^ k = 0) /\
    (forall k1 i1 b1 k2 i2 b2,
       valid_order k1 -> valid_order k2 ->
       area st k1 !! i1 = Some b1 -> area st k2 !! i2 = Some b2 ->
       (k1, i1) <> (k2, i2) ->
       b1 + 2 ^ k1 <= b2 \/ b2 + 2 ^ k2 <= b1) /\
    (forall k (i j : nat) x y,
       valid_order k -> area st k !! i = Some x -> area st k !! j = Some y ->
       (i < j)%nat -> x < y).
Proof.
  intros st [Hinv _]%reachable_inv. pose proof Hinv as [Hw Hal Hs Hd].
  split; [done|]. split; [|split].
  - intros k b Hk Hb. destruct (Hal k b (conj Hk Hb)) as [q ->].
    rewrite pages_per_block_pow. apply Z.mod_mul.
    pose proof (ppb_pos k (proj1 Hk)). rewrite pages_per_block_pow in *. lia.
  - intros k1 i1 b1 k2 i2 b2 Hk1 Hk2 H1 H2 Hne.
    rewrite <- !pages_per_block_pow.
    pose proof (ppb_pos k1 (proj1 Hk1)). pose proof (ppb_pos k2 (proj1 Hk2)).
    destruct (decide (b1 + pages_per_block k1 <= b2)); [by left|].
    destruct (decide (b2 + pages_per_block k2 <= b1)); [by right|]. exfalso.
    assert (free_block st k1 b1) as Hf1 by (split; [done|by eapply list_elem_of_lookup_2]).
    assert (free_block st k2 b2) as Hf2 by (split; [done|by eapply list_elem_of_lookup_2]).
    destruct (Hd k1 b1 k2 b2 (Z.max b1 b2) Hf1 Hf2) as [-> ->];
      [unfold covers; lia..|].
    destruct (Nat.lt_trichotomy i1 i2) as [Hlt|[->|Hlt]]; [|done|].
    + pose proof (ascending_lookup _ _ _ _ _ (Hs k2 Hk2) H1 H2 Hlt). lia.
    + pose proof (ascending_lookup _ _ _ _ _ (Hs k2 Hk2) H2 H1 Hlt). lia.
  - intros k i j x y Hk Hi Hj Hij. by apply (ascending_lookup _ _ _ _ _ (Hs k Hk) Hi Hj).
Qed.

Lemma structural_invariant_witness :
  reachable scenario_D /\
  wf_table scenario_D /\
  (forall k b, valid_order k -> b ∈ area scenario_D k -> b mod 2 ^ k = 0) /\
  (forall k1 i1 b1 k2 i2 b2,
     valid_order k1 -> valid_order k2 ->
     area scenario_D k1 !! i1 = Some b1 -> area scenario_D k2 !! i2 = Some b2 ->
     (k1, i1) <> (k2, i2) ->
     b1 + 2 ^ k1 <= b2 \/ b2 + 2 ^ k2 <= b1) /\
  (forall k (i j : nat) x y,
     valid_order k -> area scenario_D k !! i = Some x ->
     area scenario_D k !! j = Some y -> (i < j)%nat -> x < y).
Proof.
  assert (reachable scenario_D) as Hr.
  { apply (reachable_step scenario_A); [apply reachable_scenario_A|].
    apply (step_remove _ _ 3 2); [lia|lia|lia| |reflexivity].
    apply (range_covered_spec scenario_A 3 2); reflexivity. }
  split; [exact Hr|]. exact (structural_invariant scenario_D Hr).
Defined.

(** C10.  When [allocate_pages order], for an order within
    [0, MAX_ORDER], returns null, the free-area table is the one it was
    called on: the null result is the one of the search loop, which only
    reads the table. *)
Theorem allocate_pages_null_unchanged :
  forall st order st',
    valid_order order ->
    allocate_pages order st = Ret None st' ->
    st' = st /\
    find_free (Z.to_nat (MAX_ORDER - order)) order st = Ret None st.
Proof. intros st order st' _ Hrun. by apply allocate_pages_null_inv. Qed.

Lemma allocate_pages_null_unchanged_witness :
  valid_order 0 /\
  allocate_pages 0 empty_areas = Ret None empty_areas /\
  empty_areas = empty_areas /\
  find_free (Z.to_nat (MAX_ORDER - 0)) 0 empty_areas = Ret None empty_areas.
Proof.
  assert (valid_order 0) as Hk by (unfold valid_order, MAX_ORDER; lia).
  assert (allocate_pages 0 empty_areas = Ret None empty_areas) as Hrun by reflexivity.
  split; [done|]. split; [done|].
  exact (allocate_pages_null_unchanged empty_areas 0 empty_areas Hk Hrun).
Defined.

(** * Further properties of the code *)

(** ** The buddy as an exclusive or *)

Lemma lxor_1_even r : Z.lxor (2 * r) 1 = 2 * r + 1.
Proof.
  symmetry. apply Z.add_nocarry_lxor. change 1 with (Z.ones 1).
  rewrite Z.land_ones by lia. rewrite Z.mul_comm. apply Z.mod_mul. lia.
Qed.

Lemma lxor_1_odd r : Z.lxor (2 * r + 1) 1 = 2 * r.
Proof.
  by rewrite <- lxor_1_even, Z.lxor_assoc, Z.lxor_nilpotent, Z.lxor_0_r.
Qed.

Lemma lxor_block q k :
  0 <= k -> Z.lxor (q * pages_per_block k) (pages_per_block k)
            = Z.lxor q 1 * pages_per_block k.
Proof.
  intros Hk. rewrite pages_per_block_pow.
  rewrite <- (Z.mul_1_l (2 ^ k)) at 2.
  by rewrite <- !Z.shiftl_mul_pow2, <- Z.shiftl_lxor by done.
Qed.

Lemma buddy_of_lxor pgd order buddy :
  0 <= order -> buddy_of pgd order = Some buddy ->
  buddy = Z.lxor pgd (pages_per_block order).
Proof.
  intros Hk Hb. destruct (buddy_of_Some _ _ _ Hk Hb) as (_ & [q ->] & Hc).
  rewrite lxor_block by done. pose proof (ppb_pos order Hk).
  destruct Hc as [[[s Hs] ->]|[Hn ->]].
  - rewrite ppb_succ in Hs by done.
    assert (q = 2 * s) as -> by (apply (Z.mul_reg_r _ _ (pages_per_block order)); lia).
    rewrite lxor_1_even. lia.
  - destruct (Z.Even_or_Odd q) as [[r ->]|[r ->]].
    + destruct Hn. exists r. rewrite ppb_succ by done. lia.
    + rewrite lxor_1_odd. lia.
Qed.

(** X1.  For an aligned block of an order below [MAX_ORDER], [buddy_of]
    returns the frame number with bit [order] flipped.  The buddy's buddy
    is the block itself; the two differ by [2^order] and the lower one is
    aligned to [order + 1], so together they make up one block of the next
    order. *)
Theorem buddy_of_xor :
  (forall pgd order,
     0 <= order < MAX_ORDER ->
     is_correct_alignment_for_order pgd order = true ->
     buddy_of pgd order = Some (Z.lxor pgd (pages_per_block order))) /\
  (forall pgd order buddy,
     0 <= order -> buddy_of pgd order = Some buddy ->
     buddy_of buddy order = Some pgd /\
     Z.max pgd buddy = Z.min pgd buddy + pages_per_block order /\
     is_correct_alignment_for_order (Z.min pgd buddy) (order + 1) = true).
Proof.
  split.
  - intros pgd order Hk Hal.
    destruct (buddy_of pgd order) as [b|] eqn:Hb.
    + f_equal. apply buddy_of_lxor; [lia|done].
    + unfold buddy_of in Hb. rewrite Hal in Hb.
      destruct (MAX_ORDER <=? order) eqn:E; [apply Z.leb_le in E; lia|done].
  - intros pgd order buddy Hk Hb. split; [by apply buddy_of_sym|].
    destruct (buddy_of_Some _ _ _ Hk Hb) as (_ & Hal & Hc).
    pose proof (ppb_pos order Hk).
    destruct Hc as [[Ha1 ->]|[Hn ->]].
    + rewrite Z.max_r, Z.min_l by lia. split; [done|].
      apply is_aligned_spec; [lia|done].
    + rewrite Z.max_l, Z.min_r by lia. split; [lia|].
      apply is_aligned_spec; [lia|]. by apply aligned_upper_half.
Qed.

Lemma buddy_of_xor_witness :
  0 <= 1 < MAX_ORDER /\ 0 <= 1 /\
  is_correct_alignment_for_order 6 1 = true /\
  buddy_of 6 1 = Some 4 /\
  buddy_of 6 1 = Some (Z.lxor 6 (pages_per_block 1)) /\
  buddy_of 4 1 = Some 6 /\
  Z.max 6 4 = Z.min 6 4 + pages_per_block 1 /\
  is_correct_alignment_for_order (Z.min 6 4) (1 + 1) = true.
Proof.
  assert (0 <= 1 < MAX_ORDER) as Hk by (unfold MAX_ORDER; lia).
  assert (0 <= 1) as H1 by lia.
  split; [exact Hk|]. split; [exact H1|]. split; [reflexivity|].
  split; [reflexivity|].
  split; [exact (proj1 buddy_of_xor 6 1 Hk eq_refl)|].
  exact (proj2 buddy_of_xor 6 1 4 H1 eq_refl).
Defined.

(** ** Linking and unlinking one block *)

Lemma unlink_insert_sorted b l : unlink b (insert_sorted b l) = Some l.
Proof.
  induction l as [|x l IH]; simpl.
  - by rewrite Z.eqb_refl.
  - destruct (x <? b) eqn:E; simpl.
    + apply Z.ltb_lt in E. rewrite (proj2 (Z.eqb_neq x b)) by lia. by rewrite IH.
    + by rewrite Z.eqb_refl.
Qed.

Lemma insert_sorted_unlink b l l' :
  ascending l -> unlink b l = Some l' -> insert_sorted b l' = l.
Proof.
  revert l'. induction l as [|x l IH]; simpl; intros l' Hs Hu; [done|].
  destruct Hs as [Hx Hs]. destruct (x =? b) eqn:E.
  - apply Z.eqb_eq in E. injection Hu as <-. subst x.
    destruct l as [|y l]; simpl; [done|].
    pose proof (Hx y (list_elem_of_here _ _)).
    by rewrite (proj2 (Z.ltb_ge y b)) by lia.
  - apply Z.eqb_neq in E. apply fmap_Some in Hu as (l'' & Hu & ->). simpl.
    assert (b ∈ l) as Hb.
    { destruct (decide (b ∈ l)) as [|Hn]; [done|].
      apply unlink_None in Hn. congruence. }
    pose proof (Hx b Hb). rewrite (proj2 (Z.ltb_lt x b)) by lia.
    f_equal. by apply IH.
Qed.

Lemma length_insert_sorted b l : length (insert_sorted b l) = S (length l).
Proof.
  induction l as [|x l IH]; simpl; [done|].
  destruct (x <? b); simpl; by rewrite ?IH.
Qed.

Lemma length_unlink b l l' : unlink b l = Some l' -> length l = S (length l').
Proof.
  revert l'. induction l as [|x l IH]; simpl; intros l' Hu; [done|].
  destruct (x =? b); [by injection Hu as <-|].
  apply fmap_Some in Hu as (l'' & Hu & ->). simpl. f_equal. by apply IH.
Qed.

Lemma set_area_twice st k l l' : set_area (set_area st k l) k l' = set_area st k l'.
Proof. unfold set_area. apply list_insert_insert_eq. Qed.

Lemma set_area_id st k :
  wf_table st -> valid_order k -> set_area st k (area st k) = st.
Proof. intros Hw Hk. unfold set_area. by apply list_insert_id, lookup_area. Qed.

(** The table with order-0 blocks at frames 2 and 5 and order-1 blocks at
    [0..1] and [6..7] is reachable. *)
Lemma reachable_scenario_D : reachable scenario_D.
Proof.
  apply (reachable_step scenario_A); [apply reachable_scenario_A|].
  apply (step_remove _ _ 3 2); [lia|lia|lia| |reflexivity].
  apply (range_covered_spec scenario_A 3 2); reflexivity.
Qed.

(** A frame that is not a free page is linked in no list. *)
Lemma unused_not_linked st pgd :
  wf_table st -> range_unused st pgd 1 = true ->
  forall j, valid_order j -> pgd ∉ area st j.
Proof.
  intros Hw Hu j Hj Hin.
  apply (proj1 (range_unused_spec st pgd 1 Hw) Hu pgd ltac:(lia)).
  exists j, pgd. split; [by split|]. apply covers_self, Hj.
Qed.

(** X2.  In a table with the structural invariant, [insert_block] of a
    block that is linked in no list, at an order within range, links the
    block into the list of that order and into no other: the list holds
    the block and what it held, is one longer and still strictly ascending,
    the slot returned points to the block, and every other list is as it
    was. *)
Theorem insert_block_effect :
  forall st pgd order,
    buddy_inv st -> valid_order order ->
    (forall j, valid_order j -> pgd ∉ area st j) ->
    exists s st',
      insert_block pgd order st = Ret s st' /\
      wf_table st' /\
      deref s st' = Ret (Some pgd) st' /\
      (forall x, x ∈ area st' order <-> x = pgd \/ x ∈ area st order) /\
      length (area st' order) = S (length (area st order)) /\
      (forall j, valid_order j -> j <> order -> area st' j = area st j) /\
      (forall j, valid_order j -> ascending (area st' j)).
Proof.
  intros st pgd order Hinv Hk Hnew. pose proof (inv_wf _ Hinv) as Hw.
  exists (mk_slot order (insert_pos pgd (area st order))),
         (set_area st order (insert_sorted pgd (area st order))).
  pose proof (wf_set_area st order (insert_sorted pgd (area st order)) Hw) as Hw'.
  split; [by apply insert_block_Ret|]. split; [done|]. split.
  { rewrite deref_Ret by done. rewrite area_set_area_eq by done.
    by rewrite lookup_insert_pos. }
  rewrite !area_set_area_eq by done.
  split; [intros x; apply elem_of_insert_sorted|].
  split; [apply length_insert_sorted|].
  split; [intros j Hj Hne; by apply area_set_area_ne|].
  intros j Hj. destruct (decide (j = order)) as [->|Hne].
  - rewrite area_set_area_eq by done.
    apply ascending_insert_sorted; [by apply inv_sorted|by apply Hnew].
  - rewrite area_set_area_ne by done. by apply inv_sorted.
Qed.

Lemma insert_block_effect_witness :
  buddy_inv scenario_D /\ valid_order 0 /\
  (forall j, valid_order j -> 3 ∉ area scenario_D j) /\
  exists s st',
    insert_block 3 0 scenario_D = Ret s st' /\
    wf_table st' /\
    deref s st' = Ret (Some 3) st' /\
    (forall x, x ∈ area st' 0 <-> x = 3 \/ x ∈ area scenario_D 0) /\
    length (area st' 0) = S (length (area scenario_D 0)) /\
    (forall j, valid_order j -> j <> 0 -> area st' j = area scenario_D j) /\
    (forall j, valid_order j -> ascending (area st' j)).
Proof.
  pose proof (proj1 (reachable_inv scenario_D reachable_scenario_D)) as Hinv.
  assert (valid_order 0) as Hk by (unfold valid_order, MAX_ORDER; lia).
  assert (forall j, valid_order j -> 3 ∉ area scenario_D j) as Hnew.
  { apply unused_not_linked; reflexivity. }
  split; [exact Hinv|]. split; [exact Hk|]. split; [exact Hnew|].
  exact (insert_block_effect scenario_D 3 0 Hinv Hk Hnew).
Defined.

(** X3.  [remove_block] stops at its assertion exactly when the block is
    not in the list of the given order.  When the block is there, in a
    table with the structural invariant, one link is taken out of that
    list: what is left is everything but the block, no other list changes
    and the structural invariant still holds. *)
Theorem remove_block_outcome :
  forall st pgd order,
    wf_table st -> valid_order order ->
    (pgd ∉ area st order <-> remove_block pgd order st = AssertFail) /\
    (buddy_inv st -> pgd ∈ area st order ->
     exists st',
       remove_block pgd order st = Ret tt st' /\
       buddy_inv st' /\
       length (area st order) = S (length (area st' order)) /\
       (forall x, x ∈ area st' order <-> x ∈ area st order /\ x <> pgd) /\
       (forall j, valid_order j -> j <> order -> area st' j = area st j)).
Proof.
  intros st pgd order Hw Hk. split.
  - unfold remove_block. mret (read_area_Ret st order Hw Hk).
    destruct (unlink pgd (area st order)) as [l'|] eqn:Hu.
    + rewrite write_area_Ret by done. split; [|done].
      intros Hn. apply unlink_None in Hn. congruence.
    + split; [done|]. intros _. by apply unlink_None.
  - intros Hinv Hin. destruct (unlink_is_Some _ _ Hin) as [l' Hu].
    exists (set_area st order l').
    split; [by apply remove_block_Ret|].
    split; [by apply (buddy_inv_remove st order pgd)|].
    rewrite !area_set_area_eq by done.
    split; [by apply (length_unlink pgd)|].
    split; [intros x; apply unlink_elem; [by apply inv_sorted|done]|].
    intros j Hj Hne. by apply area_set_area_ne.
Qed.

Lemma remove_block_outcome_witness :
  wf_table scenario_D /\ valid_order 1 /\ buddy_inv scenario_D /\
  (6 ∈ area scenario_D 1) /\ (7 ∉ area scenario_D 1) /\
  remove_block 7 1 scenario_D = AssertFail /\
  exists st',
    remove_block 6 1 scenario_D = Ret tt st' /\
    buddy_inv st' /\
    length (area scenario_D 1) = S (length (area st' 1)) /\
    (forall x, x ∈ area st' 1 <-> x ∈ area scenario_D 1 /\ x <> 6) /\
    (forall j, valid_order j -> j <> 1 -> area st' j = area scenario_D j).
Proof.
  pose proof (proj1 (reachable_inv scenario_D reachable_scenario_D)) as Hinv.
  assert (wf_table scenario_D) as Hw by reflexivity.
  assert (valid_order 1) as Hk by (unfold valid_order, MAX_ORDER; lia).
  assert (6 ∈ area scenario_D 1) as Hin.
  { apply (list_elem_of_lookup_2 _ 1%nat). reflexivity. }
  assert (7 ∉ area scenario_D 1) as Hout.
  { apply unlink_None. reflexivity. }
  destruct (remove_block_outcome scenario_D 7 1 Hw Hk) as [Hfail _].
  destruct (remove_block_outcome scenario_D 6 1 Hw Hk) as [_ Hok].
  split; [exact Hw|]. split; [exact Hk|]. split; [exact Hinv|].
  split; [exact Hin|]. split; [exact Hout|].
  split; [exact (proj1 Hfail Hout)|exact (Hok Hinv Hin)].
Defined.

(** X4.  In a table with the structural invariant, linking in a block that
    is in no list and unlinking it again gives the table back; unlinking a
    block of a list and linking it in again gives the table back too, the
    slot returned pointing to the block. *)
Theorem insert_remove_block_round_trip :
  forall st pgd order,
    buddy_inv st -> valid_order order ->
    ((forall j, valid_order j -> pgd ∉ area st j) ->
     (insert_block pgd order;; remove_block pgd order) st = Ret tt st) /\
    (pgd ∈ area st order ->
     exists s,
       (remove_block pgd order;; insert_block pgd order) st = Ret s st /\
       deref s st = Ret (Some pgd) st).
Proof.
  intros st pgd order Hinv Hk. pose proof (inv_wf _ Hinv) as Hw. split.
  - intros _. mret (insert_block_Ret st pgd order Hw Hk).
    rewrite (remove_block_Ret _ pgd order (area st order));
      [|by apply wf_set_area|done|].
    + by rewrite set_area_twice, set_area_id.
    + rewrite area_set_area_eq by done. apply unlink_insert_sorted.
  - intros Hin. pose proof (inv_sorted _ Hinv order Hk) as Hs.
    destruct (unlink_is_Some _ _ Hin) as [l' Hu].
    mret (remove_block_Ret st pgd order l' Hw Hk Hu).
    rewrite insert_block_Ret by (done || by apply wf_set_area).
    rewrite area_set_area_eq by done.
    rewrite (insert_sorted_unlink pgd _ l' Hs Hu), set_area_twice, set_area_id by done.
    eexists. split; [done|]. rewrite deref_Ret by done.
    rewrite <- (insert_sorted_unlink pgd _ l' Hs Hu) at 1.
    by rewrite lookup_insert_pos.
Qed.

Lemma insert_remove_block_round_trip_witness :
  buddy_inv scenario_D /\ valid_order 0 /\
  (forall j, valid_order j -> 3 ∉ area scenario_D j) /\
  (5 ∈ area scenario_D 0) /\
  (insert_block 3 0;; remove_block 3 0) scenario_D = Ret tt scenario_D /\
  exists s,
    (remove_block 5 0;; insert_block 5 0) scenario_D = Ret s scenario_D /\
    deref s scenario_D = Ret (Some 5) scenario_D.
Proof.
  pose proof (proj1 (reachable_inv scenario_D reachable_scenario_D)) as Hinv.
  assert (valid_order 0) as Hk by (unfold valid_order, MAX_ORDER; lia).
  assert (forall j, valid_order j -> 3 ∉ area scenario_D j) as Hout.
  { apply unused_not_linked; reflexivity. }
  assert (5 ∈ area scenario_D 0) as Hin.
  { apply (list_elem_of_lookup_2 _ 1%nat). reflexivity. }
  destruct (insert_remove_block_round_trip scenario_D 3 0 Hinv Hk) as [Hir _].
  destruct (insert_remove_block_round_trip scenario_D 5 0 Hinv Hk) as [_ Hri].
  split; [exact Hinv|]. split; [exact Hk|]. split; [exact Hout|].
  split; [exact Hin|].
  split; [exact (Hir Hout)|exact (Hri Hin)].
Defined.

(** ** Splitting and merging one block *)

(** Tables with the structural invariant and the same free blocks are
    equal. *)
Lemma table_eq_blocks st1 st2 :
  buddy_inv st1 -> buddy_inv st2 ->
  (forall j c, free_block st1 j c <-> free_block st2 j c) -> st1 = st2.
Proof.
  intros H1 H2 He. apply table_ext; [apply H1|apply H2|]. intros k Hk.
  apply ascending_ext; [by apply inv_sorted..|]. intros x.
  split; intros Hx; by apply (He k x).
Qed.

Lemma covers_halves b k p :
  0 < k ->
  covers b k p <-> covers b (k - 1) p \/ covers (b + pages_per_block (k - 1)) (k - 1) p.
Proof.
  intros Hk. unfold covers. rewrite (ppb_pred k Hk).
  pose proof (ppb_pos (k - 1) ltac:(lia)). lia.
Qed.

Lemma split_block_blocks st b k :
  buddy_inv st -> 0 < k -> free_block st k b ->
  exists st',
    split_block (Some b) k st = Ret b st' /\
    buddy_inv st' /\
    forall j c, free_block st' j c <->
      (free_block st j c /\ ~ (j = k /\ c = b)) \/
      (j = k - 1 /\ (c = b \/ c = b + pages_per_block (k - 1))).
Proof.
  intros Hinv Hpos Hb. pose proof Hinv as [Hw Ha Hs Hd]. pose proof Hb as [Hk Hbin].
  assert (valid_order (k - 1)) as Hk1 by (unfold valid_order in *; lia).
  pose proof (Ha k b Hb) as Hal.
  destruct (aligned_halves b (k - 1) ltac:(lia)) as (Hlo & Hhi & _).
  { by replace (k - 1 + 1) with k by lia. }
  set (r := b + pages_per_block (k - 1)) in *.
  destruct (unlink_is_Some b _ Hbin) as [l1 Hl1].
  set (st1 := set_area st k l1).
  pose proof (buddy_inv_remove st k b l1 Hinv Hk Hl1) as Hinv1.
  pose proof (fun j c => free_block_remove st k b l1 j c Hw Hk (Hs k Hk) Hl1) as Hfb1.
  pose proof (fun p => page_free_remove st k b l1 p Hinv Hb Hl1) as Hpf1.
  fold st1 in Hinv1, Hfb1, Hpf1.
  set (st2 := set_area st1 (k - 1) (insert_sorted b (area st1 (k - 1)))).
  assert (buddy_inv st2) as Hinv2.
  { apply buddy_inv_insert; [done..|]. intros p Hp Hf. apply Hpf1 in Hf as [_ Hf].
    apply Hf, covers_halves; auto. }
  pose proof (fun j c => free_block_insert st1 (k - 1) b j c (inv_wf _ Hinv1) Hk1) as Hfb2.
  pose proof (fun p => page_free_insert st1 (k - 1) b p (inv_wf _ Hinv1) Hk1) as Hpf2.
  fold st2 in Hfb2, Hpf2.
  set (st3 := set_area st2 (k - 1) (insert_sorted r (area st2 (k - 1)))).
  assert (buddy_inv st3) as Hinv3.
  { apply buddy_inv_insert; [done..|]. intros p Hp Hf.
    apply Hpf2 in Hf as [Hf|Hf].
    - apply Hpf1 in Hf as [_ Hf]. apply Hf, covers_halves; auto.
    - unfold covers, r in *. lia. }
  pose proof (fun j c => free_block_insert st2 (k - 1) r j c (inv_wf _ Hinv2) Hk1) as Hfb3.
  fold st3 in Hfb3.
  exists st3. split; [|split; [done|]].
  - unfold split_block.
    mret (assert_true _ st (proj2 (is_aligned_spec b k (proj1 Hk)) Hal)).
    rewrite (proj2 (Z.eqb_neq k 0)) by lia.
    mret (remove_block_Ret st b k l1 Hw Hk Hl1). fold st1.
    mret (insert_block_Ret st1 b (k - 1) (inv_wf _ Hinv1) Hk1). fold st2.
    by mret (insert_block_Ret st2 r (k - 1) (inv_wf _ Hinv2) Hk1).
  - intros j c. rewrite Hfb3, Hfb2, Hfb1. tauto.
Qed.

Lemma merge_block_blocks st k pos b b' :
  buddy_inv st -> valid_order k ->
  area st k !! pos = Some b -> buddy_of b k = Some b' -> b' ∈ area st k ->
  exists pos' st',
    merge_block (mk_slot k pos) k st = Ret (mk_slot (k + 1) pos') st' /\
    buddy_inv st' /\
    area st' (k + 1) !! pos' = Some (Z.min b b') /\
    forall j c, free_block st' j c <->
      (free_block st j c /\ ~ (j = k /\ (c = b \/ c = b'))) \/
      (j = k + 1 /\ c = Z.min b b').
Proof.
  intros Hinv Hk Hpos Hbud Hb'.
  pose proof Hinv as [Hw Ha Hs Hd]. pose proof Hk as [Hk0 _].
  assert (free_block st k b) as Hfb by (split; [done|by eapply list_elem_of_lookup_2]).
  assert (free_block st k b') as Hfb' by done.
  destruct (buddy_of_Some _ _ _ Hk0 Hbud) as (Hmax & Hal & Hcase).
  assert (valid_order (k + 1)) as Hk1 by (unfold valid_order in *; lia).
  pose proof (buddy_of_neq _ _ _ Hk0 Hbud) as Hne.
  destruct (unlink_is_Some b (area st k) (proj2 Hfb)) as [l1 Hl1].
  set (st1 := set_area st k l1).
  pose proof (buddy_inv_remove st k b l1 Hinv Hk Hl1) as Hinv1.
  pose proof (fun j c => free_block_remove st k b l1 j c Hw Hk (Hs k Hk) Hl1) as Hfb1.
  fold st1 in Hinv1, Hfb1.
  assert (free_block st1 k b') as Hfb'1
    by (apply Hfb1; split; [done|]; intros [_ ?]; congruence).
  destruct (unlink_is_Some b' (area st1 k) (proj2 Hfb'1)) as [l2 Hl2].
  set (st2 := set_area st1 k l2).
  pose proof (buddy_inv_remove st1 k b' l2 Hinv1 Hk Hl2) as Hinv2.
  pose proof (fun j c => free_block_remove st1 k b' l2 j c (inv_wf _ Hinv1) Hk
                           (inv_sorted _ Hinv1 k Hk) Hl2) as Hfb2.
  fold st2 in Hinv2, Hfb2.
  set (m := if is_correct_alignment_for_order b (k + 1) then b else b').
  assert (m = Z.min b b') as Hm.
  { pose proof (ppb_pos k Hk0). unfold m. destruct Hcase as [[Ha1 ->]|[Ha1 ->]].
    - rewrite (proj2 (is_aligned_spec b (k + 1) ltac:(lia)) Ha1). lia.
    - rewrite (proj2 (is_aligned_false b (k + 1) ltac:(lia)) Ha1). lia. }
  destruct (covers_parent b k b' 0 Hk0 Hbud) as [Hma _]. fold m in Hma.
  assert (forall p, covers m (k + 1) p <-> covers b k p \/ covers b' k p) as Hcov.
  { intros p. apply (covers_parent b k b' p Hk0 Hbud). }
  assert (forall p, page_free st2 p <->
                    page_free st p /\ ~ covers b k p /\ ~ covers b' k p) as Hpf2.
  { intros p. unfold st2.
    rewrite (page_free_remove st1 k b' l2 p Hinv1 Hfb'1 Hl2). unfold st1.
    rewrite (page_free_remove st k b l1 p Hinv Hfb Hl1). tauto. }
  set (st3 := set_area st2 (k + 1) (insert_sorted m (area st2 (k + 1)))).
  assert (buddy_inv st3) as Hinv3.
  { apply buddy_inv_insert; [done..|]. intros p Hp Hf.
    apply Hpf2 in Hf. apply Hcov in Hp. tauto. }
  pose proof (fun j c => free_block_insert st2 (k + 1) m j c (inv_wf _ Hinv2) Hk1) as Hfb3.
  fold st3 in Hfb3. rewrite <- Hm.
  exists (insert_pos m (area st2 (k + 1))), st3.
  split; [|split; [done|split]].
  - unfold merge_block. mret (deref_Ret st k pos Hw Hk). rewrite Hpos.
    mret (assert_true _ st (proj2 (is_aligned_spec b k Hk0) Hal)). rewrite Hbud.
    mret (remove_block_Ret st b k l1 Hw Hk Hl1).
    mret (remove_block_Ret st1 b' k l2 (inv_wf _ Hinv1) Hk Hl2).
    fold st1 st2. replace
      (if is_correct_alignment_for_order b (k + 1)
       then insert_block b (k + 1) else insert_block b' (k + 1))
      with (insert_block m (k + 1)) by (unfold m; by destruct is_correct_alignment_for_order).
    by rewrite (insert_block_Ret st2 m (k + 1) (inv_wf _ Hinv2) Hk1).
  - unfold st3. rewrite area_set_area_eq by (done || apply Hinv2).
    apply lookup_insert_pos.
  - intros j c. rewrite Hfb3, Hfb2, Hfb1. tauto.
Qed.

(** X5.  [split_block] of a free block of an order above 0, in a table with
    the structural invariant, returns the block, takes it off its list and
    links its two halves into the list one order down; no other block is
    touched, the set of free pages is the same and the structural
    invariant still holds.  At order 0 nothing happens.  At an order of the
    table, a block that is not in the list of that order, or is not aligned
    to it, ends in a failed assertion. *)
Theorem split_block_effect :
  (forall st b k,
     buddy_inv st -> 0 < k -> free_block st k b ->
     exists st',
       split_block (Some b) k st = Ret b st' /\
       buddy_inv st' /\
       (forall p, page_free st' p <-> page_free st p) /\
       (forall j c, free_block st' j c <->
          (free_block st j c /\ ~ (j = k /\ c = b)) \/
          (j = k - 1 /\ (c = b \/ c = b + pages_per_block (k - 1))))) /\
  (forall st b, split_block (Some b) 0 st = Ret b st) /\
  (forall st b k,
     wf_table st -> valid_order k -> 0 < k ->
     is_correct_alignment_for_order b k = true -> b ∉ area st k ->
     split_block (Some b) k st = AssertFail) /\
  (forall st b k,
     valid_order k ->
     is_correct_alignment_for_order b k = false ->
     split_block (Some b) k st = AssertFail).
Proof.
  split; [|split; [|split]].
  - intros st b k Hinv Hpos Hb.
    destruct (split_block_blocks st b k Hinv Hpos Hb) as (st' & Hrun & Hinv' & Hfb).
    exists st'. split; [done|]. split; [done|]. split; [|done].
    intros p. split.
    + intros (j & c & Hc & Hp). apply Hfb in Hc as [[Hc _]|[-> Hc]]; [by exists j, c|].
      exists k, b. split; [done|]. apply covers_halves; [done|].
      destruct Hc as [-> | ->]; auto.
    + intros (j & c & Hc & Hp).
      destruct (decide (j = k /\ c = b)) as [[-> ->]|Hne].
      * apply (proj1 (covers_halves b k p Hpos)) in Hp as [Hp|Hp].
        -- exists (k - 1), b. split; [apply Hfb; auto|done].
        -- exists (k - 1), (b + pages_per_block (k - 1)). split; [apply Hfb; auto|done].
      * exists j, c. split; [apply Hfb; auto|done].
  - intros st b. unfold split_block.
    assert (is_correct_alignment_for_order b 0 = true) as Hal.
    { apply is_aligned_spec; [done|apply aligned_0]. }
    by mret (assert_true _ st Hal).
  - intros st b k Hw Hk Hpos Hal Hn. unfold split_block.
    mret (assert_true _ st Hal). rewrite (proj2 (Z.eqb_neq k 0)) by lia.
    unfold bind at 1. unfold remove_block. mret (read_area_Ret st k Hw Hk).
    by rewrite (proj2 (unlink_None b (area st k)) Hn).
  - intros st b k _ Hal. unfold split_block, bind, assert. by rewrite Hal.
Qed.

Lemma split_block_effect_witness :
  buddy_inv scenario_A /\ 0 < 3 /\ free_block scenario_A 3 0 /\
  wf_table scenario_A /\ valid_order 2 /\ 0 < 2 /\
  is_correct_alignment_for_order 0 2 = true /\ (0 ∉ area scenario_A 2) /\
  valid_order 3 /\ is_correct_alignment_for_order 2 3 = false /\
  (exists st',
     split_block (Some 0) 3 scenario_A = Ret 0 st' /\
     buddy_inv st' /\
     (forall p, page_free st' p <-> page_free scenario_A p) /\
     (forall j c, free_block st' j c <->
        (free_block scenario_A j c /\ ~ (j = 3 /\ c = 0)) \/
        (j = 3 - 1 /\ (c = 0 \/ c = 0 + pages_per_block (3 - 1))))) /\
  split_block (Some 0) 2 scenario_A = AssertFail /\
  split_block (Some 2) 3 scenario_A = AssertFail.
Proof.
  pose proof (proj1 (reachable_inv scenario_A reachable_scenario_A)) as Hinv.
  assert (0 < 3) as H3 by lia. assert (0 < 2) as H2 by lia.
  assert (valid_order 2) as Hk2 by (unfold valid_order, MAX_ORDER; lia).
  assert (valid_order 3) as Hk3 by (unfold valid_order, MAX_ORDER; lia).
  assert (free_block scenario_A 3 0) as Hb.
  { split; [exact Hk3|].
    apply (list_elem_of_lookup_2 _ 0%nat). reflexivity. }
  assert (0 ∉ area scenario_A 2) as Hn by (apply unlink_None; reflexivity).
  destruct split_block_effect as (Hsplit & _ & Habsent & Hmis).
  split; [exact Hinv|]. split; [exact H3|]. split; [exact Hb|].
  split; [reflexivity|]. split; [exact Hk2|]. split; [exact H2|].
  split; [reflexivity|]. split; [exact Hn|]. split; [exact Hk3|].
  split; [reflexivity|].
  split; [exact (Hsplit scenario_A 0 3 Hinv H3 Hb)|].
  split; [exact (Habsent scenario_A 0 2 eq_refl Hk2 H2 eq_refl Hn)|].
  exact (Hmis scenario_A 2 3 Hk3 eq_refl).
Defined.

(** X6.  [merge_block] at the slot of a free block whose buddy is free at
    the same order, in a table with the structural invariant, takes both
    off their list and links the lower of the two into the list one order
    up, where the slot returned points to it; no other block is touched,
    the set of free pages is the same and the structural invariant still
    holds.  When the buddy is not in the list the second removal ends in a
    failed assertion, and at [MAX_ORDER], where there is no buddy, the
    null pointer is used. *)
Theorem merge_block_effect :
  (forall st k pos b b',
     buddy_inv st -> valid_order k ->
     area st k !! pos = Some b -> buddy_of b k = Some b' -> b' ∈ area st k ->
     exists pos' st',
       merge_block (mk_slot k pos) k st = Ret (mk_slot (k + 1) pos') st' /\
       buddy_inv st' /\
       area st' (k + 1) !! pos' = Some (Z.min b b') /\
       (forall p, page_free st' p <-> page_free st p) /\
       (forall j c, free_block st' j c <->
          (free_block st j c /\ ~ (j = k /\ (c = b \/ c = b'))) \/
          (j = k + 1 /\ c = Z.min b b'))) /\
  (forall st k pos b b',
     wf_table st -> valid_order k ->
     area st k !! pos = Some b -> buddy_of b k = Some b' -> b' ∉ area st k ->
     merge_block (mk_slot k pos) k st = AssertFail) /\
  (forall st pos b,
     wf_table st ->
     area st MAX_ORDER !! pos = Some b ->
     is_correct_alignment_for_order b MAX_ORDER = true ->
     merge_block (mk_slot MAX_ORDER pos) MAX_ORDER st = Undefined).
Proof.
  split; [|split].
  - intros st k pos b b' Hinv Hk Hpos Hbud Hb'.
    destruct (merge_block_blocks st k pos b b' Hinv Hk Hpos Hbud Hb')
      as (pos' & st' & Hrun & Hinv' & Hslot & Hfb).
    destruct (merge_block_spec st k pos b b' Hinv Hk Hpos Hbud Hb')
      as (pos1 & m & st1 & Hrun1 & _ & _ & _ & Hpf & _).
    rewrite Hrun in Hrun1. injection Hrun1 as _ <-.
    by exists pos', st'.
  - intros st k pos b b' Hw Hk Hpos Hbud Hn.
    destruct (buddy_of_Some _ _ _ (proj1 Hk) Hbud) as (_ & Hal & _).
    assert (b ∈ area st k) as Hin by (by eapply list_elem_of_lookup_2).
    destruct (unlink_is_Some _ _ Hin) as [l1 Hl1].
    unfold merge_block. mret (deref_Ret st k pos Hw Hk). rewrite Hpos.
    mret (assert_true _ st (proj2 (is_aligned_spec b k (proj1 Hk)) Hal)). rewrite Hbud.
    mret (remove_block_Ret st b k l1 Hw Hk Hl1).
    unfold bind at 1. unfold remove_block.
    mret (read_area_Ret _ k (wf_set_area st k l1 Hw) Hk).
    rewrite area_set_area_eq by done.
    destruct (unlink b' l1) as [l2|] eqn:Hl2; [|done].
    destruct Hn. apply (unlink_subset b _ l1 _ Hl1).
    destruct (decide (b' ∈ l1)) as [|Hn']; [done|].
    apply unlink_None in Hn'. congruence.
  - intros st pos b Hw Hpos Hal.
    assert (valid_order MAX_ORDER) as Hk by (unfold valid_order, MAX_ORDER; lia).
    assert (b ∈ area st MAX_ORDER) as Hin by (by eapply list_elem_of_lookup_2).
    destruct (unlink_is_Some _ _ Hin) as [l1 Hl1].
    unfold merge_block. mret (deref_Ret st MAX_ORDER pos Hw Hk). rewrite Hpos.
    mret (assert_true _ st Hal).
    assert (buddy_of b MAX_ORDER = None) as -> by done.
    by mret (remove_block_Ret st b MAX_ORDER l1 Hw Hk Hl1).
Qed.

Lemma buddy_inv_scenario_C_linked : buddy_inv scenario_C_linked.
Proof.
  change scenario_C_linked
    with (set_area scenario_B 1 (insert_sorted 0 (area scenario_B 1))).
  apply buddy_inv_insert.
  - apply (reachable_inv scenario_B reachable_scenario_B).
  - unfold valid_order, MAX_ORDER. lia.
  - by apply is_aligned_spec.
  - apply (range_unused_spec scenario_B 0 2); reflexivity.
Qed.

Lemma merge_block_effect_witness :
  buddy_inv scenario_C_linked /\ valid_order 1 /\
  area scenario_C_linked 1 !! 0%nat = Some 0 /\ buddy_of 0 1 = Some 2 /\
  (2 ∈ area scenario_C_linked 1) /\
  wf_table scenario_D /\ area scenario_D 1 !! 0%nat = Some 0 /\
  (2 ∉ area scenario_D 1) /\
  wf_table (set_area empty_areas MAX_ORDER [0]) /\
  area (set_area empty_areas MAX_ORDER [0]) MAX_ORDER !! 0%nat = Some 0 /\
  is_correct_alignment_for_order 0 MAX_ORDER = true /\
  (exists pos' st',
     merge_block (mk_slot 1 0) 1 scenario_C_linked = Ret (mk_slot (1 + 1) pos') st' /\
     buddy_inv st' /\
     area st' (1 + 1) !! pos' = Some (Z.min 0 2) /\
     (forall p, page_free st' p <-> page_free scenario_C_linked p) /\
     (forall j c, free_block st' j c <->
        (free_block scenario_C_linked j c /\ ~ (j = 1 /\ (c = 0 \/ c = 2))) \/
        (j = 1 + 1 /\ c = Z.min 0 2))) /\
  merge_block (mk_slot 1 0) 1 scenario_D = AssertFail /\
  merge_block (mk_slot MAX_ORDER 0) MAX_ORDER (set_area empty_areas MAX_ORDER [0])
    = Undefined.
Proof.
  assert (valid_order 1) as Hk by (unfold valid_order, MAX_ORDER; lia).
  assert (2 ∈ area scenario_C_linked 1) as Hin.
  { apply (list_elem_of_lookup_2 _ 1%nat). reflexivity. }
  assert (2 ∉ area scenario_D 1) as Hout by (apply unlink_None; reflexivity).
  destruct merge_block_effect as (Hmerge & Habsent & Hmax).
  split; [exact buddy_inv_scenario_C_linked|]. split; [exact Hk|].
  split; [reflexivity|]. split; [reflexivity|]. split; [exact Hin|].
  split; [reflexivity|]. split; [reflexivity|]. split; [exact Hout|].
  split; [reflexivity|]. split; [reflexivity|]. split; [reflexivity|].
  split; [exact (Hmerge scenario_C_linked 1 0%nat 0 2 buddy_inv_scenario_C_linked Hk
                   eq_refl eq_refl Hin)|].
  split; [exact (Habsent scenario_D 1 0%nat 0 2 eq_refl Hk eq_refl eq_refl Hout)|].
  exact (Hmax (set_area empty_areas MAX_ORDER [0]) 0%nat 0 eq_refl eq_refl eq_refl).
Defined.

(** X7.  Splitting a free block and merging the two halves again, from the
    slot of the lower half, gives back the table, in any table with the
    structural invariant; the slot returned points to the block. *)
Theorem split_merge_round_trip :
  forall st b k,
    buddy_inv st -> 0 < k -> free_block st k b ->
    exists st1 pos pos',
      split_block (Some b) k st = Ret b st1 /\
      area st1 (k - 1) !! pos = Some b /\
      merge_block (mk_slot (k - 1) pos) (k - 1) st1 = Ret (mk_slot k pos') st /\
      area st k !! pos' = Some b.
Proof.
  intros st b k Hinv Hpos Hb. pose proof Hb as [Hk _].
  pose proof (inv_aligned _ Hinv k b Hb) as Hal.
  pose proof (ppb_pos (k - 1) ltac:(lia)) as Hpp.
  assert (valid_order (k - 1)) as Hk1 by (unfold valid_order in *; lia).
  destruct (split_block_blocks st b k Hinv Hpos Hb) as (st1 & Hrun1 & Hinv1 & Hfb1).
  assert (free_block st1 (k - 1) b) as Hlo by (apply Hfb1; auto).
  assert (free_block st1 (k - 1) (b + pages_per_block (k - 1))) as Hhi
    by (apply Hfb1; auto).
  destruct (list_elem_of_lookup_1 _ _ (proj2 Hlo)) as [pos Hposb].
  assert (buddy_of b (k - 1) = Some (b + pages_per_block (k - 1))) as Hbud.
  { apply buddy_of_low; [unfold valid_order in *; lia|].
    by replace (k - 1 + 1) with k by lia. }
  destruct (merge_block_blocks st1 (k - 1) pos b _ Hinv1 Hk1 Hposb Hbud (proj2 Hhi))
    as (pos' & st2 & Hrun2 & Hinv2 & Hslot & Hfb2).
  rewrite Z.min_l in Hslot, Hfb2 by lia.
  replace (k - 1 + 1) with k in * by lia.
  assert (st2 = st) as ->.
  { apply table_eq_blocks; [done..|]. intros j c. rewrite Hfb2, Hfb1. split.
    - intros [[[[Hc _]|Hc] Hn]|[-> ->]]; [done|tauto|done].
    - intros Hc. destruct (decide (j = k /\ c = b)) as [[-> ->]|Hne]; [by right|].
      left. split; [by left|]. intros [-> Hcc].
      assert (covers b k c) as Hbc by (unfold covers; rewrite (ppb_pred k Hpos);
                                        destruct Hcc as [-> | ->]; lia).
      destruct (inv_disjoint _ Hinv _ _ _ _ c Hc Hb (covers_self c _ (proj1 Hk1)) Hbc).
      lia. }
  by exists st1, pos, pos'.
Qed.

Lemma split_merge_round_trip_witness :
  buddy_inv scenario_A /\ 0 < 3 /\ free_block scenario_A 3 0 /\
  exists st1 pos pos',
    split_block (Some 0) 3 scenario_A = Ret 0 st1 /\
    area st1 (3 - 1) !! pos = Some 0 /\
    merge_block (mk_slot (3 - 1) pos) (3 - 1) st1 = Ret (mk_slot 3 pos') scenario_A /\
    area scenario_A 3 !! pos' = Some 0.
Proof.
  pose proof (proj1 (reachable_inv scenario_A reachable_scenario_A)) as Hinv.
  assert (0 < 3) as H3 by lia.
  assert (free_block scenario_A 3 0) as Hb.
  { split; [unfold valid_order, MAX_ORDER; lia|].
    apply (list_elem_of_lookup_2 _ 0%nat). reflexivity. }
  split; [exact Hinv|]. split; [exact H3|]. split; [exact Hb|].
  exact (split_merge_round_trip scenario_A 0 3 Hinv H3 Hb).
Defined.

(** ** What an allocation takes *)

(** The upper halves split off between [order] and [f] make up the block
    of order [f] without its first [2^order] pages. *)
Lemma upper_halves b order p (n : nat) :
  0 <= order ->
  (exists j, order <= j < order + Z.of_nat n /\ covers (b + pages_per_block j) j p) <->
  b + pages_per_block order <= p < b + pages_per_block (order + Z.of_nat n).
Proof.
  intros Ho. induction n as [|n IH].
  - rewrite Z.add_0_r. split; [intros (j & ? & _); lia|lia].
  - rewrite Nat2Z.inj_succ, <- Z.add_1_r, Z.add_assoc.
    set (f := order + Z.of_nat n) in *.
    pose proof (ppb_succ f ltac:(lia)) as Hsucc.
    pose proof (ppb_le order f ltac:(lia)) as Hle.
    pose proof (ppb_pos order Ho) as Hpo.
    split.
    + intros (j & Hj & Hc). destruct (decide (j = f)) as [->|Hne].
      * unfold covers in Hc. lia.
      * assert (b + pages_per_block order <= p < b + pages_per_block f); [|lia].
        apply IH. exists j. split; [lia|done].
    + intros Hp. destruct (decide (p < b + pages_per_block f)) as [Hlt|Hge].
      * destruct (proj2 IH ltac:(lia)) as (j & Hj & Hc). exists j. split; [lia|done].
      * exists f. split; [lia|]. unfold covers. lia.
Qed.

Lemma allocated_pages st st' order f b rest :
  buddy_inv st -> valid_order order -> order <= f <= MAX_ORDER ->
  (forall j, order <= j < f -> area st j = []) ->
  area st f = b :: rest -> allocated st st' order f b rest ->
  forall p, page_free st' p <-> page_free st p /\ ~ covers b order p.
Proof.
  intros Hinv Hk Hf Hlow Ha [Hw' Har] p. pose proof Hinv as [Hw Hal Hs Hd].
  pose proof Hk as [Ho0 _].
  assert (valid_order f) as Hvf by (unfold valid_order in *; lia).
  assert (free_block st f b) as Hfb.
  { split; [done|]. rewrite Ha. apply list_elem_of_here. }
  pose proof (Hs f Hvf) as Hsf. rewrite Ha in Hsf. destruct Hsf as [Hlt _].
  pose proof (ppb_le order f ltac:(lia)) as Hle.
  pose proof (ppb_pos order Ho0) as Hpo.
  pose proof (upper_halves b order p (Z.to_nat (f - order)) Ho0) as Hup.
  replace (order + Z.of_nat (Z.to_nat (f - order))) with f in Hup by lia.
  split.
  - intros (j & c & [Hj Hc] & Hp). rewrite (Har j Hj) in Hc.
    destruct (decide (j = f)) as [->|Hne].
    + assert (free_block st f c) as Hfc.
      { split; [done|]. rewrite Ha. by apply list_elem_of_further. }
      split; [by exists f, c|]. intros Hbp.
      assert (covers b f p) as Hbf by (unfold covers in *; lia).
      destruct (Hd _ _ _ _ _ Hfc Hfb Hp Hbf) as [_ ->]. specialize (Hlt _ Hc). lia.
    + destruct (decide (order <= j < f)) as [Hin|Hout].
      * apply list_elem_of_singleton in Hc. subst c.
        assert (b + pages_per_block order <= p < b + pages_per_block f) as Hr
          by (apply Hup; eauto).
        split; [|unfold covers; lia]. exists f, b. split; [done|]. unfold covers. lia.
      * assert (free_block st j c) as Hfc by done.
        split; [by exists j, c|]. intros Hbp.
        assert (covers b f p) as Hbf by (unfold covers in *; lia).
        destruct (Hd _ _ _ _ _ Hfc Hfb Hp Hbf). done.
  - intros [(j & c & [Hj Hc] & Hp) Hn].
    destruct (decide (j = f /\ c = b)) as [[-> ->]|Hne].
    + assert (b + pages_per_block order <= p < b + pages_per_block f) as Hr
        by (unfold covers in *; lia).
      apply Hup in Hr as (i & Hi & Hc').
      exists i, (b + pages_per_block i). split; [|done].
      assert (valid_order i) as Hvi by (unfold valid_order in *; lia).
      split; [done|]. rewrite (Har i Hvi), decide_False, decide_True by lia.
      by apply list_elem_of_singleton.
    + exists j, c. split; [|done]. split; [done|]. rewrite (Har j Hj).
      destruct (decide (j = f)) as [->|Hnf].
      * rewrite Ha in Hc. apply elem_of_cons in Hc as [->|Hc]; [tauto|done].
      * destruct (decide (order <= j < f)) as [Hin|Hout]; [|done].
        rewrite (Hlow j Hin) in Hc. by apply elem_of_nil in Hc.
Qed.

(** What a successful allocation has done, in a table with the structural
    invariant. *)
Lemma allocate_pages_takes st order b st' :
  buddy_inv st -> valid_order order ->
  allocate_pages order st = Ret (Some b) st' ->
  aligned b order /\
  (forall p, covers b order p -> page_free st p) /\
  (forall p, page_free st' p <-> page_free st p /\ ~ covers b order p) /\
  buddy_inv st' /\ (no_free_buddies st -> no_free_buddies st').
Proof.
  intros Hinv Hk Hrun. pose proof (inv_wf _ Hinv) as Hw.
  destruct (find_free_spec (Z.to_nat (MAX_ORDER - order)) order st Hw Hk ltac:(lia))
    as [[Hall _]|(f & Hf & Hlow & Hne & _)].
  { by rewrite (allocate_pages_null st order Hw Hk Hall) in Hrun. }
  destruct (area st f) as [|b0 rest] eqn:Ha; [done|].
  assert (free_block st f b0) as Hfb.
  { split; [unfold valid_order in *; lia|]. rewrite Ha. apply list_elem_of_here. }
  pose proof (inv_aligned _ Hinv f b0 Hfb) as Hal.
  destruct (allocate_pages_block st order f b0 rest Hw Hk Hf Hlow Ha Hal)
    as (st1 & Hrun1 & Halloc).
  rewrite Hrun1 in Hrun. injection Hrun as -> ->.
  pose proof (ppb_le order f ltac:(destruct Hk; lia)) as Hle.
  split; [apply (aligned_le b order f); [destruct Hk; lia|done]|].
  split; [intros p Hp; exists f, b; split; [done|unfold covers in *; lia]|].
  split; [by apply (allocated_pages st st' order f b rest)|].
  by apply (allocated_inv st st' order f b rest).
Qed.

(** X8.  In a table with the structural invariant, the block that
    [allocate_pages order] returns is aligned to [order]; its [2^order]
    pages were free, and afterwards exactly these pages have left the pool;
    the structural invariant still holds. *)
Theorem allocate_pages_conservation :
  forall st order b st',
    buddy_inv st -> valid_order order ->
    allocate_pages order st = Ret (Some b) st' ->
    is_correct_alignment_for_order b order = true /\
    (forall p, covers b order p -> page_free st p) /\
    (forall p, page_free st' p <-> page_free st p /\ ~ covers b order p) /\
    buddy_inv st'.
Proof.
  intros st order b st' Hinv Hk Hrun.
  destruct (allocate_pages_takes st order b st' Hinv Hk Hrun)
    as (Hal & Hwas & Hpf & Hinv' & _).
  split; [by apply is_aligned_spec; [apply Hk|]|]. auto.
Qed.

Lemma allocate_pages_conservation_witness :
  buddy_inv scenario_A /\ valid_order 1 /\
  allocate_pages 1 scenario_A = Ret (Some 0) scenario_B /\
  is_correct_alignment_for_order 0 1 = true /\
  (forall p, covers 0 1 p -> page_free scenario_A p) /\
  (forall p, page_free scenario_B p <-> page_free scenario_A p /\ ~ covers 0 1 p) /\
  buddy_inv scenario_B.
Proof.
  pose proof (proj1 (reachable_inv scenario_A reachable_scenario_A)) as Hinv.
  assert (valid_order 1) as Hk by (unfold valid_order, MAX_ORDER; lia).
  split; [exact Hinv|]. split; [exact Hk|]. split; [reflexivity|].
  exact (allocate_pages_conservation scenario_A 1 0 scenario_B Hinv Hk eq_refl).
Defined.

(** X9.  Two successive allocations never hand out the same page: the
    block of the second shares no page with the block of the first. *)
Theorem allocations_disjoint :
  forall st order1 b1 st1 order2 b2 st2,
    buddy_inv st -> valid_order order1 -> valid_order order2 ->
    allocate_pages order1 st = Ret (Some b1) st1 ->
    allocate_pages order2 st1 = Ret (Some b2) st2 ->
    b1 + pages_per_block order1 <= b2 \/ b2 + pages_per_block order2 <= b1.
Proof.
  intros st k1 b1 st1 k2 b2 st2 Hinv Hk1 Hk2 Hrun1 Hrun2.
  destruct (allocate_pages_takes st k1 b1 st1 Hinv Hk1 Hrun1)
    as (_ & _ & Hpf1 & Hinv1 & _).
  destruct (allocate_pages_takes st1 k2 b2 st2 Hinv1 Hk2 Hrun2)
    as (_ & Hwas2 & _).
  pose proof (ppb_pos k1 (proj1 Hk1)). pose proof (ppb_pos k2 (proj1 Hk2)).
  destruct (decide (b1 + pages_per_block k1 <= b2)); [by left|].
  destruct (decide (b2 + pages_per_block k2 <= b1)); [by right|]. exfalso.
  assert (covers b2 k2 (Z.max b1 b2)) as Hc2 by (unfold covers; lia).
  apply Hwas2, Hpf1 in Hc2 as [_ Hn]. apply Hn. unfold covers. lia.
Qed.

Lemma allocations_disjoint_witness :
  buddy_inv scenario_A /\ valid_order 1 /\ valid_order 0 /\
  (exists st2,
     allocate_pages 1 scenario_A = Ret (Some 0) scenario_B /\
     allocate_pages 0 scenario_B = Ret (Some 2) st2) /\
  (0 + pages_per_block 1 <= 2 \/ 2 + pages_per_block 0 <= 0).
Proof.
  pose proof (proj1 (reachable_inv scenario_A reachable_scenario_A)) as Hinv.
  assert (valid_order 1) as Hk1 by (unfold valid_order, MAX_ORDER; lia).
  assert (valid_order 0) as Hk0 by (unfold valid_order, MAX_ORDER; lia).
  split; [exact Hinv|]. split; [exact Hk1|]. split; [exact Hk0|].
  split; [eexists; split; reflexivity|].
  exact (allocations_disjoint scenario_A 1 0 scenario_B 0 2 _ Hinv Hk1 Hk0
           eq_refl eq_refl).
Defined.

(** X10.  In a reachable table, freeing the block that [allocate_pages]
    has just returned, at the order it was asked for, gives back the table
    as it was before the allocation. *)
Theorem allocate_free_round_trip :
  forall st order b st1,
    reachable st -> valid_order order ->
    allocate_pages order st = Ret (Some b) st1 ->
    free_pages b order st1 = Ret tt st.
Proof.
  intros st order b st1 [Hinv Hnb]%reachable_inv Hk Hrun.
  destruct (allocate_pages_takes st order b st1 Hinv Hk Hrun)
    as (Hal & Hwas & Hpf1 & Hinv1 & Hnb1).
  destruct (free_pages_spec st1 b order Hinv1 Hk Hal) as (st2 & Hrun2 & Hinv2 & Hpf2 & Hnb2).
  { intros p Hp Hf. apply Hpf1 in Hf. tauto. }
  rewrite Hrun2. f_equal. apply table_canonical; auto.
  intros p. rewrite Hpf2, Hpf1. split; [intros [[? _]|?]; auto|].
  intros Hf. unfold covers.
  destruct (decide (b <= p < b + pages_per_block order)); [by right|by left].
Qed.

Lemma allocate_free_round_trip_witness :
  reachable scenario_A /\ valid_order 1 /\
  allocate_pages 1 scenario_A = Ret (Some 0) scenario_B /\
  free_pages 0 1 scenario_B = Ret tt scenario_A.
Proof.
  assert (valid_order 1) as Hk by (unfold valid_order, MAX_ORDER; lia).
  split; [exact reachable_scenario_A|]. split; [exact Hk|]. split; [reflexivity|].
  exact (allocate_free_round_trip scenario_A 1 0 scenario_B reachable_scenario_A Hk
           eq_refl).
Defined.

(** ** What freeing a block does *)

(** The merged block starts at the lower of the two buddies. *)
Lemma parent_min b k b' :
  0 <= k -> buddy_of b k = Some b' ->
  (if is_correct_alignment_for_order b (k + 1) then b else b') = Z.min b b'.
Proof.
  intros Hk Hbud. destruct (buddy_of_Some _ _ _ Hk Hbud) as (_ & _ & Hcase).
  pose proof (ppb_pos k Hk).
  destruct Hcase as [[Ha1 ->]|[Ha1 ->]].
  - rewrite (proj2 (is_aligned_spec b (k + 1) ltac:(lia)) Ha1). lia.
  - rewrite (proj2 (is_aligned_false b (k + 1) ltac:(lia)) Ha1). lia.
Qed.

(** The block the merge loop is started on ends up inside one free block,
    of its own order or a higher one. *)
Lemma merge_loop_covering fuel : forall k pos b st,
  (Z.to_nat (MAX_ORDER - k) <= fuel)%nat ->
  valid_order k -> buddy_inv st -> area st k !! pos = Some b ->
  exists st' j c,
    merge_loop fuel (mk_slot k pos) k st = Ret tt st' /\
    k <= j /\ free_block st' j c /\
    forall p, covers b k p -> covers c j p.
Proof.
  induction fuel as [|fuel IH]; intros k pos b st Hfuel Hk Hinv Hpos;
    rewrite merge_loop_unfold;
    mret (read_area_Ret st k (inv_wf _ Hinv) Hk);
    mret (deref_Ret st k pos (inv_wf _ Hinv) Hk); rewrite Hpos; simpl;
    destruct ((k <? MAX_ORDER) && scan_for (buddy_of b k) (area st k)) eqn:E.
  - apply andb_true_iff in E as [E%Z.ltb_lt _]. lia.
  - exists st, k, b. split; [done|]. split; [lia|]. split; [|done].
    split; [done|by eapply list_elem_of_lookup_2].
  - apply andb_true_iff in E as [Hmax%Z.ltb_lt (b' & Hbud & Hb')%scan_for_true].
    destruct (merge_block_blocks st k pos b b' Hinv Hk Hpos Hbud Hb')
      as (pos' & st1 & Hrun & Hinv1 & Hpos1 & _).
    mret Hrun.
    destruct (IH (k + 1) pos' (Z.min b b') st1 ltac:(lia)
                ltac:(unfold valid_order in *; lia) Hinv1 Hpos1)
      as (st' & j & c & Hrun' & Hj & Hc & Hcov).
    exists st', j, c. split; [done|]. split; [lia|]. split; [done|].
    intros p Hp. apply Hcov.
    destruct (covers_parent b k b' p (proj1 Hk) Hbud) as [_ Hpar].
    rewrite (parent_min b k b' (proj1 Hk) Hbud) in Hpar. tauto.
  - exists st, k, b. split; [done|]. split; [lia|]. split; [|done].
    split; [done|by eapply list_elem_of_lookup_2].
Qed.

(** X11.  [free_pages] of a block that is aligned to its order and has no
    free page, in a table with the structural invariant, returns; the free
    pages are then those that were free and those of the block, the
    structural invariant still holds, and the block lies inside one free
    block of its own order or a higher one.  At an order of the table, a
    block that is not aligned to the order ends in a failed assertion. *)
Theorem free_pages_conservation :
  (forall st pgd order,
     buddy_inv st -> valid_order order ->
     is_correct_alignment_for_order pgd order = true ->
     (forall p, covers pgd order p -> ~ page_free st p) ->
     exists st',
       free_pages pgd order st = Ret tt st' /\
       buddy_inv st' /\
       (forall p, page_free st' p <-> page_free st p \/ covers pgd order p) /\
       exists j c, order <= j /\ free_block st' j c /\
                   forall p, covers pgd order p -> covers c j p) /\
  (forall st pgd order,
     valid_order order -> is_correct_alignment_for_order pgd order = false ->
     free_pages pgd order st = AssertFail).
Proof.
  split.
  - intros st pgd order Hinv Hk Hal Hfresh. apply is_aligned_spec in Hal; [|apply Hk].
    destruct (free_pages_spec st pgd order Hinv Hk Hal Hfresh)
      as (st' & Hrun & Hinv' & Hpf & _).
    exists st'. split; [done|]. split; [done|]. split; [done|].
    pose proof (inv_wf _ Hinv) as Hw.
    set (st1 := set_area st order (insert_sorted pgd (area st order))).
    pose proof (buddy_inv_insert st order pgd Hinv Hk Hal Hfresh) as Hinv1.
    fold st1 in Hinv1.
    assert (area st1 order !! insert_pos pgd (area st order) = Some pgd) as Hpos.
    { unfold st1. rewrite area_set_area_eq by done. apply lookup_insert_pos. }
    destruct (merge_loop_covering (Z.to_nat (MAX_ORDER - order)) order _ pgd st1
                ltac:(lia) Hk Hinv1 Hpos) as (st2 & j & c & Hrun2 & Hj & Hc & Hcov).
    assert (free_pages pgd order st = Ret tt st2) as Hrun'.
    { unfold free_pages.
      destruct (order <? 0) eqn:E; [apply Z.ltb_lt in E; destruct Hk; lia|].
      mret (assert_true _ st (proj2 (is_aligned_spec pgd order (proj1 Hk)) Hal)).
      by mret (insert_block_Ret st pgd order Hw Hk). }
    rewrite Hrun in Hrun'. injection Hrun' as ->. by exists j, c.
  - intros st pgd order [Hk _] Hal. unfold free_pages.
    rewrite (proj2 (Z.ltb_ge order 0) Hk). unfold bind, assert. by rewrite Hal.
Qed.

Lemma free_pages_conservation_witness :
  buddy_inv scenario_B /\ valid_order 1 /\
  is_correct_alignment_for_order 0 1 = true /\
  (forall p, covers 0 1 p -> ~ page_free scenario_B p) /\
  is_correct_alignment_for_order 1 1 = false /\
  (exists st',
     free_pages 0 1 scenario_B = Ret tt st' /\
     buddy_inv st' /\
     (forall p, page_free st' p <-> page_free scenario_B p \/ covers 0 1 p) /\
     exists j c, 1 <= j /\ free_block st' j c /\
                 forall p, covers 0 1 p -> covers c j p) /\
  free_pages 1 1 scenario_B = AssertFail.
Proof.
  pose proof (proj1 (reachable_inv scenario_B reachable_scenario_B)) as Hinv.
  assert (valid_order 1) as Hk by (unfold valid_order, MAX_ORDER; lia).
  assert (forall p, covers 0 1 p -> ~ page_free scenario_B p) as Hfresh.
  { apply (range_unused_spec scenario_B 0 2); reflexivity. }
  split; [exact Hinv|]. split; [exact Hk|].
  split; [reflexivity|]. split; [exact Hfresh|]. split; [reflexivity|].
  split; [exact (proj1 free_pages_conservation scenario_B 0 1 Hinv Hk eq_refl Hfresh)|].
  exact (proj2 free_pages_conservation scenario_B 1 1 Hk eq_refl).
Defined.

(** X12.  In a table with the structural invariant, [free_pages] of an
    aligned block that is linked in no list, whose buddy is not free at the
    block's order (as always at [MAX_ORDER]), links the block into the list
    of its order and does nothing else.  When none of the pages of the
    block is free and the buddy is free at the block's order, neither the
    block nor the buddy is in that list afterwards: both lie inside one
    free block of a higher order. *)
Theorem free_pages_link_or_merge :
  (forall st pgd order,
     buddy_inv st -> valid_order order ->
     is_correct_alignment_for_order pgd order = true ->
     (forall j, valid_order j -> pgd ∉ area st j) ->
     (forall b', buddy_of pgd order = Some b' -> b' ∉ area st order) ->
     free_pages pgd order st
       = Ret tt (set_area st order (insert_sorted pgd (area st order)))) /\
  (forall st pgd order b',
     buddy_inv st -> valid_order order ->
     (forall p, covers pgd order p -> ~ page_free st p) ->
     buddy_of pgd order = Some b' -> b' ∈ area st order ->
     exists st' j c,
       free_pages pgd order st = Ret tt st' /\
       ~ free_block st' order pgd /\ ~ free_block st' order b' /\
       order < j /\ free_block st' j c /\
       forall p, covers pgd order p \/ covers b' order p -> covers c j p).
Proof.
  split.
  - intros st pgd order Hinv Hk Hal _ Hnb. pose proof (inv_wf _ Hinv) as Hw.
    unfold free_pages.
    destruct (order <? 0) eqn:E; [apply Z.ltb_lt in E; destruct Hk; lia|].
    mret (assert_true _ st Hal). mret (insert_block_Ret st pgd order Hw Hk).
    set (st1 := set_area st order (insert_sorted pgd (area st order))).
    pose proof (wf_set_area st order (insert_sorted pgd (area st order)) Hw) as Hw1.
    fold st1 in Hw1. unfold repeated_merge. rewrite merge_loop_unfold.
    mret (read_area_Ret st1 order Hw1 Hk). mret (deref_Ret st1 order
      (insert_pos pgd (area st order)) Hw1 Hk).
    unfold st1 at 1. rewrite area_set_area_eq, lookup_insert_pos by done. cbv zeta.
    destruct ((order <? MAX_ORDER)
              && scan_for (buddy_of pgd order) (area st1 order)) eqn:Es; [|done].
    apply andb_true_iff in Es as [_ (b' & Hbud & Hb')%scan_for_true].
    unfold st1 in Hb'. rewrite area_set_area_eq in Hb' by done.
    apply elem_of_insert_sorted in Hb' as [->|Hb'].
    + by destruct (buddy_of_neq _ _ _ (proj1 Hk) Hbud).
    + by destruct (Hnb b' Hbud).
  - intros st pgd order b' Hinv Hk Hfresh Hbud Hb'.
    pose proof (inv_wf _ Hinv) as Hw.
    destruct (buddy_of_Some _ _ _ (proj1 Hk) Hbud) as (Hmax & Hal & _).
    set (st0 := set_area st order (insert_sorted pgd (area st order))).
    pose proof (buddy_inv_insert st order pgd Hinv Hk Hal Hfresh) as Hinv0.
    fold st0 in Hinv0.
    assert (area st0 order !! insert_pos pgd (area st order) = Some pgd) as Hpos.
    { unfold st0. rewrite area_set_area_eq by done. apply lookup_insert_pos. }
    assert (b' ∈ area st0 order) as Hb0.
    { unfold st0. rewrite area_set_area_eq by done. apply elem_of_insert_sorted. auto. }
    destruct (merge_block_blocks st0 order _ pgd b' Hinv0 Hk Hpos Hbud Hb0)
      as (pos' & st1 & Hrun1 & Hinv1 & Hpos1 & Hfb1).
    assert (valid_order (order + 1)) as Hk1 by (unfold valid_order in *; lia).
    destruct (Z.to_nat (MAX_ORDER - order)) as [|fuel] eqn:Ef; [lia|].
    destruct (merge_loop_covering fuel (order + 1) pos' _ st1 ltac:(lia) Hk1 Hinv1 Hpos1)
      as (st' & j & c & Hrun' & Hj & Hc & Hcov).
    destruct (merge_loop_spec fuel (order + 1) pos' _ st1 ltac:(lia) Hk1 Hinv1 Hpos1)
      as (st2 & Hrun2 & _ & _ & _ & Hframe).
    rewrite Hrun' in Hrun2. injection Hrun2 as <-.
    exists st', j, c. split; [|split; [|split; [|split; [lia|split; [done|]]]]].
    + unfold free_pages.
      destruct (order <? 0) eqn:E; [apply Z.ltb_lt in E; destruct Hk; lia|].
      mret (assert_true _ st (proj2 (is_aligned_spec pgd order (proj1 Hk)) Hal)).
      mret (insert_block_Ret st pgd order Hw Hk). fold st0.
      unfold repeated_merge. rewrite Ef, merge_loop_unfold.
      mret (read_area_Ret st0 order (inv_wf _ Hinv0) Hk).
      mret (deref_Ret st0 order (insert_pos pgd (area st order)) (inv_wf _ Hinv0) Hk).
      rewrite Hpos. cbv zeta.
      assert ((order <? MAX_ORDER) && scan_for (buddy_of pgd order) (area st0 order)
              = true) as ->.
      { apply andb_true_iff. split; [by apply Z.ltb_lt|]. apply scan_for_true. eauto. }
      by mret Hrun1.
    + intros [_ Hin]. rewrite (Hframe order Hk ltac:(lia)) in Hin.
      assert (free_block st1 order pgd) as Hf by done.
      apply Hfb1 in Hf as [[_ Hf]|[? _]]; [tauto|lia].
    + intros [_ Hin]. rewrite (Hframe order Hk ltac:(lia)) in Hin.
      assert (free_block st1 order b') as Hf by done.
      apply Hfb1 in Hf as [[_ Hf]|[? _]]; [tauto|lia].
    + intros p Hp. apply Hcov.
      destruct (covers_parent pgd order b' p (proj1 Hk) Hbud) as [_ Hpar].
      rewrite (parent_min pgd order b' (proj1 Hk) Hbud) in Hpar. tauto.
Qed.

Lemma free_pages_link_or_merge_witness :
  buddy_inv scenario_B /\ valid_order 0 /\
  is_correct_alignment_for_order 0 0 = true /\
  (forall j, valid_order j -> 0 ∉ area scenario_B j) /\
  (forall b', buddy_of 0 0 = Some b' -> b' ∉ area scenario_B 0) /\
  valid_order 1 /\
  (forall p, covers 0 1 p -> ~ page_free scenario_B p) /\
  buddy_of 0 1 = Some 2 /\ (2 ∈ area scenario_B 1) /\
  free_pages 0 0 scenario_B
    = Ret tt (set_area scenario_B 0 (insert_sorted 0 (area scenario_B 0))) /\
  exists st' j c,
    free_pages 0 1 scenario_B = Ret tt st' /\
    ~ free_block st' 1 0 /\ ~ free_block st' 1 2 /\
    1 < j /\ free_block st' j c /\
    forall p, covers 0 1 p \/ covers 2 1 p -> covers c j p.
Proof.
  pose proof (proj1 (reachable_inv scenario_B reachable_scenario_B)) as Hinv.
  assert (valid_order 0) as Hk0 by (unfold valid_order, MAX_ORDER; lia).
  assert (valid_order 1) as Hk1 by (unfold valid_order, MAX_ORDER; lia).
  assert (forall b', buddy_of 0 0 = Some b' -> b' ∉ area scenario_B 0) as Hnb.
  { intros b' _. apply not_elem_of_nil. }
  assert (forall p, covers 0 1 p -> ~ page_free scenario_B p) as Hfresh.
  { apply (range_unused_spec scenario_B 0 2); reflexivity. }
  assert (2 ∈ area scenario_B 1) as Hin by apply list_elem_of_here.
  assert (forall j, valid_order j -> 0 ∉ area scenario_B j) as Hnew.
  { apply unused_not_linked; reflexivity. }
  split; [exact Hinv|]. split; [exact Hk0|]. split; [reflexivity|].
  split; [exact Hnew|]. split; [exact Hnb|]. split; [exact Hk1|].
  split; [exact Hfresh|]. split; [reflexivity|]. split; [exact Hin|].
  split; [exact (proj1 free_pages_link_or_merge scenario_B 0 0
                   Hinv Hk0 eq_refl Hnew Hnb)|].
  exact (proj2 free_pages_link_or_merge scenario_B 0 1 2 Hinv Hk1 Hfresh eq_refl Hin).
Defined.

(** ** Ranges *)



(** X14.  For a positive count the inner loop of [insert_page_range] leaves
    [size] at an order of the table: the largest one whose block fits in
    the count and to which [start] is aligned.  It never runs to its end
    with [size] at -1. *)
Theorem find_size_largest :
  forall start count,
    0 < count ->
    exists k,
      find_size (Z.to_nat MAX_ORDER) start count = k /\
      valid_order k /\ pages_per_block k <= count /\
      is_correct_alignment_for_order start k = true /\
      forall j, k < j <= MAX_ORDER ->
        count < pages_per_block j \/ is_correct_alignment_for_order start j = false.
Proof.
  intros s n Hn.
  destruct (find_size_spec (Z.to_nat MAX_ORDER) s n Hn) as (Hk & Hle & Hal & Hmax).
  rewrite Z2Nat.id in Hk, Hmax by done.
  eexists. split; [done|]. split; [done|]. split; [done|].
  split; [apply is_aligned_spec; [apply Hk|done]|].
  intros j Hj. destruct (Hmax j Hj) as [?|Hna]; [by left|right].
  apply is_aligned_false; [lia|done].
Qed.

Lemma find_size_largest_witness :
  0 < 6 /\
  exists k,
    find_size (Z.to_nat MAX_ORDER) 2 6 = k /\
    valid_order k /\ pages_per_block k <= 6 /\
    is_correct_alignment_for_order 2 k = true /\
    forall j, k < j <= MAX_ORDER ->
      6 < pages_per_block j \/ is_correct_alignment_for_order 2 j = false.
Proof.
  assert (0 < 6) as H by lia.
  split; [exact H|]. exact (find_size_largest 2 6 H).
Defined.

(** X15.  [insert_page_range] over exactly one block, a count of
    [2^order] pages from a frame aligned to [order], is [free_pages] of that
    block, whatever the table holds. *)
Theorem insert_page_range_one_block :
  forall st b order,
    valid_order order ->
    is_correct_alignment_for_order b order = true ->
    insert_page_range b (pages_per_block order) st = free_pages b order st.
Proof.
  intros st b k Hk Hal. pose proof Hk as [Hk0 Hk1].
  pose proof (ppb_pos k Hk0) as Hpos.
  apply is_aligned_spec in Hal; [|done].
  rewrite insert_page_range_unfold by done.
  destruct (find_size_spec (Z.to_nat MAX_ORDER) b (pages_per_block k) Hpos)
    as ([Hf0 Hf1] & Hle & _ & Hmax).
  rewrite Z2Nat.id in Hf1, Hmax by done.
  set (k' := find_size (Z.to_nat MAX_ORDER) b (pages_per_block k)) in *.
  assert (k' = k) as ->.
  { destruct (Z.lt_total k' k) as [Hlt|[->|Hgt]]; [|done|].
    - destruct (Hmax k ltac:(lia)) as [?|?]; [lia|tauto].
    - pose proof (ppb_lt k k' ltac:(lia)). lia. }
  cbv zeta. unfold bind. destruct (free_pages b k st) as [[] st'| | |]; try done.
  apply insert_page_range_0. lia.
Qed.

Lemma insert_page_range_one_block_witness :
  valid_order 1 /\ is_correct_alignment_for_order 0 1 = true /\
  insert_page_range 0 (pages_per_block 1) scenario_B = free_pages 0 1 scenario_B.
Proof.
  assert (valid_order 1) as Hk by (unfold valid_order, MAX_ORDER; lia).
  split; [exact Hk|]. split; [reflexivity|].
  exact (insert_page_range_one_block scenario_B 0 1 Hk eq_refl).
Defined.

(** X16.  On a reachable table, removing a range all of whose pages are
    free and inserting the same range again gives the table back. *)
Theorem remove_insert_round_trip :
  forall st start count,
    reachable st -> 0 <= start -> 0 <= count -> start + count <= 2 ^ 64 ->
    (forall p, start <= p < start + count -> page_free st p) ->
    exists st1,
      remove_page_range start count st = Ret tt st1 /\
      insert_page_range start count st1 = Ret tt st.
Proof.
  intros st s n Hr Hs Hn Hlim Hcov. destruct (reachable_inv st Hr) as [Hinv Hnb].
  destruct (remove_page_range_spec st s n) as (st1 & Hrun1 & Hinv1 & Hpf1 & Hnb1).
  { split; [done|]. split; [done|]. split; [done|]. by split. }
  destruct (insert_page_range_spec st1 s n Hinv1) as (st2 & Hrun2 & Hinv2 & Hpf2 & Hnb2).
  { intros p Hp Hf. apply Hpf1 in Hf. tauto. }
  exists st1. split; [done|]. rewrite Hrun2. f_equal.
  apply table_canonical; auto. intros p. rewrite Hpf2, Hpf1. split.
  - intros [[? _]|?]; auto.
  - intros Hf. destruct (Z_le_dec s p), (Z_lt_dec p (s + n)); first [left; split; [done|lia]|right; lia].
Qed.

Lemma remove_insert_round_trip_witness :
  reachable scenario_A /\ 0 <= 2 /\ 0 <= 3 /\ 2 + 3 <= 2 ^ 64 /\
  (forall p, 2 <= p < 2 + 3 -> page_free scenario_A p) /\
  exists st1,
    remove_page_range 2 3 scenario_A = Ret tt st1 /\
    insert_page_range 2 3 st1 = Ret tt scenario_A.
Proof.
  assert (0 <= 2) as H2 by lia. assert (0 <= 3) as H3 by lia.
  assert (2 + 3 <= 2 ^ 64) as Hlim by lia.
  assert (forall p, 2 <= p < 2 + 3 -> page_free scenario_A p) as Hcov.
  { apply (range_covered_spec scenario_A 2 3); reflexivity. }
  split; [exact reachable_scenario_A|]. split; [exact H2|]. split; [exact H3|].
  split; [exact Hlim|]. split; [exact Hcov|].
  exact (remove_insert_round_trip scenario_A 2 3 reachable_scenario_A H2 H3 Hlim Hcov).
Defined.

(** X17.  On a table with the structural invariant and no free buddies,
    [remove_page_range] over exactly the pages of a free block is
    [remove_block] of that block: the block is unlinked and nothing is
    inserted again. *)
Theorem remove_page_range_whole_block :
  forall st order b,
    buddy_inv st -> no_free_buddies st -> free_block st order b ->
    0 <= b -> b + pages_per_block order <= 2 ^ 64 ->
    exists st',
      remove_block b order st = Ret tt st' /\
      remove_page_range b (pages_per_block order) st = Ret tt st'.
Proof.
  intros st k b Hinv Hnb Hb Hb0 Hlim. pose proof Hb as [Hk Hin].
  pose proof (ppb_pos k (proj1 Hk)) as Hpos.
  destruct (unlink_is_Some b (area st k) Hin) as [l' Hl'].
  exists (set_area st k l').
  split; [by apply remove_block_Ret; [apply Hinv|..]|].
  destruct (remove_page_range_spec st b (pages_per_block k))
    as (st' & Hrun & Hinv' & Hpf & Hnb').
  { split; [done|]. split; [done|]. split; [lia|]. split; [done|].
    intros p Hp. by apply (free_block_page_free st k b). }
  rewrite Hrun. f_equal. apply table_canonical; auto.
  - by apply (buddy_inv_remove st k b).
  - by apply (no_free_buddies_remove st k b).
  - intros p. rewrite Hpf, (page_free_remove st k b l' p Hinv Hb Hl'). done.
Qed.

Lemma remove_page_range_whole_block_witness :
  buddy_inv scenario_B /\ no_free_buddies scenario_B /\ free_block scenario_B 1 2 /\
  0 <= 2 /\ 2 + pages_per_block 1 <= 2 ^ 64 /\
  exists st',
    remove_block 2 1 scenario_B = Ret tt st' /\
    remove_page_range 2 (pages_per_block 1) scenario_B = Ret tt st'.
Proof.
  destruct (reachable_inv scenario_B reachable_scenario_B) as [Hinv Hnb].
  assert (free_block scenario_B 1 2) as Hb.
  { split; [unfold valid_order, MAX_ORDER; lia|apply list_elem_of_here]. }
  assert (0 <= 2) as H2 by lia.
  assert (2 + pages_per_block 1 <= 2 ^ 64) as Hlim by (vm_compute; discriminate).
  split; [exact Hinv|]. split; [exact Hnb|]. split; [exact Hb|].
  split; [exact H2|]. split; [exact Hlim|].
  exact (remove_page_range_whole_block scenario_B 1 2 Hinv Hnb Hb H2 Hlim).
Defined.

(** X18.  The inner [while] of [remove_page_range] over an ascending free
    list finds a block whose span holds [start] whenever the list has one,
    and a block it finds is in the list and holds [start]. *)
Theorem find_overlap_ascending :
  forall start size l,
    ascending l ->
    match find_overlap start size l with
    | Some b => b ∈ l /\ b <= start <= b + size - 1
    | None => forall b, b ∈ l -> ~ (b <= start <= b + size - 1)
    end.
Proof.
  intros s sz l Hs. destruct (find_overlap s sz l) as [b|] eqn:E.
  - by apply find_overlap_Some.
  - intros b. by apply find_overlap_None.
Qed.

Lemma find_overlap_ascending_witness :
  ascending (area scenario_D 1) /\
  match find_overlap 7 2 (area scenario_D 1) with
  | Some b => (b ∈ area scenario_D 1) /\ b <= 7 <= b + 2 - 1
  | None => forall b, b ∈ area scenario_D 1 -> ~ (b <= 7 <= b + 2 - 1)
  end.
Proof.
  assert (ascending (area scenario_D 1)) as Hs.
  { split; [|split; [|exact I]].
    - intros y Hy. apply list_elem_of_singleton in Hy. subst y. reflexivity.
    - intros y Hy. by apply elem_of_nil in Hy. }
  split; [exact Hs|]. exact (find_overlap_ascending 7 2 (area scenario_D 1) Hs).
Defined.

(** ** Initialisation and orders outside the table *)

(** X19.  [init] returns whatever table it starts from; it tells whether
    the descriptor array is not null and holds at least one descriptor.
    After it no page is free, and [allocate_pages] returns null for every
    order of the table and changes nothing. *)
Theorem init_resets :
  forall st0 page_descriptors nr_page_descriptors,
    wf_table st0 ->
    exists st,
      init page_descriptors nr_page_descriptors st0
        = Ret (page_descriptors && (0 <? nr_page_descriptors)) st /\
      (forall p, ~ page_free st p) /\
      (forall k, valid_order k -> area st k = []) /\
      (forall order, valid_order order -> allocate_pages order st = Ret None st).
Proof.
  intros st0 pd nr Hw. exists empty_areas.
  split; [by apply init_Ret|]. split; [apply page_free_empty|].
  split; [intros; apply area_empty|].
  intros order Hk. apply allocate_pages_null; [apply buddy_inv_empty|done|].
  intros; apply area_empty.
Qed.

Lemma init_resets_witness :
  wf_table scenario_D /\
  exists st,
    init true 8 scenario_D = Ret (true && (0 <? 8)) st /\
    (forall p, ~ page_free st p) /\
    (forall k, valid_order k -> area st k = []) /\
    (forall order, valid_order order -> allocate_pages order st = Ret None st).
Proof.
  assert (wf_table scenario_D) as Hw by reflexivity.
  split; [exact Hw|]. exact (init_resets scenario_D true 8 Hw).
Defined.

(** X20.  [allocate_pages] with an order outside [0..MAX_ORDER] indexes the
    table out of its bounds: with a negative order in the search loop, with
    an order above [MAX_ORDER] right after the loop, which is then not
    entered. *)
Theorem allocate_pages_order_out_of_range :
  forall st order,
    ~ valid_order order -> allocate_pages order st = Undefined.
Proof.
  intros st order Hk. unfold allocate_pages.
  assert (in_bounds order = false) as Hb.
  { unfold in_bounds. apply andb_false_iff. unfold valid_order in Hk.
    destruct (Z_le_dec 0 order); [right; apply Z.leb_gt; lia|left; apply Z.leb_gt; lia]. }
  rewrite find_free_unfold. destruct (order <=? MAX_ORDER) eqn:E.
  - unfold bind at 1 2. by rewrite (read_area_out_of_bounds order st Hb).
  - unfold bind at 1, ret at 1. unfold bind at 1.
    by rewrite (read_area_out_of_bounds order st Hb).
Qed.

Lemma allocate_pages_order_out_of_range_witness :
  ~ valid_order 19 /\ allocate_pages 19 scenario_A = Undefined.
Proof.
  assert (~ valid_order 19) as Hk by (unfold valid_order, MAX_ORDER; lia).
  split; [exact Hk|]. exact (allocate_pages_order_out_of_range scenario_A 19 Hk).
Defined.
